(** * PinvGCN: the hypergraph pipeline of [pinvgcn/hypergraphs.py]

    A shallow embedding of [normalized_incidence],
    [hypergraph_laplacian_decomposition], [HypergraphPinv.__call__] and
    [UCIHypergraphDataset.save_processed], and the properties the
    specification states about them; then of [MushroomDataset.process]
    and [CovertypeDataset.process], with what the code shows about all
    of them.

    numpy arrays are lists (a 2-D array carries its column count, so that
    an array without rows still has a shape); the entries live in a scalar
    type with the arithmetic numpy applies to them.  Three instances are
    used: IEEE binary64 and binary32 (to run the code on concrete inputs)
    and the real numbers (for the statements of exact arithmetic).  numpy's
    dtype promotion between float32 tensors and float64 intermediates is
    not modelled inside [normalized_incidence]; the conversion to
    [np.float32] at the end of the decomposition is.

    [np.linalg.svd] and [scipy.sparse.linalg.svds] are library routines:
    the model takes them as a [Backend].  [setup_spectral_data] lives in
    [pinvgcn/data.py] and is a parameter of the orchestrator.
    [torch.FloatTensor] is a parameter of [save_processed]: the conversion
    of one entry to [float32]. *)

From Stdlib Require Import String Ascii Floats ZArith QArith Reals Lra Lia Psatz Bool List Sorted.
Import ListNotations.

Local Close Scope Q_scope.
Local Close Scope R_scope.
Local Open Scope nat_scope.
Local Open Scope string_scope.

Set Implicit Arguments.

(** ** Python outcomes *)

(** An exception is identified by the name of its class. *)
Definition exn := string.

Inductive outcome (A : Type) : Type :=
| Ok (a : A)
| Raise (e : exn).

Arguments Ok {A} a.
Arguments Raise {A} e.

Definition obind {A B : Type} (m : outcome A) (f : A -> outcome B) : outcome B :=
  match m with
  | Ok a => f a
  | Raise e => Raise e
  end.

Declare Scope outcome_scope.
Delimit Scope outcome_scope with outcome.
Notation "x <- m ;; k" := (obind m (fun x => k))
  (at level 61, m at next level, right associativity) : outcome_scope.

(** Calling an attribute that may be [None]: [None(...)] is a [TypeError]. *)
Definition py_call {A B : Type} (f : option (A -> outcome B)) (a : A) : outcome B :=
  match f with
  | Some g => g a
  | None => Raise "TypeError"
  end.

Definition is_None {A : Type} (o : option A) : bool :=
  match o with
  | None => true
  | Some _ => false
  end.

(** ** Scalars and arrays *)

Class Scalar (F : Type) : Type := {
  f_zero : F;
  f_one : F;
  f_add : F -> F -> F;
  f_sub : F -> F -> F;
  f_mul : F -> F -> F;
  f_div : F -> F -> F;
  f_sqrt : F -> F
}.

(** A 2-D array: [shape = (length rows, ncols)]. *)
Record matrix (F : Type) : Type := Matrix {
  ncols : nat;
  rows : list (list F)
}.

Definition nrows {F : Type} (M : matrix F) : nat := length (rows M).

Definition wf_matrix {F : Type} (M : matrix F) : Prop :=
  Forall (fun r => length r = ncols M) (rows M).

Definition zip_with {A B C : Type} (f : A -> B -> C) (xs : list A) (ys : list B) : list C :=
  map (fun p => f (fst p) (snd p)) (combine xs ys).

(** [M.astype(...)], entry by entry. *)
Definition map_matrix {A B : Type} (f : A -> B) (M : matrix A) : matrix B :=
  Matrix (ncols M) (map (map f) (rows M)).

(** [U[:, :k]] for a non-negative [k]. *)
Definition take_columns {F : Type} (k : nat) (M : matrix F) : matrix F :=
  Matrix (Nat.min k (ncols M)) (map (firstn k) (rows M)).

Section Arrays.
Context {F : Type} `{Scalar F}.

Definition entry (M : matrix F) (v e : nat) : F :=
  nth e (nth v (rows M) []) f_zero.

Definition column (e : nat) (M : matrix F) : list F :=
  map (fun r => nth e r f_zero) (rows M).

Definition np_ones (n : nat) : list F := repeat f_one n.

(** Sum of a 1-D array, accumulated from the left. *)
Definition vsum (xs : list F) : F := fold_left f_add xs f_zero.

Definition dot (xs ys : list F) : F := vsum (zip_with f_mul xs ys).

(** [M @ v] *)
Definition matvec (M : matrix F) (v : list F) : outcome (list F) :=
  if (ncols M =? length v)%nat
  then Ok (map (fun r => dot r v) (rows M))
  else Raise "ValueError".

(** [v @ M] *)
Definition vecmat (v : list F) (M : matrix F) : outcome (list F) :=
  if (length v =? nrows M)%nat
  then Ok (map (fun e => dot v (column e M)) (seq 0 (ncols M)))
  else Raise "ValueError".

(** [sum_upto n f] is f 0 + ... + f (n-1), the sums of the specification. *)
Fixpoint sum_upto (n : nat) (f : nat -> F) : F :=
  match n with
  | O => f_zero
  | S n' => f_add (sum_upto n' f) (f n')
  end.

(** *** [normalized_incidence] *)

(** The attributes of a [torch_geometric] [Data] object the code reads. *)
Record Data : Type := mkData {
  x : matrix F;
  y : list Z;
  hyperedge_weight : option (list F)
}.

Definition normalized_incidence (data : Data) : outcome (matrix F) :=
  (let inc := x data in
   let weights :=
     match hyperedge_weight data with
     | Some w => w
     | None => np_ones (ncols inc)
     end in
   d <- matvec inc weights ;;
   let d := map (fun t => f_div f_one (f_sqrt t)) d in
   b <- vecmat (np_ones (nrows inc)) inc ;;
   let b := map f_sqrt (zip_with f_div weights b) in
   let d_inc := zip_with (fun dv row => map (f_mul dv) row) d (rows inc) in
   Ok (Matrix (ncols inc) (map (fun row => zip_with f_mul row b) d_inc)))%outcome.

(** The weight vector in force: [data.hyperedge_weight], or all ones. *)
Definition weights_of (data : Data) : list F :=
  match hyperedge_weight data with
  | Some w => w
  | None => np_ones (ncols (x data))
  end.

(** The weight of hyperedge [e]: the given one, or 1 when the data object
    has no [hyperedge_weight]. *)
Definition weight_at (data : Data) (e : nat) : F :=
  match hyperedge_weight data with
  | Some w => nth e w f_zero
  | None => f_one
  end.

(** The shapes [normalized_incidence] needs: a rectangular incidence
    matrix and one weight per hyperedge. *)
Definition well_shaped (data : Data) : Prop :=
  wf_matrix (x data) /\ length (weights_of data) = ncols (x data).

(** The entry of the specification:
    (1 / sqrt (sum_e' H[v,e'] * w[e'])) * H[v,e] * sqrt (w[e] / sum_v' H[v',e]). *)
Definition spec_entry (Hm : matrix F) (w : nat -> F) (v e : nat) : F :=
  f_mul
    (f_mul
       (f_div f_one
          (f_sqrt (sum_upto (ncols Hm) (fun e' => f_mul (entry Hm v e') (w e')))))
       (entry Hm v e))
    (f_sqrt (f_div (w e) (sum_upto (nrows Hm) (fun v' => entry Hm v' e)))).

(** The degrees of the specification: the weighted degree of node [v] and
    the unweighted degree of hyperedge [e]. *)
Definition node_degree (data : Data) (v : nat) : F :=
  sum_upto (ncols (x data)) (fun e => f_mul (entry (x data) v e) (weight_at data e)).

Definition hyperedge_degree (data : Data) (e : nat) : F :=
  sum_upto (nrows (x data)) (fun v => entry (x data) v e).

(** The array [normalized_incidence] returns when the shapes agree, with
    the intermediate arrays inlined. *)
Definition code_matrix (data : Data) : matrix F :=
  let inc := x data in
  let w := weights_of data in
  let d := map (fun t => f_div f_one (f_sqrt t)) (map (fun r => dot r w) (rows inc)) in
  let b := map f_sqrt
             (zip_with f_div w
                (map (fun e => dot (np_ones (nrows inc)) (column e inc))
                   (seq 0 (ncols inc)))) in
  Matrix (ncols inc)
    (map (fun row => zip_with f_mul row b)
       (zip_with (fun dv row => map (f_mul dv) row) d (rows inc))).

End Arrays.

Arguments Data F : clear implicits.

(** ** The decomposition and the orchestrator *)

Section Pipeline.
Context {F F32 : Type} {SF : Scalar F} {SF32 : Scalar F32}.

(** [a.astype(np.float32)] on one entry. *)
Variable astype_float32 : F -> F32.

(** What [setup_spectral_data] leaves in [data]. *)
Variable Spectral : Type.
Variable setup_spectral_data :
  Data F -> list F32 -> matrix F32 -> F -> option Z -> outcome Spectral.

(** The triple [(U, sigma, Vt)] both solvers return. *)
Definition factors : Type := (matrix F * list F * matrix F)%type.

Record Backend : Type := mkBackend {
  (** [np.linalg.svd(a, full_matrices=...)] *)
  np_linalg_svd : matrix F -> bool -> outcome factors;
  (** [sp.linalg.svds(a, k, tol=...)] *)
  sp_linalg_svds : matrix F -> Z -> F -> outcome factors
}.

(** The calls a run makes, in order. *)
Inductive event : Type :=
| CallDecomposition (inc : matrix F) (num_ev : option Z) (tol : F)
| CallSvd (a : matrix F) (full_matrices : bool)
| CallSvds (a : matrix F) (k : Z) (tol : F)
| CallSetupSpectralData (data : Data F) (w : list F32) (U : matrix F32)
    (threshold : F) (max_rank : option Z).

Definition Exec (A : Type) : Type := (list event * outcome A)%type.

Definition ret {A : Type} (a : A) : Exec A := ([], Ok a).

Definition bind {A B : Type} (m : Exec A) (f : A -> Exec B) : Exec B :=
  match m with
  | (l, Ok a) => let (l', r) := f a in ((l ++ l')%list, r)
  | (l, Raise e) => (l, Raise e)
  end.

Definition lift {A : Type} (o : outcome A) : Exec A := ([], o).

(** A call that is logged, followed by what the callee does. *)
Definition invoke {A : Type} (ev : event) (m : Exec A) : Exec A :=
  (ev :: fst m, snd m).

(** A logged call of a library routine or of a collaborator. *)
Definition call {A : Type} (ev : event) (o : outcome A) : Exec A :=
  invoke ev (lift o).

Notation "x <- m ;; k" := (bind m (fun x => k))
  (at level 61, m at next level, right associativity).
Notation "' p <- m ;; k" := (bind m (fun p => k))
  (at level 61, p pattern, m at next level, right associativity).

(** [num_ev > inc.shape[1]/2]: an integer against a true division. *)
Definition exceeds_half (k : Z) (m : nat) : bool :=
  negb (Qle_bool (inject_Z k) (Z.of_nat m # 2)).

(** The [return] line: [1 - sigma.astype(np.float32)**2] and
    [U.astype(np.float32)]; numpy evaluates [a**2] as [a*a]. *)
Definition laplacian_spectrum (U : matrix F) (sigma : list F) : list F32 * matrix F32 :=
  (map (fun s => f_sub f_one (f_mul (astype_float32 s) (astype_float32 s))) sigma,
   map_matrix astype_float32 U).

(** The full path: [np.linalg.svd(inc, full_matrices=False)], cut to the
    first [num_ev] columns and values when [num_ev] is given.  The path is
    only taken with [num_ev > inc.shape[1]/2 >= 0], so the slices [:num_ev]
    take a prefix. *)
Definition full_decomposition (B : Backend) (inc : matrix F) (num_ev : option Z)
  : Exec (matrix F * list F) :=
  ' (U, sigma, _) <- call (CallSvd inc false) (np_linalg_svd B inc false) ;;
  match num_ev with
  | Some k => ret (take_columns (Z.to_nat k) U, firstn (Z.to_nat k) sigma)
  | None => ret (U, sigma)
  end.

Definition truncated_decomposition (B : Backend) (inc : matrix F) (k : Z) (tol : F)
  : Exec (matrix F * list F) :=
  ' (U, sigma, _) <- call (CallSvds inc k tol) (sp_linalg_svds B inc k tol) ;;
  ret (U, sigma).

(** The branch on [num_ev]: which solver runs, and what is kept of its
    answer. *)
Definition singular_factors (B : Backend) (inc : matrix F) (num_ev : option Z) (tol : F)
  : Exec (matrix F * list F) :=
  match num_ev with
  | None => full_decomposition B inc num_ev
  | Some k =>
      if exceeds_half k (ncols inc)
      then full_decomposition B inc num_ev
      else truncated_decomposition B inc k tol
  end.

Definition hypergraph_laplacian_decomposition (B : Backend)
  (inc : matrix F) (num_ev : option Z) (tol : F) : Exec (list F32 * matrix F32) :=
  ' (U, sigma) <- singular_factors B inc num_ev tol ;;
  ret (laplacian_spectrum U sigma).

(** The shapes the solvers document: one column of [U] per singular value. *)
Definition factors_consistent (f : factors) : Prop :=
  let '(U, sigma, _) := f in ncols U = length sigma /\ wf_matrix U.

Definition backend_shapes_on (B : Backend) (inc : matrix F) : Prop :=
  (forall f, np_linalg_svd B inc false = Ok f -> factors_consistent f) /\
  (forall k tol f, sp_linalg_svds B inc k tol = Ok f -> factors_consistent f).

(** The log entry of a solver call on [inc]. *)
Definition solver_call (inc : matrix F) (num_ev : option Z) (tol : F) (ev : event) : Prop :=
  ev = CallSvd inc false \/ exists k, num_ev = Some k /\ ev = CallSvds inc k tol.

Definition is_decomposition_call (ev : event) : bool :=
  match ev with
  | CallDecomposition _ _ _ => true
  | _ => false
  end.

(** *** [HypergraphPinv] *)

Record HypergraphPinv : Type := mkHypergraphPinv {
  rank : option Z;
  eig_tol : F;
  eig_threshold : F
}.

Definition HypergraphPinv_call (B : Backend) (self : HypergraphPinv) (data : Data F)
  : Exec Spectral :=
  inc <- lift (normalized_incidence data) ;;
  let num_ev :=
    match rank self with
    | None => None
    | Some r => Some (r + 1)%Z
    end in
  ' (w, U) <- invoke (CallDecomposition inc num_ev (eig_tol self))
                (hypergraph_laplacian_decomposition B inc num_ev (eig_tol self)) ;;
  call (CallSetupSpectralData data w U (eig_threshold self) (rank self))
       (setup_spectral_data data w U (eig_threshold self) (rank self)).

(** A test double for the two solvers, exact on the matrices whose only
    non-zero entries are a non-negative, descending diagonal: the full
    solver returns the diagonal in place, the truncated one its [k] leading
    values in ascending order. *)
Definition selector (n : nat) (idx : list nat) : matrix F :=
  Matrix (length idx)
    (map (fun i => map (fun j => if (i =? j)%nat then f_one else f_zero) idx) (seq 0 n)).

Definition selector_rows (idx : list nat) (m : nat) : matrix F :=
  Matrix m
    (map (fun j => map (fun e => if (j =? e)%nat then f_one else f_zero) (seq 0 m)) idx).

Definition diagonal_double : Backend := {|
  np_linalg_svd a _ :=
    let idx := seq 0 (Nat.min (nrows a) (ncols a)) in
    Ok (selector (nrows a) idx, map (fun i => entry a i i) idx, selector_rows idx (ncols a));
  sp_linalg_svds a k _ :=
    if ((1 <=? k)%Z && (k <=? Z.of_nat (Nat.min (nrows a) (ncols a)))%Z)%bool
    then let idx := rev (seq 0 (Z.to_nat k)) in
         Ok (selector (nrows a) idx, map (fun i => entry a i i) idx,
             selector_rows idx (ncols a))
    else Raise "ValueError"
|}.

End Pipeline.

Arguments Backend F : clear implicits.
Arguments HypergraphPinv F : clear implicits.
Arguments event F F32 : clear implicits.

(** ** [UCIHypergraphDataset.save_processed] *)

(** The incidence array a caller hands over: [MushroomDataset.process]
    builds a 1-D array when it has no hyperedge, and 2-D arrays otherwise. *)
Inductive ndarray (A : Type) : Type :=
| Array1 (entries : list A)
| Array2 (M : matrix A).

Arguments Array1 {A} entries.
Arguments Array2 {A} M.

Section Dataset.
Context {A F : Type} {SF : Scalar F}.

(** What [self.collate] returns and [torch.save] writes. *)
Variable Stored : Type.
Variable collate : list (Data F) -> Stored.

(** [torch.FloatTensor] on one entry of the array: the conversion to
    [float32]. *)
Variable float_tensor : A -> F.

Record UCIHypergraphDataset : Type := mkDataset {
  pre_transform : option (Data F -> outcome (Data F));
  processed_paths : list string
}.

(** The files written so far, newest first. *)
Definition disk : Type := list (string * Stored).

Definition torch_save (obj : Stored) (path : string) (fs : disk) : outcome unit * disk :=
  (Ok tt, (path, obj) :: fs).

(** The arguments of [Data] are evaluated first: [torch.FloatTensor]
    converts the entries, [torch.LongTensor] keeps the labels, and
    [incidence.shape[1]] is an [IndexError] on a 1-D array; [torch.ones]
    is [np_ones].  Then comes the test on [pre_transform]. *)
Definition save_processed (self : UCIHypergraphDataset)
  (incidence : ndarray A) (labels : list Z) (fs : disk) : outcome unit * disk :=
  match incidence with
  | Array1 _ => (Raise "IndexError", fs)
  | Array2 incidence =>
      let data :=
        mkData (map_matrix float_tensor incidence) labels
          (Some (np_ones (ncols incidence))) in
      let transformed :=
        if is_None (pre_transform self)
        then py_call (pre_transform self) data
        else Ok data in
      match transformed with
      | Raise e => (Raise e, fs)
      | Ok data =>
          let obj := collate [data] in
          match nth_error (processed_paths self) 0 with
          | None => (Raise "IndexError", fs)
          | Some path => torch_save obj path fs
          end
      end
  end.

End Dataset.

Arguments UCIHypergraphDataset F : clear implicits.

(** ** The scalar instances *)

#[export] Instance float_scalar : Scalar float := {
  f_zero := 0%float;
  f_one := 1%float;
  f_add := PrimFloat.add;
  f_sub := PrimFloat.sub;
  f_mul := PrimFloat.mul;
  f_div := PrimFloat.div;
  f_sqrt := PrimFloat.sqrt
}.

(** IEEE binary32: 24 bits of precision, exponents up to 128. *)
Definition binary32 : Type := spec_float.

#[export] Instance binary32_scalar : Scalar binary32 := {
  f_zero := S754_zero false;
  f_one := SFone 24 128;
  f_add := SFadd 24 128;
  f_sub := SFsub 24 128;
  f_mul := SFmul 24 128;
  f_div := SFdiv 24 128;
  f_sqrt := SFsqrt 24 128
}.

(** binary64 to binary32, rounding to nearest even. *)
Definition float_to_binary32 (t : float) : binary32 :=
  match Prim2SF t with
  | S754_finite s m e => binary_round 24 128 s m e
  | other => other
  end.

(** [torch.FloatTensor] on a binary64 entry: the nearest [float32], held
    as the binary64 number of the same value. *)
Definition float32_round (t : float) : float := SF2Prim (float_to_binary32 t).

#[export] Instance real_scalar : Scalar R := {
  f_zero := 0%R;
  f_one := 1%R;
  f_add := Rplus;
  f_sub := Rminus;
  f_mul := Rmult;
  f_div := Rdiv;
  f_sqrt := sqrt
}.

(** In exact arithmetic the conversion to [np.float32] changes nothing. *)
Definition real_float32 (t : R) : R := t.

(** ** Exact arithmetic: singular triplets and valid hypergraphs *)

(** [u], [s], [v] is a singular triplet of [A]: unit vectors with
    [u^T A = s v^T] and [A v = s u]. *)
Definition singular_triplet (A : matrix R) (u : list R) (s : R) (v : list R) : Prop :=
  sum_upto (nrows A) (fun i => nth i u 0 * nth i u 0)%R = 1%R /\
  sum_upto (ncols A) (fun e => nth e v 0 * nth e v 0)%R = 1%R /\
  (forall e, e < ncols A ->
     sum_upto (nrows A) (fun i => nth i u 0 * entry A i e)%R = (s * nth e v 0)%R) /\
  (forall i, i < nrows A ->
     sum_upto (ncols A) (fun e => entry A i e * nth e v 0)%R = (s * nth i u 0)%R).

(** Column [j] of [U], [sigma[j]] and row [j] of [Vt] form a singular
    triplet of [A], for every [j]. *)
Definition factors_sound (A : matrix R) (f : @factors R) : Prop :=
  let '(U, sigma, Vt) := f in
  forall j, j < length sigma ->
    singular_triplet A (column j U) (nth j sigma 0%R) (nth j (rows Vt) []).

(** The solvers return singular triplets of [A] whenever they return. *)
Definition backend_sound_on (B : Backend R) (A : matrix R) : Prop :=
  (forall f, np_linalg_svd B A false = Ok f -> factors_sound A f) /\
  (forall k tol f, sp_linalg_svds B A k tol = Ok f -> factors_sound A f).

(** A hypergraph with non-negative incidences, positive weights and
    strictly positive node and hyperedge degrees. *)
Definition valid_hypergraph (data : Data R) : Prop :=
  well_shaped data /\
  (forall v e, v < nrows (x data) -> e < ncols (x data) -> (0 <= entry (x data) v e)%R) /\
  (forall e, e < ncols (x data) -> (0 < weight_at data e)%R) /\
  (forall v, v < nrows (x data) -> (0 < node_degree data v)%R) /\
  (forall e, e < ncols (x data) -> (0 < hyperedge_degree data e)%R).

(** ** IEEE special values *)

Definition float_zero (t : float) : Prop := t = 0%float \/ t = neg_zero.

Definition inf_or_nan (t : float) : Prop :=
  t = nan \/ t = infinity \/ t = neg_infinity.

Definition finite_nonzero (t : float) : Prop :=
  exists s m e, Prim2SF t = S754_finite s m e.

(** ** Concrete inputs *)

(** Two nodes, two hyperedges; node 0 belongs to no hyperedge. *)
Definition data_isolated_node : Data float :=
  mkData (Matrix 2 [[0%float; 0%float]; [1%float; 1%float]]) [0%Z; 1%Z] None.

(** Two nodes, two hyperedges; hyperedge 1 has no node. *)
Definition data_empty_hyperedge : Data float :=
  mkData (Matrix 2 [[1%float; 0%float]; [1%float; 0%float]]) [0%Z; 1%Z] None.

(** The matrix diag(1, 1/2) in binary64. *)
Definition inc_diagonal : matrix float :=
  Matrix 2 [[1%float; 0%float]; [0%float; 0.5%float]].

(** Two nodes and no hyperedge: an array of shape (2, 0). *)
Definition inc_no_hyperedge : matrix float := Matrix 0 [[]; []].

(** No node and two hyperedges: an array of shape (0, 2). *)
Definition inc_no_node : matrix float := Matrix 2 [].

(** Two nodes, each alone in its own hyperedge. *)
Definition data_two_singletons : Data float :=
  mkData (Matrix 2 [[1%float; 0%float]; [0%float; 1%float]]) [0%Z; 1%Z] None.

(** A double for [setup_spectral_data] that keeps what it is handed. *)
Definition keep_spectrum (data : Data float) (w : list binary32) (U : matrix binary32)
  (threshold : float) (max_rank : option Z) : outcome (list binary32 * matrix binary32) :=
  Ok (w, U).

(** The transform of rank 1 with the default tolerance and threshold
    (the binary64 value of 1e-6). *)
Definition pinv_rank_one : HypergraphPinv float :=
  mkHypergraphPinv (Some 1%Z) 0%float 0x1.0c6f7a0b5ed8dp-20%float.

(** A dataset without [pre_transform], and one whose [pre_transform]
    fails whenever it is called. *)
Definition dataset_plain : UCIHypergraphDataset float :=
  mkDataset None ["processed/data.pt"].

Definition dataset_failing_transform : UCIHypergraphDataset float :=
  mkDataset (Some (fun _ : Data float => Raise "RuntimeError")) ["processed/data.pt"].

(** A double for [collate] that keeps the list it is given. *)
Definition collate_list (l : list (Data float)) : list (Data float) := l.

(** Two entries that are no [float32] numbers: the binary64 number nearest
    to 0.1, and 2^24 + 1. *)
Definition inc_inexact : matrix float :=
  Matrix 2 [[0x1.999999999999ap-4%float; 0%float]; [0%float; 16777217%float]].

(** The 4 x 4 matrix diag(1, 1/2, 0, 0) over the reals. *)
Definition inc_diagonal_real : matrix R :=
  Matrix 4 [[1%R; 0%R; 0%R; 0%R]; [0%R; (1 / 2)%R; 0%R; 0%R];
            [0%R; 0%R; 0%R; 0%R]; [0%R; 0%R; 0%R; 0%R]].

(** Four nodes and three hyperedges with uniform weights. *)
Definition data_toy : Data float :=
  mkData
    (Matrix 3 [[1%float; 0%float; 1%float]; [1%float; 1%float; 0%float];
               [0%float; 1%float; 1%float]; [1%float; 1%float; 1%float]])
    [0%Z; 1%Z; 0%Z; 1%Z]
    (Some [1%float; 1%float; 1%float]).

(** A double whose full SVD returns the factors it is built from, and
    whose truncated solver does not converge. *)
Definition fixed_double {F : Type} (f : @factors F) : Backend F := {|
  np_linalg_svd _ _ := Ok f;
  sp_linalg_svds _ _ _ := Raise "ArpackNoConvergence"
|}.

(** Two nodes and two hyperedges with incidences 2 and -1: every degree
    is 1. *)
Definition data_signed : Data R :=
  mkData (Matrix 2 [[2%R; (-1)%R]; [(-1)%R; 2%R]]) [0%Z; 1%Z] None.

(** The singular value decomposition of [[2; -1]; [-1; 2]]: the values 3
    and 1, along (1, -1) and (1, 1). *)
Definition signed_factors : @factors R :=
  (Matrix 2 [[(/ sqrt 2)%R; (/ sqrt 2)%R]; [(- / sqrt 2)%R; (/ sqrt 2)%R]],
   [3%R; 1%R],
   Matrix 2 [[(/ sqrt 2)%R; (- / sqrt 2)%R]; [(/ sqrt 2)%R; (/ sqrt 2)%R]]).

(** Two nodes in two hyperedges, all incidences 1. *)
Definition data_full : Data R :=
  mkData (Matrix 2 [[1%R; 1%R]; [1%R; 1%R]]) [0%Z; 1%Z] None.

(** The singular value decomposition of the matrix with all entries 1/2:
    the values 1 and 0. *)
Definition full_factors : @factors R :=
  (Matrix 2 [[(/ sqrt 2)%R; (/ sqrt 2)%R]; [(/ sqrt 2)%R; (- / sqrt 2)%R]],
   [1%R; 0%R],
   Matrix 2 [[(/ sqrt 2)%R; (/ sqrt 2)%R]; [(/ sqrt 2)%R; (- / sqrt 2)%R]]).

(** ** What the orchestrator requests, and the directions of singular value 1 *)

(** The count [HypergraphPinv.__call__] passes as [num_ev]. *)
Definition requested_count {F : Type} (self : HypergraphPinv F) : option Z :=
  match rank self with
  | None => None
  | Some r => Some (r + 1)%Z
  end.

(** The sum of all node degrees. *)
Definition total_degree (data : Data R) : R :=
  sum_upto (nrows (x data)) (node_degree data).

(** The unit vectors along sqrt(d) and sqrt(w * b). *)
Definition degree_direction (data : Data R) : list R :=
  map (fun v => (sqrt (node_degree data v) / sqrt (total_degree data))%R)
    (seq 0 (nrows (x data))).

Definition hyperedge_direction (data : Data R) : list R :=
  map (fun e => (sqrt (weight_at data e * hyperedge_degree data e) /
                 sqrt (total_degree data))%R)
    (seq 0 (ncols (x data))).

(** ** [MushroomDataset.process]

    The file is the list of its lines, each with its line end, as the
    iteration over the open file yields them.  The two [print] calls are
    left out. *)

(** [line[:-1]] *)
Fixpoint strip_last (s : string) : string :=
  match s with
  | EmptyString => EmptyString
  | String c rest =>
      match rest with
      | EmptyString => EmptyString
      | String _ _ => String c (strip_last rest)
      end
  end.

(** [s.split(',')] *)
Fixpoint split_comma (s : string) : list string :=
  match s with
  | EmptyString => [EmptyString]
  | String c rest =>
      if Ascii.eqb c ","%char
      then EmptyString :: split_comma rest
      else match split_comma rest with
           | field :: fields => String c field :: fields
           | [] => [String c EmptyString]
           end
  end.

(** [np.array(raw)] is a 2-D array when there is a first row and every row
    has its length; otherwise it is 1-D, and [raw[:,0]] is an [IndexError]. *)
Definition np_array_2d {A : Type} (raw : list (list A)) : option (matrix A) :=
  match raw with
  | [] => None
  | first :: _ =>
      if forallb (fun r => (length r =? length first)%nat) raw
      then Some (Matrix (length first) raw)
      else None
  end.

(** [raw[:,i]] *)
Definition get_column (i : nat) (raw : matrix string) : list string :=
  map (fun r => nth i r EmptyString) (rows raw).

Fixpoint insert_unique (v : string) (l : list string) : list string :=
  match l with
  | [] => [v]
  | h :: t =>
      match String.compare v h with
      | Lt => v :: l
      | Eq => l
      | Gt => h :: insert_unique v t
      end
  end.

(** [np.unique(col)]: the distinct values, in ascending order. *)
Definition np_unique (col : list string) : list string :=
  fold_right insert_unique [] col.

(** The hyperedges of one attribute: none when a value starts with [?],
    else one [col == v] per distinct value [v]. *)
Definition attribute_edges (col : list string) : list (list bool) :=
  let values := np_unique col in
  if existsb (String.prefix "?") values
  then []
  else map (fun v => map (fun c => String.eqb c v) col) values.

(** [inc_list] after the loop over [range(1, raw.shape[1])]. *)
Definition mushroom_edges (raw : matrix string) : list (list bool) :=
  flat_map (fun i => attribute_edges (get_column i raw)) (seq 1 (ncols raw - 1)).

(** [(raw[:,0] == 'e').astype(int)] *)
Definition mushroom_labels (raw : matrix string) : list Z :=
  map (fun c => if String.eqb c "e" then 1%Z else 0%Z) (get_column 0 raw).

Fixpoint contains_comma (s : string) : bool :=
  match s with
  | EmptyString => false
  | String c rest => Ascii.eqb c ","%char || contains_comma rest
  end.

(** One line of the file: [line[:-1].split(',')]. *)
Definition parse_line (line : string) : list string :=
  split_comma (strip_last line).

(** The attributes that contribute hyperedges, and the number of
    hyperedges a node belongs to. *)
Definition kept_attributes (raw : matrix string) : list nat :=
  filter (fun i => negb (existsb (String.prefix "?") (np_unique (get_column i raw))))
    (seq 1 (ncols raw - 1)).

Definition membership_count (v : nat) (edges : list (list bool)) : nat :=
  length (filter (fun edge => nth v edge false) edges).

Section Mushroom.
Context {A F : Type} {SA : Scalar A} {SF : Scalar F}.
Variable Stored : Type.
Variable collate : list (Data F) -> Stored.
Variable float_tensor : A -> F.

(** [np.array(inc_list, dtype=np.float).T] for a non-empty [inc_list] of
    arrays of length [n]. *)
Definition incidence_of_edges (n : nat) (edges : list (list bool)) : matrix A :=
  Matrix (length edges)
    (map (fun v => map (fun edge : list bool => if nth v edge false then f_one else f_zero)
                     edges)
       (seq 0 n)).

(** With an empty [inc_list] the array has shape [(0,)], and its
    transpose too. *)
Definition mushroom_incidence (n : nat) (inc_list : list (list bool)) : ndarray A :=
  match inc_list with
  | [] => Array1 []
  | _ :: _ => Array2 (incidence_of_edges n inc_list)
  end.

Definition MushroomDataset_process (self : UCIHypergraphDataset F)
  (lines : list string) (fs : disk Stored) : outcome unit * disk Stored :=
  let raw := map parse_line lines in
  match np_array_2d raw with
  | None => (Raise "IndexError", fs)
  | Some raw =>
      let labels := mushroom_labels raw in
      let inc_list := mushroom_edges raw in
      let incidence := mushroom_incidence (nrows raw) inc_list in
      save_processed collate float_tensor self incidence labels fs
  end.

End Mushroom.

(** The order of [np.unique]. *)
Definition string_lt (a b : string) : Prop := String.compare a b = Lt.

(** ** [CovertypeDataset.process]

    The builtin [int] is a parameter.  The integers of the file and
    [num_bins] are taken to fit in 64 bits, so that numpy holds them as
    [int64]; its choice of another type for larger ones is not modelled.
    The [int64] arithmetic wraps around and the bin bounds are binary64
    numbers, as in numpy.  The [print] calls are left out. *)

(** [int64] arithmetic keeps the low 64 bits. *)
Definition wrap64 (z : Z) : Z := ((z + 2 ^ 63) mod 2 ^ 64 - 2 ^ 63)%Z.

Definition add64 (a b : Z) : Z := wrap64 (a + b).

(** An [int64] as a binary64 number, rounded to nearest even. *)
Definition float_of_Z (z : Z) : float :=
  SF2Prim (binary_normalize prec emax z 0 false).

(** A list comprehension over a call that may raise. *)
Fixpoint outcome_map {A B : Type} (f : A -> outcome B) (l : list A) : outcome (list B) :=
  match l with
  | [] => Ok []
  | a :: rest =>
      (b <- f a ;; bs <- outcome_map f rest ;; Ok (b :: bs))%outcome
  end.

(** [l[mask]] for a boolean mask. *)
Definition select_mask {A : Type} (mask : list bool) (l : list A) : list A :=
  map snd (filter fst (combine mask l)).

(** [col.min()] and [col.max()] of a non-empty column. *)
Definition column_min (col : list Z) : Z :=
  match col with
  | [] => 0%Z
  | c :: rest => fold_left Z.min rest c
  end.

Definition column_max (col : list Z) : Z :=
  match col with
  | [] => 0%Z
  | c :: rest => fold_left Z.max rest c
  end.

(** A bin bound is [colmin] or [colmax+1], an [int64], or a binary64
    number. *)
Inductive bound : Type :=
  | IntBound (z : Z)
  | FloatBound (f : float).

(** [col >= a] and [col < b] on one entry: against a binary64 bound the
    entry is converted first. *)
Definition ge_bound (c : Z) (a : bound) : bool :=
  match a with
  | IntBound z => (z <=? c)%Z
  | FloatBound f => PrimFloat.leb f (float_of_Z c)
  end.

Definition lt_bound (c : Z) (b : bound) : bool :=
  match b with
  | IntBound z => (c <? z)%Z
  | FloatBound f => PrimFloat.ltb (float_of_Z c) f
  end.

(** The upper bound [b] of bin [i]. *)
Definition bin_upper (colmin colmax num_bins i : Z) : bound :=
  if (i =? num_bins - 1)%Z
  then IntBound (wrap64 (colmax + 1))
  else FloatBound
         (PrimFloat.add (float_of_Z colmin)
            (PrimFloat.div (float_of_Z (wrap64 (wrap64 (colmax - colmin) * (i + 1))))
               (float_of_Z num_bins))).

(** The loop [for i in range(num_bins)], carrying [b]. *)
Fixpoint bins_loop (col : list Z) (colmin colmax num_bins : Z) (indices : list Z) (b : bound)
  : list (list bool) :=
  match indices with
  | [] => []
  | i :: rest =>
      let a := b in
      let b := bin_upper colmin colmax num_bins i in
      map (fun c => ge_bound c a && lt_bound c b) col
        :: bins_loop col colmin colmax num_bins rest b
  end.

(** [range(n)] for an integer [n]. *)
Definition py_range (n : Z) : list Z := map Z.of_nat (seq 0 (Z.to_nat n)).

Definition attribute_bins (col : list Z) (num_bins : Z) : list (list bool) :=
  let colmin := column_min col in
  let colmax := column_max col in
  bins_loop col colmin colmax num_bins (py_range num_bins) (IntBound colmin).

(** No entry of the column and no bound of its bins is NaN as a binary64
    number. *)
Definition is_number (f : float) : bool := PrimFloat.eqb f f.

Definition numbers_only (col : list Z) (num_bins : Z) : bool :=
  forallb (fun c => is_number (float_of_Z c)) col &&
  forallb (fun i => match bin_upper (column_min col) (column_max col) num_bins i with
                    | IntBound _ => true
                    | FloatBound f => is_number f
                    end) (py_range num_bins).

(** [raw_attributes[:,attr]] *)
Definition int_column (attr : nat) (raw : matrix Z) : list Z :=
  map (fun r => nth attr r 0%Z) (rows raw).

(** [inc_list] after the loop over the ten continuous attributes. *)
Definition covertype_bins (raw : matrix Z) (num_bins : Z) : list (list bool) :=
  flat_map (fun attr => attribute_bins (int_column attr raw) num_bins) (seq 0 10).

(** [np.hstack((np.array(inc_list, dtype=int).T, raw_attributes[:,10:]))]
    for a non-empty [inc_list]. *)
Definition covertype_incidence (raw : matrix Z) (inc_list : list (list bool)) : matrix Z :=
  Matrix (length inc_list + (ncols raw - 10))
    (map (fun v =>
            (map (fun edge : list bool => if nth v edge false then 1%Z else 0%Z) inc_list
             ++ skipn 10 (nth v (rows raw) []))%list)
       (seq 0 (nrows raw))).

(** [{orig: new for new, orig in enumerate(classes)}]: the newest entry
    for a key is found first. *)
Definition class_map (classes : list Z) : list (Z * Z) :=
  fold_left (fun m p => (snd p, fst p) :: m)
    (combine (map Z.of_nat (seq 0 (length classes))) classes) [].

(** [class_map[l]] *)
Fixpoint dict_get (m : list (Z * Z)) (key : Z) : outcome Z :=
  match m with
  | [] => Raise "KeyError"
  | (k, v) :: rest => if (k =? key)%Z then Ok v else dict_get rest key
  end.

(** [incidence.sum(axis=0)]: the rows added up entry by entry, in
    [int64]. *)
Definition column_sums (M : matrix Z) : list Z :=
  fold_left (zip_with add64) (rows M) (repeat 0%Z (ncols M)).

(** The block under [if self.classes is not None]. *)
Definition select_classes (classes : list Z) (incidence : matrix Z) (labels : list Z)
  : outcome (matrix Z * list Z) :=
  (let mask := map (fun l => existsb (Z.eqb l) classes) labels in
   let cmap := class_map classes in
   labels' <- outcome_map (dict_get cmap) (select_mask mask labels) ;;
   let incidence := Matrix (ncols incidence) (select_mask mask (rows incidence)) in
   let edge_deg := column_sums incidence in
   let mask := map (fun s => (0 <? s)%Z) edge_deg in
   Ok (Matrix (length (filter (fun b : bool => b) mask))
         (map (select_mask mask) (rows incidence)),
       labels'))%outcome.

Section Covertype.
Context {F : Type} {SF : Scalar F}.
Variable Stored : Type.
Variable collate : list (Data F) -> Stored.

(** The builtin [int] on a field of a line. *)
Variable py_int : string -> outcome Z.

(** [torch.FloatTensor] on one integer entry. *)
Variable float_of_int : Z -> F.

Record CovertypeDataset : Type := mkCovertype {
  base : UCIHypergraphDataset F;
  classes : option (list Z);
  num_bins : Z
}.

(** One line: [values[:-1]] as integers, then [values[-1]]. *)
Definition parse_covertype_line (line : string) : outcome (list Z * Z) :=
  (let values := split_comma line in
   attributes <- outcome_map py_int (removelast values) ;;
   label <- py_int (last values EmptyString) ;;
   Ok (attributes, label))%outcome.

Definition CovertypeDataset_process (self : CovertypeDataset)
  (lines : list string) (fs : disk Stored) : outcome unit * disk Stored :=
  match outcome_map parse_covertype_line lines with
  | Raise e => (Raise e, fs)
  | Ok parsed =>
      let labels := map snd parsed in
      match np_array_2d (map fst parsed) with
      | None => (Raise "IndexError", fs)
      | Some raw =>
          if (ncols raw <? 10)%nat then (Raise "IndexError", fs)
          else
            match covertype_bins raw (num_bins self) with
            | [] => (Raise "ValueError", fs)
            | inc_list =>
                let incidence := covertype_incidence raw inc_list in
                match classes self with
                | None =>
                    save_processed collate float_of_int (base self)
                      (Array2 incidence) labels fs
                | Some cs =>
                    match select_classes cs incidence labels with
                    | Raise e => (Raise e, fs)
                    | Ok (incidence, labels) =>
                        save_processed collate float_of_int (base self)
                          (Array2 incidence) labels fs
                    end
                end
            end
      end
  end.

End Covertype.

Arguments CovertypeDataset F : clear implicits.

(** ** Concrete files and datasets *)

(** Three lines of a Mushroom file: a label and two attributes, the second
    with an unknown value. *)
Definition newline : string := String (ascii_of_nat 10) EmptyString.

Definition mushroom_sample : list string :=
  ["e,x,?" ++ newline; "p,y,a" ++ newline; "e,x,a" ++ newline].

(** A dataset over the reals whose [pre_transform] returns its argument. *)
Definition dataset_real : UCIHypergraphDataset R :=
  mkDataset (Some (fun d : Data R => Ok d)) ["processed/data.pt"].

Definition collate_real (l : list (Data R)) : list (Data R) := l.

(** The identity matrix of size 2 in binary32, and the spectrum of
    [data_two_singletons]: the eigenvalue 0, twice. *)
Definition identity_binary32 : matrix binary32 :=
  Matrix 2 [[S754_finite false 8388608 (-23); S754_zero false];
            [S754_zero false; S754_finite false 8388608 (-23)]].

Definition zero_spectrum : list binary32 := [S754_zero false; S754_zero false].

(** A double for [int] on a field of decimal digits, with or without a
    line end after them. *)
Fixpoint digits_value (s : string) (acc : Z) : outcome Z :=
  match s with
  | EmptyString => Ok acc
  | String ch rest =>
      let n := nat_of_ascii ch in
      if ((48 <=? n) && (n <=? 57))%nat
      then digits_value rest (10 * acc + Z.of_nat (n - 48))%Z
      else if ((n =? 10)%nat && String.eqb rest EmptyString)%bool
           then Ok acc
           else Raise "ValueError"
  end.

Definition int_double (s : string) : outcome Z :=
  match s with
  | EmptyString => Raise "ValueError"
  | String ch _ =>
      if (nat_of_ascii ch =? 10)%nat then Raise "ValueError" else digits_value s 0%Z
  end.

(** Three lines of a Covertype file: eleven attributes and a label. *)
Definition covertype_sample : list string :=
  ["1,2,3,4,5,6,7,8,9,0,1,4" ++ newline;
   "3,2,3,4,5,6,7,8,9,0,0,6" ++ newline;
   "2,2,3,4,5,6,7,8,9,0,1,5" ++ newline].

(** [torch.FloatTensor] on an [int64] entry: the nearest [float32], held
    as the binary64 number of the same value. *)
Definition float32_of_Z (z : Z) : float :=
  SF2Prim (binary_normalize 24 128 z 0 false).

(** A dataset whose [pre_transform] is set, so that [save_processed] does
    not call it. *)
Definition covertype45 : CovertypeDataset float :=
  mkCovertype dataset_failing_transform (Some [4%Z; 5%Z]) 2%Z.

(** The attributes of [covertype_sample]. *)
Definition covertype_sample_raw : matrix Z :=
  Matrix 11 [[1; 2; 3; 4; 5; 6; 7; 8; 9; 0; 1];
             [3; 2; 3; 4; 5; 6; 7; 8; 9; 0; 0];
             [2; 2; 3; 4; 5; 6; 7; 8; 9; 0; 1]]%Z.

(** Four nodes, three columns, and their labels. *)
Definition incidence_small : matrix Z :=
  Matrix 3 [[1; 0; 0]; [0; 1; 0]; [1; 0; 0]; [0; 0; 1]]%Z.

Definition labels_small : list Z := [4; 6; 5; 7]%Z.

(** ** Lists and sums *)

Section ListFacts.
Context {F : Type} `{Scalar F}.

Lemma zip_with_length {A B C : Type} (f : A -> B -> C) xs ys :
  length (zip_with f xs ys) = Nat.min (length xs) (length ys).
Proof. unfold zip_with. now rewrite length_map, length_combine. Qed.

Lemma zip_with_nth {A B C : Type} (f : A -> B -> C) xs ys i da db dc :
  i < length xs -> i < length ys ->
  nth i (zip_with f xs ys) dc = f (nth i xs da) (nth i ys db).
Proof.
  revert ys i. induction xs as [|a xs IH]; intros [|b ys] [|i] Hx Hy;
    simpl in *; try lia; auto.
  apply IH; lia.
Qed.

Lemma vsum_snoc (xs : list F) (a : F) : vsum (xs ++ [a]) = f_add (vsum xs) a.
Proof. unfold vsum. now rewrite fold_left_app. Qed.

Lemma sum_upto_ext (n : nat) (f g : nat -> F) :
  (forall i, i < n -> f i = g i) -> sum_upto n f = sum_upto n g.
Proof.
  induction n as [|n IH]; intros E; simpl; auto.
  rewrite IH, E; auto.
Qed.

Lemma vsum_sum_upto (xs : list F) :
  vsum xs = sum_upto (length xs) (fun i => nth i xs f_zero).
Proof.
  induction xs as [|a xs IH] using rev_ind; [reflexivity|].
  rewrite vsum_snoc, length_app, Nat.add_comm. simpl.
  rewrite IH, app_nth2, Nat.sub_diag by lia. simpl. f_equal.
  apply sum_upto_ext. intros i Hi. now rewrite app_nth1.
Qed.

Lemma dot_sum_upto (xs ys : list F) (n : nat) :
  length xs = n -> length ys = n ->
  dot xs ys = sum_upto n (fun i => f_mul (nth i xs f_zero) (nth i ys f_zero)).
Proof.
  intros Hx Hy. unfold dot. rewrite vsum_sum_upto, zip_with_length, Hx, Hy, Nat.min_id.
  apply sum_upto_ext. intros i Hi.
  apply zip_with_nth; lia.
Qed.

Lemma nth_np_ones (n i : nat) : i < n -> nth i (np_ones n) f_zero = f_one.
Proof. intros Hi. unfold np_ones. now rewrite nth_repeat_lt. Qed.

Lemma np_ones_length (n : nat) : length (np_ones n) = n.
Proof. apply repeat_length. Qed.

Lemma column_length (e : nat) (M : matrix F) : length (column e M) = nrows M.
Proof. unfold column, nrows. apply length_map. Qed.

Lemma column_nth (e v : nat) (M : matrix F) :
  nth v (column e M) f_zero = entry M v e.
Proof.
  unfold column, entry.
  destruct (Nat.lt_ge_cases v (length (rows M))) as [Hv|Hv].
  - rewrite nth_indep with (d' := nth e [] f_zero) by now rewrite length_map.
    exact (map_nth (fun r => nth e r f_zero) (rows M) [] v).
  - rewrite (nth_overflow (map _ _)) by now rewrite length_map.
    rewrite (nth_overflow (rows M)) by assumption.
    now destruct e.
Qed.

Lemma wf_row_length (M : matrix F) (v : nat) :
  wf_matrix M -> v < nrows M -> length (nth v (rows M) []) = ncols M.
Proof.
  unfold wf_matrix, nrows. intros Hwf Hv.
  rewrite Forall_forall in Hwf. apply Hwf. now apply nth_In.
Qed.

End ListFacts.

(** ** [normalized_incidence]: shapes and entries *)

Section Normalization.
Context {F : Type} `{Scalar F}.

Lemma nth_map_lt {A B : Type} (f : A -> B) (l : list A) (i : nat) (da : A) (db : B) :
  i < length l -> nth i (map f l) db = f (nth i l da).
Proof.
  intros Hi. rewrite nth_indep with (d' := f da) by now rewrite length_map.
  apply map_nth.
Qed.

Lemma weights_of_nth (data : Data F) (e : nat) :
  e < ncols (x data) -> nth e (weights_of data) f_zero = weight_at data e.
Proof.
  unfold weights_of, weight_at. destruct (hyperedge_weight data); auto.
  apply nth_np_ones.
Qed.

(** A shape mismatch is the only way [normalized_incidence] can fail. *)
Lemma normalized_incidence_cases (data : Data F) :
  (length (weights_of data) = ncols (x data) /\
   normalized_incidence data = Ok (code_matrix data)) \/
  (length (weights_of data) <> ncols (x data) /\
   normalized_incidence data = Raise "ValueError").
Proof.
  unfold normalized_incidence, matvec, vecmat, code_matrix, weights_of.
  set (w := match hyperedge_weight data with Some w => w | None => _ end).
  destruct (Nat.eqb_spec (ncols (x data)) (length w)) as [E|E]; simpl.
  - left. rewrite np_ones_length, Nat.eqb_refl. simpl. auto.
  - right. split; congruence.
Qed.

Lemma normalized_incidence_ok (data : Data F) :
  well_shaped data -> normalized_incidence data = Ok (code_matrix data).
Proof.
  intros [_ Hw]. destruct (normalized_incidence_cases data) as [[_ E]|[E _]]; tauto.
Qed.

Lemma code_matrix_nrows (data : Data F) :
  nrows (code_matrix data) = nrows (x data).
Proof.
  unfold code_matrix, nrows. simpl.
  rewrite length_map, zip_with_length, !length_map. apply Nat.min_id.
Qed.

Lemma code_matrix_row (data : Data F) (v : nat) :
  v < nrows (x data) ->
  nth v (rows (code_matrix data)) [] =
  zip_with f_mul
    (map (f_mul (f_div f_one (f_sqrt (dot (nth v (rows (x data)) []) (weights_of data)))))
       (nth v (rows (x data)) []))
    (map f_sqrt
       (zip_with f_div (weights_of data)
          (map (fun e => dot (np_ones (nrows (x data))) (column e (x data)))
             (seq 0 (ncols (x data)))))).
Proof.
  intros Hv. unfold code_matrix, nrows in *. simpl.
  rewrite nth_map_lt with (da := [])
    by (rewrite zip_with_length, !length_map; lia).
  f_equal.
  rewrite zip_with_nth with (da := f_zero) (db := [])
    by (rewrite ?length_map; lia).
  f_equal. f_equal.
  rewrite nth_map_lt with (da := f_zero) by (rewrite length_map; lia).
  now rewrite nth_map_lt with (da := []).
Qed.

Lemma code_matrix_wf (data : Data F) :
  well_shaped data -> wf_matrix (code_matrix data).
Proof.
  intros [Hwf Hw]. unfold wf_matrix. apply Forall_forall. intros r Hr.
  destruct (In_nth _ _ [] Hr) as [v [Hv Er]].
  fold (nrows (code_matrix data)) in Hv. rewrite code_matrix_nrows in Hv.
  rewrite code_matrix_row in Er by assumption. subst r.
  rewrite zip_with_length, !length_map, zip_with_length, length_map, length_seq.
  rewrite (wf_row_length Hwf Hv), Hw. simpl. lia.
Qed.

(** Entry (v,e) exactly as the code evaluates it: the degree vectors are
    the dot products [inc @ weights] and [ones @ inc]. *)
Lemma code_matrix_entry (data : Data F) (v e : nat) :
  well_shaped data -> v < nrows (x data) -> e < ncols (x data) ->
  entry (code_matrix data) v e =
  f_mul
    (f_mul (f_div f_one (f_sqrt (dot (nth v (rows (x data)) []) (weights_of data))))
       (entry (x data) v e))
    (f_sqrt (f_div (nth e (weights_of data) f_zero)
               (dot (np_ones (nrows (x data))) (column e (x data))))).
Proof.
  intros [Hwf Hw] Hv He. unfold entry at 1.
  rewrite code_matrix_row by assumption.
  pose proof (wf_row_length Hwf Hv) as Hrow.
  rewrite zip_with_nth with (da := f_zero) (db := f_zero).
  - f_equal.
    + rewrite nth_map_lt with (da := f_zero) by lia. reflexivity.
    + rewrite nth_map_lt with (da := f_zero)
        by (rewrite zip_with_length, length_map, length_seq; lia).
      f_equal.
      rewrite zip_with_nth with (da := f_zero) (db := f_zero)
        by (rewrite ?length_map, ?length_seq; lia).
      f_equal.
      rewrite nth_map_lt with (da := 0) by (rewrite length_seq; lia).
      now rewrite seq_nth.
  - rewrite length_map. lia.
  - rewrite length_map, zip_with_length, length_map, length_seq. lia.
Qed.

(** With [1 * t = t], the dot products are the sums of the specification. *)
Lemma code_matrix_spec_entry (data : Data F) (v e : nat) :
  (forall t : F, f_mul f_one t = t) ->
  well_shaped data -> v < nrows (x data) -> e < ncols (x data) ->
  entry (code_matrix data) v e = spec_entry (x data) (weight_at data) v e.
Proof.
  intros Hone Hs Hv He. rewrite code_matrix_entry by assumption.
  destruct Hs as [Hwf Hw]. unfold spec_entry.
  rewrite dot_sum_upto with (n := ncols (x data)) by (auto using wf_row_length).
  rewrite dot_sum_upto with (n := nrows (x data))
    by (auto using np_ones_length, column_length).
  rewrite weights_of_nth by assumption.
  f_equal; [f_equal; f_equal; f_equal | f_equal; f_equal];
    apply sum_upto_ext; intros i Hi.
  - unfold entry. now rewrite weights_of_nth.
  - now rewrite nth_np_ones, column_nth, Hone.
Qed.

End Normalization.

(** ** Binary64: multiplying by one is exact *)

Section Binary64.
Local Open Scope Z_scope.

Lemma digits2_shift52 (m : positive) :
  Zdigits2 (Z.pos (4503599627370496 * m)) = Z.pos (digits2_pos m) + 52.
Proof.
  change (4503599627370496 * m)%positive with (Pos.iter xO m 52).
  unfold Zdigits2. simpl Pos.iter.
  cbn [digits2_pos]. rewrite !Pos2Z.inj_succ. lia.
Qed.

Lemma shr52 (m : positive) :
  SpecFloat.iter_pos shr_1 52%positive (shr_record_of_loc (Z.pos (4503599627370496 * m)) loc_Exact) =
  Build_shr_record (Z.pos m) false false.
Proof. reflexivity. Qed.

Lemma SFmul_1_l_finite (s : bool) (m : positive) (e : Z) :
  SpecFloat.bounded prec emax m e = true ->
  binary_round_aux prec emax s (Z.pos (4503599627370496 * m)) (-52 + e) loc_Exact =
  S754_finite s m e.
Proof.
  intros Hb. unfold SpecFloat.bounded in Hb. apply andb_true_iff in Hb. destruct Hb as [Hc He].
  unfold canonical_mantissa in Hc. apply Z.eqb_eq in Hc.
  unfold binary_round_aux, shr_fexp.
  rewrite digits2_shift52.
  replace (Z.pos (digits2_pos m) + 52 + (-52 + e)) with (Z.pos (digits2_pos m) + e) by lia.
  rewrite Hc.
  replace (e - (-52 + e)) with 52 by lia.
  unfold shr at 1. rewrite shr52.
  replace (-52 + e + 52) with e by lia.
  cbn [shr_m loc_of_shr_record round_nearest_even].
  unfold Zdigits2. rewrite Hc, Z.sub_diag. cbn [shr shr_record_of_loc shr_m].
  now rewrite He.
Qed.

Lemma float_mul_1_l (t : float) : (1 * t)%float = t.
Proof.
  apply Prim2SF_inj. rewrite mul_spec.
  pose proof (Prim2SF_valid t) as Hv.
  change (Prim2SF 1) with (S754_finite false 4503599627370496 (-52)).
  destruct (Prim2SF t) as [s|s| |s m e]; try reflexivity.
  unfold SF64mul, SFmul. cbn [xorb]. now apply SFmul_1_l_finite.
Qed.

End Binary64.

(** ** C1: the entries of the normalized incidence matrix *)

(** C1. For a data object of consistent shape, over a scalar type in which
    [1 * t = t], [normalized_incidence] returns the matrix of the shape of
    the incidence matrix whose entry (v,e) is
    (1 / sqrt (sum_e' H[v,e'] * w[e'])) * H[v,e] * sqrt (w[e] / sum_v' H[v',e]),
    the weight w[e] being 1 when the data object has no [hyperedge_weight]. *)
Theorem normalized_incidence_formula {F : Type} `{Scalar F} (data : Data F) :
  (forall t : F, f_mul f_one t = t) ->
  well_shaped data ->
  exists M,
    normalized_incidence data = Ok M /\
    nrows M = nrows (x data) /\ ncols M = ncols (x data) /\ wf_matrix M /\
    forall v e, v < nrows (x data) -> e < ncols (x data) ->
      entry M v e = spec_entry (x data) (weight_at data) v e.
Proof.
  intros Hone Hs. exists (code_matrix data). repeat split.
  - now apply normalized_incidence_ok.
  - apply code_matrix_nrows.
  - now apply code_matrix_wf.
  - intros v e Hv He. now apply code_matrix_spec_entry.
Qed.

Lemma normalized_incidence_formula_witness :
  well_shaped data_toy /\
  exists M,
    normalized_incidence data_toy = Ok M /\
    nrows M = nrows (x data_toy) /\ ncols M = ncols (x data_toy) /\
    wf_matrix M /\
    forall v e, v < nrows (x data_toy) -> e < ncols (x data_toy) ->
      entry M v e = spec_entry (x data_toy) (weight_at data_toy) v e.
Proof.
  assert (Hs : well_shaped data_toy).
  { split; [repeat (constructor; [reflexivity|]); constructor | reflexivity]. }
  split; [exact Hs|].
  exact (@normalized_incidence_formula float float_scalar data_toy float_mul_1_l Hs).
Defined.

(** ** C2: zero degrees *)

Lemma float_of_spec (t : float) (r : spec_float) : Prim2SF t = r -> t = SF2Prim r.
Proof. intros E. now rewrite <- E, SF2Prim_Prim2SF. Qed.

Ltac by_spec E :=
  apply float_of_spec in E; rewrite E; vm_compute; auto.

Lemma mul_inf_or_nan_l (t u : float) : inf_or_nan t -> inf_or_nan (t * u)%float.
Proof.
  intros Ht. pose proof (mul_spec t u) as E.
  destruct Ht as [-> | [-> | ->]]; destruct (Prim2SF u) as [[|]|[|]| |[|] m e];
    by_spec E.
Qed.

Lemma mul_inf_or_nan_r (t u : float) : inf_or_nan u -> inf_or_nan (t * u)%float.
Proof.
  intros Hu. pose proof (mul_spec t u) as E.
  destruct Hu as [-> | [-> | ->]]; destruct (Prim2SF t) as [[|]|[|]| |[|] m e];
    by_spec E.
Qed.

Lemma inv_sqrt_zero (d : float) :
  float_zero d -> inf_or_nan (1 / PrimFloat.sqrt d)%float.
Proof. intros [-> | ->]; vm_compute; auto. Qed.

Lemma sqrt_div_zero (w b : float) :
  finite_nonzero w -> float_zero b -> inf_or_nan (PrimFloat.sqrt (w / b)).
Proof.
  intros (s & m & e & Hw) Hb. pose proof (div_spec w b) as E. rewrite Hw in E.
  destruct Hb as [-> | ->]; destruct s; by_spec E.
Qed.

(** Both kinds of degenerate input are accepted: the call returns, and the
    row of the isolated node, like the column of the empty hyperedge, is
    NaN. *)
Lemma normalized_incidence_degenerate_returns :
  float_zero (dot (nth 0 (rows (x data_isolated_node)) []) (weights_of data_isolated_node)) /\
  normalized_incidence data_isolated_node =
    Ok (Matrix 2 [[nan; nan]; [0x1.6a09e667f3bccp-1%float; 0x1.6a09e667f3bccp-1%float]]) /\
  normalized_incidence data_isolated_node <> Raise "DegenerateDegreeError" /\
  float_zero (dot (np_ones 2) (column 1 (x data_empty_hyperedge))) /\
  normalized_incidence data_empty_hyperedge =
    Ok (Matrix 2 [[0x1.6a09e667f3bcdp-1%float; nan]; [0x1.6a09e667f3bcdp-1%float; nan]]) /\
  normalized_incidence data_empty_hyperedge <> Raise "DegenerateDegreeError".
Proof.
  repeat split; try (left; reflexivity); try reflexivity; vm_compute; discriminate.
Qed.

(** C2, as the code has it. [normalized_incidence] checks no degree and
    never raises [DegenerateDegreeError]: on a data object of consistent
    shape it returns a matrix, and in binary64 arithmetic every entry in
    the row of a node whose weighted degree evaluates to zero, and every
    entry in the column of a hyperedge of zero degree and finite non-zero
    weight, is an infinity or NaN. *)
Theorem normalized_incidence_no_degree_check (data : Data float) :
  normalized_incidence data <> Raise "DegenerateDegreeError" /\
  (well_shaped data ->
   exists M,
     normalized_incidence data = Ok M /\
     (forall v e, v < nrows (x data) -> e < ncols (x data) ->
        float_zero (dot (nth v (rows (x data)) []) (weights_of data)) ->
        inf_or_nan (entry M v e)) /\
     (forall v e, v < nrows (x data) -> e < ncols (x data) ->
        float_zero (dot (np_ones (nrows (x data))) (column e (x data))) ->
        finite_nonzero (nth e (weights_of data) f_zero) ->
        inf_or_nan (entry M v e))).
Proof.
  split.
  - destruct (normalized_incidence_cases data) as [[_ E]|[_ E]];
      rewrite E; discriminate.
  - intros Hs. exists (code_matrix data). split; [now apply normalized_incidence_ok|].
    split; intros v e Hv He Hz.
    + rewrite code_matrix_entry by assumption.
      apply mul_inf_or_nan_l, mul_inf_or_nan_l. now apply inv_sqrt_zero.
    + intros Hw. rewrite code_matrix_entry by assumption.
      apply mul_inf_or_nan_r. now apply sqrt_div_zero.
Qed.

Lemma normalized_incidence_no_degree_check_witness :
  well_shaped data_isolated_node /\
  exists M,
    normalized_incidence data_isolated_node = Ok M /\
    (forall v e, v < nrows (x data_isolated_node) -> e < ncols (x data_isolated_node) ->
       float_zero (dot (nth v (rows (x data_isolated_node)) [])
                     (weights_of data_isolated_node)) ->
       inf_or_nan (entry M v e)) /\
    (forall v e, v < nrows (x data_isolated_node) -> e < ncols (x data_isolated_node) ->
       float_zero (dot (np_ones (nrows (x data_isolated_node)))
                     (column e (x data_isolated_node))) ->
       finite_nonzero (nth e (weights_of data_isolated_node) f_zero) ->
       inf_or_nan (entry M v e)).
Proof.
  assert (Hs : well_shaped data_isolated_node).
  { split; [repeat constructor | reflexivity]. }
  split; [exact Hs|].
  exact (proj2 (normalized_incidence_no_degree_check data_isolated_node) Hs).
Defined.

(** ** The decomposition: runs and results *)

Section PipelineFacts.
Context {F F32 : Type} {SF : Scalar F} {SF32 : Scalar F32}.
Variable astype_float32 : F -> F32.
Variable Spectral : Type.
Variable setup_spectral_data :
  Data F -> list F32 -> matrix F32 -> F -> option Z -> outcome Spectral.

Local Open Scope outcome_scope.

Lemma exceeds_half_true (k : Z) (m : nat) :
  exceeds_half k m = true <-> (Z.of_nat m # 2 < inject_Z k)%Q.
Proof.
  unfold exceeds_half. rewrite negb_true_iff, <- not_true_iff_false, Qle_bool_iff.
  split; [apply Qnot_le_lt | apply Qlt_not_le].
Qed.

Lemma exceeds_half_false (k : Z) (m : nat) :
  exceeds_half k m = false <-> (inject_Z k <= Z.of_nat m # 2)%Q.
Proof.
  unfold exceeds_half. now rewrite negb_false_iff, Qle_bool_iff.
Qed.

Lemma exceeds_half_positive (k : Z) (m : nat) :
  exceeds_half k m = true -> (0 < k)%Z.
Proof.
  rewrite exceeds_half_true. unfold Qlt, inject_Z. simpl. lia.
Qed.

Lemma full_decomposition_run (B : Backend F) (inc : matrix F) (num_ev : option Z) :
  full_decomposition (F32 := F32) B inc num_ev =
  ([CallSvd inc false],
   f <- np_linalg_svd B inc false ;;
   let '(U, sigma, _) := f in
   Ok (match num_ev with
       | Some k => (take_columns (Z.to_nat k) U, firstn (Z.to_nat k) sigma)
       | None => (U, sigma)
       end)).
Proof.
  unfold full_decomposition, call, invoke, lift, bind, ret. simpl.
  destruct (np_linalg_svd B inc false) as [[[U s] Vt]|e]; destruct num_ev; reflexivity.
Qed.

Lemma truncated_decomposition_run (B : Backend F) (inc : matrix F) (k : Z) (tol : F) :
  truncated_decomposition (F32 := F32) B inc k tol =
  ([CallSvds inc k tol],
   f <- sp_linalg_svds B inc k tol ;;
   let '(U, sigma, _) := f in Ok (U, sigma)).
Proof.
  unfold truncated_decomposition, call, invoke, lift, bind, ret. simpl.
  destruct (sp_linalg_svds B inc k tol) as [[[U s] Vt]|e]; reflexivity.
Qed.

Lemma decomposition_run (B : Backend F) (inc : matrix F) (num_ev : option Z) (tol : F) :
  hypergraph_laplacian_decomposition astype_float32 B inc num_ev tol =
  (fst (singular_factors (F32 := F32) B inc num_ev tol),
   p <- snd (singular_factors (F32 := F32) B inc num_ev tol) ;;
   Ok (laplacian_spectrum astype_float32 (fst p) (snd p))).
Proof.
  unfold hypergraph_laplacian_decomposition, bind, ret.
  destruct (singular_factors B inc num_ev tol) as [l [[U s]|e]]; simpl;
    now rewrite ?app_nil_r.
Qed.

Lemma bind_lift_Ok {A C : Type} (a : A) (f : A -> Exec (F := F) (F32 := F32) C) :
  bind (lift (Ok a)) f = f a.
Proof. unfold bind, lift. now destruct (f a). Qed.

Lemma singular_factors_log (B : Backend F) (inc : matrix F) (num_ev : option Z) (tol : F) :
  exists ev,
    fst (singular_factors (F32 := F32) B inc num_ev tol) = [ev] /\
    solver_call inc num_ev tol ev.
Proof.
  unfold singular_factors, solver_call.
  destruct num_ev as [k|]; [destruct (exceeds_half k (ncols inc))|];
    rewrite ?full_decomposition_run, ?truncated_decomposition_run; simpl;
    eexists; (split; [reflexivity|]); [left | right; exists k | left]; auto.
Qed.

Lemma take_columns_shape {A : Type} (k : nat) (U : matrix A) :
  ncols (take_columns k U) = Nat.min k (ncols U) /\
  nrows (take_columns k U) = nrows U.
Proof. unfold take_columns, nrows. simpl. now rewrite length_map. Qed.

Lemma take_columns_row {A : Type} (k : nat) (U : matrix A) (v : nat) :
  nth v (rows (take_columns k U)) [] = firstn k (nth v (rows U) []).
Proof.
  unfold take_columns. simpl.
  rewrite <- (map_nth (firstn k) (rows U) [] v). now rewrite firstn_nil.
Qed.

Lemma nth_firstn_lt {A : Type} (k e : nat) (l : list A) (d : A) :
  e < k -> nth e (firstn k l) d = nth e l d.
Proof.
  revert e l. induction k as [|k IH]; intros e l He; [lia|].
  destruct l as [|a l]; [reflexivity|]. destruct e as [|e]; [reflexivity|].
  simpl. apply IH. lia.
Qed.

(** C3. With m the number of columns of [inc]: when [num_ev] is absent the
    run is one call of the full economy-size SVD, whose factors are used as
    they are; when [num_ev = k > m/2] it is the same call, with [U] cut to
    its first k columns and [sigma] to its first k values; when
    [num_ev = k <= m/2] it is one call of the truncated solver, asked for k
    triplets with the tolerance given.  The cut keeps the leading part: the
    result has [min k (length sigma)] eigenvalues, the i-th computed from
    the i-th singular value, and every row of the eigenvector matrix is the
    row of [U] up to position k, entry for entry. *)
Theorem decomposition_algorithm_selection (B : Backend F) (inc : matrix F)
  (num_ev : option Z) (tol : F) :
  (num_ev = None ->
   hypergraph_laplacian_decomposition astype_float32 B inc num_ev tol =
   ([CallSvd inc false],
    f <- np_linalg_svd B inc false ;;
    let '(U, sigma, _) := f in
    Ok (laplacian_spectrum astype_float32 U sigma))) /\
  (forall k, num_ev = Some k -> (Z.of_nat (ncols inc) # 2 < inject_Z k)%Q ->
   hypergraph_laplacian_decomposition astype_float32 B inc num_ev tol =
   ([CallSvd inc false],
    f <- np_linalg_svd B inc false ;;
    let '(U, sigma, _) := f in
    Ok (laplacian_spectrum astype_float32
          (take_columns (Z.to_nat k) U) (firstn (Z.to_nat k) sigma)))) /\
  (forall k, num_ev = Some k -> (inject_Z k <= Z.of_nat (ncols inc) # 2)%Q ->
   hypergraph_laplacian_decomposition astype_float32 B inc num_ev tol =
   ([CallSvds inc k tol],
    f <- sp_linalg_svds B inc k tol ;;
    let '(U, sigma, _) := f in
    Ok (laplacian_spectrum astype_float32 U sigma))) /\
  (forall k U sigma Vt,
   num_ev = Some k -> (Z.of_nat (ncols inc) # 2 < inject_Z k)%Q ->
   np_linalg_svd B inc false = Ok (U, sigma, Vt) ->
   exists (w : list F32) (Uf : matrix F32),
     snd (hypergraph_laplacian_decomposition astype_float32 B inc num_ev tol) =
       Ok (w, Uf) /\
     length w = Nat.min (Z.to_nat k) (length sigma) /\
     (forall i, i < Z.to_nat k -> i < length sigma ->
        nth i w f_zero =
        f_sub f_one (f_mul (astype_float32 (nth i sigma f_zero))
                           (astype_float32 (nth i sigma f_zero)))) /\
     nrows Uf = nrows U /\
     ncols Uf = Nat.min (Z.to_nat k) (ncols U) /\
     (forall v, v < nrows U ->
        length (nth v (rows Uf) []) =
        Nat.min (Z.to_nat k) (length (nth v (rows U) []))) /\
     (forall v e, v < nrows U -> e < Z.to_nat k -> e < length (nth v (rows U) []) ->
        entry Uf v e = astype_float32 (entry U v e))).
Proof.
  rewrite decomposition_run. unfold singular_factors. repeat split.
  - intros ->. rewrite full_decomposition_run. simpl.
    now destruct (np_linalg_svd B inc false) as [[[U s] Vt]|e].
  - intros k -> Hk. apply exceeds_half_true in Hk. rewrite Hk.
    rewrite full_decomposition_run. simpl.
    now destruct (np_linalg_svd B inc false) as [[[U s] Vt]|e].
  - intros k -> Hk. apply exceeds_half_false in Hk. rewrite Hk.
    rewrite truncated_decomposition_run. simpl.
    now destruct (sp_linalg_svds B inc k tol) as [[[U s] Vt]|e].
  - intros k U sigma Vt -> Hk E. apply exceeds_half_true in Hk. rewrite Hk.
    rewrite full_decomposition_run. simpl. rewrite E. simpl.
    eexists _, _. split; [reflexivity|].
    destruct (take_columns_shape (Z.to_nat k) U) as [Hc Hr].
    split; [now rewrite length_map, length_firstn|].
    split; [|split; [|split; [|split]]].
    + intros i Hi Hs.
      rewrite nth_map_lt with (da := f_zero) by (rewrite length_firstn; lia).
      now rewrite nth_firstn_lt.
    + unfold nrows in *. simpl. now rewrite !length_map.
    + reflexivity.
    + intros v Hv. cbn [rows map_matrix].
      rewrite nth_map_lt with (da := []) by (unfold nrows in *; now rewrite Hr).
      now rewrite length_map, take_columns_row, length_firstn.
    + intros v e Hv He Hl. unfold entry. cbn [rows map_matrix].
      rewrite nth_map_lt with (da := []) by (unfold nrows in *; now rewrite Hr).
      rewrite take_columns_row.
      rewrite nth_map_lt with (da := f_zero) by (rewrite length_firstn; lia).
      now rewrite nth_firstn_lt.
Qed.

(** C4. Whatever factors [(U, sigma)] the selected path hands over, the
    decomposition returns one eigenvalue per singular value, the i-th being
    [1 - s*s] for [s] the i-th singular value converted to [np.float32],
    the arithmetic being that of [np.float32]; and the eigenvector matrix
    is [U] converted to [np.float32] entry by entry. *)
Theorem decomposition_eigenvalue_transform (B : Backend F) (inc : matrix F)
  (num_ev : option Z) (tol : F) (U : matrix F) (sigma : list F) :
  snd (singular_factors (F32 := F32) B inc num_ev tol) = Ok (U, sigma) ->
  exists (w : list F32) (Uf : matrix F32),
    snd (hypergraph_laplacian_decomposition astype_float32 B inc num_ev tol) = Ok (w, Uf) /\
    length w = length sigma /\
    (forall i, i < length sigma ->
       nth i w f_zero =
       f_sub f_one (f_mul (astype_float32 (nth i sigma f_zero))
                          (astype_float32 (nth i sigma f_zero)))) /\
    nrows Uf = nrows U /\ ncols Uf = ncols U /\
    (forall v e, v < nrows U -> e < length (nth v (rows U) []) ->
       entry Uf v e = astype_float32 (entry U v e)).
Proof.
  intros E. rewrite decomposition_run, E. simpl.
  eexists _, _. split; [reflexivity|]. repeat split.
  - apply length_map.
  - intros i Hi. now rewrite nth_map_lt with (da := f_zero).
  - unfold nrows. simpl. apply length_map.
  - intros v e Hv He. unfold entry, nrows in *. simpl.
    rewrite nth_map_lt with (da := []) by assumption.
    now rewrite nth_map_lt with (da := f_zero).
Qed.

(** C5. When the normalization returns [inc], the first call of
    [HypergraphPinv.__call__] is the call of the decomposition, on [inc] and
    with the tolerance of the transform; its requested count is [k + 1] when
    the rank is [k] and absent when the rank is absent; and the run makes no
    other call of the decomposition. *)
Theorem orchestrator_requests_rank_plus_one (B : Backend F) (self : HypergraphPinv F)
  (data : Data F) (inc : matrix F) :
  normalized_incidence data = Ok inc ->
  (forall k, rank self = Some k ->
     exists rest,
       fst (HypergraphPinv_call astype_float32 setup_spectral_data B self data) =
         CallDecomposition inc (Some (k + 1)%Z) (eig_tol self) :: rest /\
       existsb is_decomposition_call rest = false) /\
  (rank self = None ->
     exists rest,
       fst (HypergraphPinv_call astype_float32 setup_spectral_data B self data) =
         CallDecomposition inc None (eig_tol self) :: rest /\
       existsb is_decomposition_call rest = false).
Proof.
  intros Hn.
  assert (Hrun : forall n,
    exists rest,
      fst (bind (invoke (CallDecomposition inc n (eig_tol self))
                   (hypergraph_laplacian_decomposition astype_float32 B inc n (eig_tol self)))
             (fun p : list F32 * matrix F32 =>
                let '(w, U) := p in
                call (CallSetupSpectralData data w U (eig_threshold self) (rank self))
                  (setup_spectral_data data w U (eig_threshold self) (rank self)))) =
        CallDecomposition inc n (eig_tol self) :: rest /\
      existsb is_decomposition_call rest = false).
  { intros n. rewrite decomposition_run.
    destruct (singular_factors_log B inc n (eig_tol self)) as (ev & Elog & Hev).
    rewrite Elog. unfold invoke, bind, call, lift. simpl.
    assert (Hnot : is_decomposition_call ev = false).
    { destruct Hev as [-> | (k & _ & ->)]; reflexivity. }
    destruct (snd (singular_factors B inc n (eig_tol self))) as [[U s]|e]; simpl;
      eexists; (split; [reflexivity|]); simpl; rewrite Hnot; auto. }
  unfold HypergraphPinv_call. rewrite Hn, bind_lift_Ok.
  split.
  - intros k Hk. rewrite Hk. destruct (Hrun (Some (k + 1)%Z)) as (rest & E & Hrest).
    rewrite Hk in E. exists rest. split; [exact E | exact Hrest].
  - intros Hk. rewrite Hk. destruct (Hrun None) as (rest & E & Hrest).
    rewrite Hk in E. exists rest. split; [exact E | exact Hrest].
Qed.

(** When the normalization raises, the run ends there: no call is made. *)
Lemma orchestrator_stops_without_incidence (B : Backend F) (self : HypergraphPinv F)
  (data : Data F) (e : exn) :
  normalized_incidence data = Raise e ->
  HypergraphPinv_call astype_float32 setup_spectral_data B self data = ([], Raise e).
Proof.
  intros Hn. unfold HypergraphPinv_call. rewrite Hn. reflexivity.
Qed.

(** C6, as the code has it. [hypergraph_laplacian_decomposition] checks no
    shape: on a matrix without rows or without columns, as on any other, its
    run is one call of a solver on that matrix (the full SVD, or the
    truncated solver with the requested count), and it raises exactly when
    that very call raises, with the exception of that call. *)
Theorem decomposition_no_shape_check (B : Backend F) (inc : matrix F)
  (num_ev : option Z) (tol : F) :
  nrows inc = 0 \/ ncols inc = 0 ->
  (fst (hypergraph_laplacian_decomposition astype_float32 B inc num_ev tol) =
     [CallSvd inc false] /\
   forall e,
     snd (hypergraph_laplacian_decomposition astype_float32 B inc num_ev tol) = Raise e <->
     np_linalg_svd B inc false = Raise e) \/
  (exists k,
     num_ev = Some k /\
     fst (hypergraph_laplacian_decomposition astype_float32 B inc num_ev tol) =
       [CallSvds inc k tol] /\
     forall e,
       snd (hypergraph_laplacian_decomposition astype_float32 B inc num_ev tol) = Raise e <->
       sp_linalg_svds B inc k tol = Raise e).
Proof.
  intros _. rewrite decomposition_run. unfold singular_factors.
  assert (Hfull :
    fst (full_decomposition (F32 := F32) B inc num_ev) = [CallSvd inc false] /\
    forall e,
      (p <- snd (full_decomposition (F32 := F32) B inc num_ev) ;;
       Ok (laplacian_spectrum astype_float32 (fst p) (snd p))) = Raise e <->
      np_linalg_svd B inc false = Raise e).
  { rewrite full_decomposition_run. split; [reflexivity|]. intros e. simpl.
    destruct (np_linalg_svd B inc false) as [[[U s] Vt]|e']; simpl;
      split; intros E; try discriminate; now injection E as ->. }
  destruct num_ev as [k|]; [destruct (exceeds_half k (ncols inc))|].
  - left. exact Hfull.
  - right. exists k. split; [reflexivity|].
    rewrite truncated_decomposition_run. split; [reflexivity|]. intros e. simpl.
    destruct (sp_linalg_svds B inc k tol) as [[[U s] Vt]|e']; simpl;
      split; intros E; try discriminate; now injection E as ->.
  - left. exact Hfull.
Qed.

(** C9. When the solvers return factors of consistent shape (one column of
    [U] per singular value), every normal return of the decomposition has
    as many eigenvalues as the eigenvector matrix has columns, and each row
    of that matrix has that length; the cut to [num_ev] on the full path
    shortens both alike, also when [num_ev] exceeds their length. *)
Theorem decomposition_shapes_agree (B : Backend F) (inc : matrix F)
  (num_ev : option Z) (tol : F) (w : list F32) (Uf : matrix F32) :
  backend_shapes_on B inc ->
  snd (hypergraph_laplacian_decomposition astype_float32 B inc num_ev tol) = Ok (w, Uf) ->
  ncols Uf = length w /\ Forall (fun r => length r = length w) (rows Uf).
Proof.
  intros [Hsvd Hsvds]. rewrite decomposition_run. simpl. unfold singular_factors.
  assert (Hkeep : forall (U : matrix F) (s : list F),
    ncols U = length s -> wf_matrix U ->
    Ok (laplacian_spectrum astype_float32 U s) = Ok (w, Uf) ->
    ncols Uf = length w /\ Forall (fun r => length r = length w) (rows Uf)).
  { intros U s Hc Hwf E. injection E as <- <-. simpl. rewrite length_map.
    split; [exact Hc|]. apply Forall_map. rewrite <- Hc.
    eapply Forall_impl; [|exact Hwf]. intros r Hr. now rewrite length_map. }
  assert (Hcut : forall (k : nat) (U : matrix F) (s : list F),
    ncols U = length s -> wf_matrix U ->
    ncols (take_columns k U) = length (firstn k s) /\ wf_matrix (take_columns k U)).
  { intros k U s Hc Hwf. unfold take_columns, wf_matrix. simpl.
    rewrite length_firstn, Hc. split; [reflexivity|].
    apply Forall_map. eapply Forall_impl; [|exact Hwf].
    intros r Hr. simpl in Hr. now rewrite length_firstn, Hr, Hc. }
  destruct num_ev as [k|]; [destruct (exceeds_half k (ncols inc))|];
    rewrite ?full_decomposition_run, ?truncated_decomposition_run; simpl.
  - destruct (np_linalg_svd B inc false) as [[[U s] Vt]|e] eqn:E; simpl; [|discriminate].
    destruct (Hsvd _ eq_refl) as [Hc Hwf]. destruct (Hcut (Z.to_nat k) U s Hc Hwf).
    now apply Hkeep.
  - destruct (sp_linalg_svds B inc k tol) as [[[U s] Vt]|e] eqn:E; simpl; [|discriminate].
    destruct (Hsvds _ _ _ E) as [Hc Hwf]. now apply Hkeep.
  - destruct (np_linalg_svd B inc false) as [[[U s] Vt]|e] eqn:E; simpl; [|discriminate].
    destruct (Hsvd _ eq_refl) as [Hc Hwf]. now apply Hkeep.
Qed.

End PipelineFacts.

Lemma diagonal_double_shapes {F : Type} `{Scalar F} (inc : matrix F) :
  backend_shapes_on diagonal_double inc.
Proof.
  assert (Hsel : forall n idx (g : nat -> F),
    ncols (selector n idx) = length (map g idx) /\ wf_matrix (selector n idx)).
  { intros n idx g. unfold selector, wf_matrix. simpl. rewrite length_map.
    split; [reflexivity|]. apply Forall_map, Forall_forall. intros i _.
    apply length_map. }
  split.
  - intros f E. simpl in E. injection E as <-. apply Hsel.
  - intros k tol f E. simpl in E.
    destruct (_ && _)%bool; [|discriminate]. injection E as <-. apply Hsel.
Qed.

Lemma decomposition_algorithm_selection_witness :
  hypergraph_laplacian_decomposition float_to_binary32 diagonal_double
    inc_diagonal None 0%float =
  ([CallSvd inc_diagonal false],
   (f <- np_linalg_svd diagonal_double inc_diagonal false ;;
    let '(U, sigma, _) := f in
    Ok (laplacian_spectrum float_to_binary32 U sigma))%outcome) /\
  ((Z.of_nat (ncols inc_diagonal) # 2 < inject_Z 2)%Q /\
   hypergraph_laplacian_decomposition float_to_binary32 diagonal_double
     inc_diagonal (Some 2%Z) 0%float =
   ([CallSvd inc_diagonal false],
    (f <- np_linalg_svd diagonal_double inc_diagonal false ;;
     let '(U, sigma, _) := f in
     Ok (laplacian_spectrum float_to_binary32
           (take_columns (Z.to_nat 2) U) (firstn (Z.to_nat 2) sigma)))%outcome)) /\
  ((inject_Z 1 <= Z.of_nat (ncols inc_diagonal) # 2)%Q /\
   hypergraph_laplacian_decomposition float_to_binary32 diagonal_double
     inc_diagonal (Some 1%Z) 0%float =
   ([CallSvds inc_diagonal 1 0%float],
    (f <- sp_linalg_svds diagonal_double inc_diagonal 1 0%float ;;
     let '(U, sigma, _) := f in
     Ok (laplacian_spectrum float_to_binary32 U sigma))%outcome)) /\
  ((Z.of_nat (ncols (x data_toy)) # 2 < inject_Z 2)%Q /\
   np_linalg_svd diagonal_double (x data_toy) false =
     Ok (selector 4 [0; 1; 2], [1%float; 1%float; 1%float], selector_rows [0; 1; 2] 3) /\
   exists (w : list binary32) (Uf : matrix binary32),
     snd (hypergraph_laplacian_decomposition float_to_binary32 diagonal_double
            (x data_toy) (Some 2%Z) 0%float) = Ok (w, Uf) /\
     length w = Nat.min (Z.to_nat 2) (length [1%float; 1%float; 1%float]) /\
     (forall i, i < Z.to_nat 2 -> i < length [1%float; 1%float; 1%float] ->
        nth i w f_zero =
        f_sub f_one
          (f_mul (float_to_binary32 (nth i [1%float; 1%float; 1%float] f_zero))
                 (float_to_binary32 (nth i [1%float; 1%float; 1%float] f_zero)))) /\
     nrows Uf = nrows (selector (F := float) 4 [0; 1; 2]) /\
     ncols Uf = Nat.min (Z.to_nat 2) (ncols (selector (F := float) 4 [0; 1; 2])) /\
     (forall v, v < nrows (selector (F := float) 4 [0; 1; 2]) ->
        length (nth v (rows Uf) []) =
        Nat.min (Z.to_nat 2)
          (length (nth v (rows (selector (F := float) 4 [0; 1; 2])) []))) /\
     (forall v e, v < nrows (selector (F := float) 4 [0; 1; 2]) -> e < Z.to_nat 2 ->
        e < length (nth v (rows (selector (F := float) 4 [0; 1; 2])) []) ->
        entry Uf v e = float_to_binary32 (entry (selector 4 [0; 1; 2]) v e))).
Proof.
  assert (H2 : (Z.of_nat (ncols inc_diagonal) # 2 < inject_Z 2)%Q) by reflexivity.
  assert (H1 : (inject_Z 1 <= Z.of_nat (ncols inc_diagonal) # 2)%Q)
    by (unfold Qle; simpl; lia).
  assert (H3 : (Z.of_nat (ncols (x data_toy)) # 2 < inject_Z 2)%Q) by reflexivity.
  assert (E : np_linalg_svd diagonal_double (x data_toy) false =
              Ok (selector 4 [0; 1; 2], [1%float; 1%float; 1%float],
                  selector_rows [0; 1; 2] 3)) by reflexivity.
  split; [|split; [split|split; [split|split; [|split]]]]; try assumption.
  - exact (proj1 (decomposition_algorithm_selection float_to_binary32
                    diagonal_double inc_diagonal None 0%float) eq_refl).
  - exact (proj1 (proj2 (decomposition_algorithm_selection float_to_binary32
                    diagonal_double inc_diagonal (Some 2%Z) 0%float)) 2%Z eq_refl H2).
  - exact (proj1 (proj2 (proj2 (decomposition_algorithm_selection float_to_binary32
                    diagonal_double inc_diagonal (Some 1%Z) 0%float))) 1%Z eq_refl H1).
  - exact (proj2 (proj2 (proj2 (decomposition_algorithm_selection float_to_binary32
                    diagonal_double (x data_toy) (Some 2%Z) 0%float)))
             2%Z _ _ _ eq_refl H3 E).
Defined.

Lemma decomposition_eigenvalue_transform_witness :
  snd (singular_factors (F32 := binary32) diagonal_double inc_diagonal None 0%float) =
    Ok (Matrix 2 [[1%float; 0%float]; [0%float; 1%float]], [1%float; 0.5%float]) /\
  exists (w : list binary32) (Uf : matrix binary32),
    snd (hypergraph_laplacian_decomposition float_to_binary32 diagonal_double
           inc_diagonal None 0%float) = Ok (w, Uf) /\
    length w = 2 /\
    (forall i, i < 2 ->
       nth i w f_zero =
       f_sub f_one (f_mul (float_to_binary32 (nth i [1%float; 0.5%float] f_zero))
                          (float_to_binary32 (nth i [1%float; 0.5%float] f_zero)))) /\
    nrows Uf = 2 /\ ncols Uf = 2 /\
    (forall v e, v < 2 ->
       e < length (nth v [[1%float; 0%float]; [0%float; 1%float]] []) ->
       entry Uf v e =
       float_to_binary32
         (entry (Matrix 2 [[1%float; 0%float]; [0%float; 1%float]]) v e)).
Proof.
  split; [reflexivity|].
  exact (decomposition_eigenvalue_transform float_to_binary32 diagonal_double
           inc_diagonal None 0%float eq_refl).
Defined.

Lemma orchestrator_requests_rank_plus_one_witness :
  normalized_incidence data_two_singletons =
    Ok (Matrix 2 [[1%float; 0%float]; [0%float; 1%float]]) /\
  exists rest,
    fst (HypergraphPinv_call float_to_binary32 keep_spectrum diagonal_double
           pinv_rank_one data_two_singletons) =
      CallDecomposition (Matrix 2 [[1%float; 0%float]; [0%float; 1%float]])
        (Some 2%Z) 0%float :: rest /\
    existsb is_decomposition_call rest = false.
Proof.
  assert (Hn : normalized_incidence data_two_singletons =
               Ok (Matrix 2 [[1%float; 0%float]; [0%float; 1%float]]))
    by reflexivity.
  split; [exact Hn|].
  exact (proj1 (orchestrator_requests_rank_plus_one float_to_binary32 keep_spectrum
                  diagonal_double pinv_rank_one data_two_singletons Hn) 1%Z eq_refl).
Defined.

(** Both kinds of empty matrix are accepted: the solver is called on the
    matrix, and the call returns. *)
Lemma decomposition_accepts_empty_matrix :
  (ncols inc_no_hyperedge = 0 /\
   hypergraph_laplacian_decomposition float_to_binary32 diagonal_double
     inc_no_hyperedge None 0%float =
   ([CallSvd inc_no_hyperedge false], Ok ([], Matrix 0 [[]; []]))) /\
  (nrows inc_no_node = 0 /\
   hypergraph_laplacian_decomposition float_to_binary32 diagonal_double
     inc_no_node None 0%float =
   ([CallSvd inc_no_node false], Ok ([], Matrix 0 []))) /\
  snd (hypergraph_laplacian_decomposition float_to_binary32 diagonal_double
         inc_no_hyperedge None 0%float) <> Raise "InvalidHypergraphError".
Proof.
  repeat split; vm_compute; discriminate.
Qed.

Lemma decomposition_no_shape_check_witness :
  (nrows inc_no_hyperedge = 0 \/ ncols inc_no_hyperedge = 0) /\
  ((fst (hypergraph_laplacian_decomposition float_to_binary32 diagonal_double
           inc_no_hyperedge (Some 0%Z) 0%float) = [CallSvd inc_no_hyperedge false] /\
    forall e,
      snd (hypergraph_laplacian_decomposition float_to_binary32 diagonal_double
             inc_no_hyperedge (Some 0%Z) 0%float) = Raise e <->
      np_linalg_svd diagonal_double inc_no_hyperedge false = Raise e) \/
   (exists k,
      Some 0%Z = Some k /\
      fst (hypergraph_laplacian_decomposition float_to_binary32 diagonal_double
             inc_no_hyperedge (Some 0%Z) 0%float) =
        [CallSvds inc_no_hyperedge k 0%float] /\
      forall e,
        snd (hypergraph_laplacian_decomposition float_to_binary32 diagonal_double
               inc_no_hyperedge (Some 0%Z) 0%float) = Raise e <->
        sp_linalg_svds diagonal_double inc_no_hyperedge k 0%float = Raise e)).
Proof.
  assert (He : nrows inc_no_hyperedge = 0 \/ ncols inc_no_hyperedge = 0)
    by (right; reflexivity).
  split; [exact He|].
  exact (decomposition_no_shape_check float_to_binary32 diagonal_double
           inc_no_hyperedge (Some 0%Z) 0%float He).
Defined.

Lemma decomposition_shapes_agree_witness :
  backend_shapes_on diagonal_double inc_diagonal /\
  exists (w : list binary32) (Uf : matrix binary32),
    snd (hypergraph_laplacian_decomposition float_to_binary32 diagonal_double
           inc_diagonal (Some 5%Z) 0%float) = Ok (w, Uf) /\
    ncols Uf = length w /\ Forall (fun r => length r = length w) (rows Uf).
Proof.
  split; [apply diagonal_double_shapes|].
  eexists. eexists. split; [reflexivity|].
  exact (decomposition_shapes_agree float_to_binary32 (Some 5%Z) 0%float
           (diagonal_double_shapes inc_diagonal) eq_refl).
Defined.

(** ** [save_processed] *)

Section DatasetFacts.
Context {A F : Type} {SF : Scalar F}.
Variable Stored : Type.
Variable collate : list (Data F) -> Stored.
Variable float_tensor : A -> F.

(** The three ways a call ends, and what each leaves on the disk. *)
Lemma save_processed_disk (self : UCIHypergraphDataset F) (incidence : ndarray A)
  (labels : list Z) (fs : disk Stored) :
  (exists path M,
     incidence = Array2 M /\
     save_processed collate float_tensor self incidence labels fs =
       (Ok tt,
        (path, collate [mkData (map_matrix float_tensor M) labels
                          (Some (np_ones (ncols M)))]) :: fs) /\
     pre_transform self <> None /\ nth_error (processed_paths self) 0 = Some path) \/
  (exists e,
     save_processed collate float_tensor self incidence labels fs = (Raise e, fs) /\
     (e = "IndexError" \/ e = "TypeError") /\
     (pre_transform self = None -> forall M, incidence = Array2 M -> e = "TypeError") /\
     (pre_transform self <> None -> e = "IndexError")).
Proof.
  unfold save_processed, torch_save.
  destruct incidence as [entries|M].
  - right. exists "IndexError". split; [reflexivity|]. split; [now left|].
    split; [intros _ M HM; discriminate | reflexivity].
  - destruct (pre_transform self) as [f|]; simpl.
    + destruct (processed_paths self) as [|path others]; simpl.
      * right. exists "IndexError". split; [reflexivity|]. split; [now left|].
        split; [discriminate | reflexivity].
      * left. exists path, M. split; [reflexivity|]. split; [reflexivity|].
        split; [discriminate | reflexivity].
    + right. exists "TypeError". split; [reflexivity|]. split; [now right|].
      split; [reflexivity | intros H; contradiction].
Qed.

(** C10, as the code has it. The tensors are built first: on a 1-D
    incidence array [incidence.shape[1]] raises [IndexError], whatever
    [pre_transform] is. On a 2-D array, without a [pre_transform] the call
    ends in the [TypeError] of calling [None], and the disk is as it was;
    with a [pre_transform] the call never applies it: what is saved is the
    collated data object as it was built, whatever the transform would have
    done to it, and its incidences are those given, converted to
    [float32]. *)
Theorem save_processed_pre_transform (self : UCIHypergraphDataset F)
  (labels : list Z) (fs : disk Stored) :
  (forall entries,
   save_processed collate float_tensor self (Array1 entries) labels fs =
     (Raise "IndexError", fs)) /\
  (forall incidence, pre_transform self = None ->
   save_processed collate float_tensor self (Array2 incidence) labels fs =
     (Raise "TypeError", fs)) /\
  (forall incidence f, pre_transform self = Some f ->
   save_processed collate float_tensor self (Array2 incidence) labels fs =
   match nth_error (processed_paths self) 0 with
   | Some path =>
       (Ok tt,
        (path, collate [mkData (map_matrix float_tensor incidence) labels
                          (Some (np_ones (ncols incidence)))]) :: fs)
   | None => (Raise "IndexError", fs)
   end).
Proof.
  unfold save_processed, torch_save. split; [|split].
  - reflexivity.
  - intros incidence ->. reflexivity.
  - intros incidence f ->. simpl. now destruct (nth_error (processed_paths self) 0).
Qed.

End DatasetFacts.

(** Without a [pre_transform], a call on a 1-D array raises [IndexError],
    not [TypeError]. *)
Lemma save_processed_index_error_first :
  pre_transform dataset_plain = None /\
  save_processed collate_list float32_round dataset_plain (Array1 []) [] [] =
    (Raise "IndexError", []) /\
  save_processed collate_list float32_round dataset_plain (Array1 []) [] [] <>
    (Raise "TypeError", []).
Proof.
  split; [reflexivity|]. split; [reflexivity | discriminate].
Qed.

Lemma save_processed_pre_transform_witness :
  save_processed collate_list float32_round dataset_failing_transform
    (Array1 [1%float]) [0%Z] [] = (Raise "IndexError", []) /\
  save_processed collate_list float32_round dataset_plain (Array2 inc_inexact)
    [0%Z; 1%Z] [] = (Raise "TypeError", []) /\
  save_processed collate_list float32_round dataset_failing_transform
    (Array2 inc_inexact) [0%Z; 1%Z] [] =
    (Ok tt,
     [("processed/data.pt",
       collate_list [mkData (map_matrix float32_round inc_inexact) [0%Z; 1%Z]
                       (Some (np_ones (ncols inc_inexact)))])]) /\
  map_matrix float32_round inc_inexact =
    Matrix 2 [[0x1.99999ap-4%float; 0%float]; [0%float; 16777216%float]].
Proof.
  split; [|split; [|split]].
  - exact (proj1 (save_processed_pre_transform collate_list float32_round
                    dataset_failing_transform [0%Z] []) [1%float]).
  - exact (proj1 (proj2 (save_processed_pre_transform collate_list float32_round
                    dataset_plain [0%Z; 1%Z] [])) inc_inexact eq_refl).
  - exact (proj2 (proj2 (save_processed_pre_transform collate_list float32_round
                    dataset_failing_transform [0%Z; 1%Z] [])) inc_inexact _ eq_refl).
  - vm_compute. reflexivity.
Defined.

(** ** Sums of reals *)

Unset Implicit Arguments.

Section RealSums.
Local Open Scope R_scope.

Lemma Rsum_S (n : nat) (f : nat -> R) :
  sum_upto (S n) f = sum_upto n f + f n.
Proof. reflexivity. Qed.

Lemma Rsum_le (n : nat) (f g : nat -> R) :
  (forall i, (i < n)%nat -> f i <= g i) -> sum_upto n f <= sum_upto n g.
Proof.
  induction n as [|n IH]; intros Hfg.
  - simpl. lra.
  - rewrite !Rsum_S. pose proof (Hfg n (Nat.lt_succ_diag_r n)).
    assert (sum_upto n f <= sum_upto n g) by (apply IH; intros; apply Hfg; lia).
    lra.
Qed.

Lemma Rsum_nonneg (n : nat) (f : nat -> R) :
  (forall i, (i < n)%nat -> 0 <= f i) -> 0 <= sum_upto n f.
Proof.
  induction n as [|n IH]; intros Hf.
  - simpl. lra.
  - rewrite Rsum_S. pose proof (Hf n (Nat.lt_succ_diag_r n)).
    assert (0 <= sum_upto n f) by (apply IH; intros; apply Hf; lia).
    lra.
Qed.

Lemma Rsum_scal (n : nat) (c : R) (f : nat -> R) :
  sum_upto n (fun i => c * f i) = c * sum_upto n f.
Proof.
  induction n as [|n IH].
  - simpl. ring.
  - rewrite !Rsum_S, IH. ring.
Qed.

Lemma Rsum_swap (n m : nat) (f : nat -> nat -> R) :
  sum_upto n (fun i => sum_upto m (fun j => f i j)) =
  sum_upto m (fun j => sum_upto n (fun i => f i j)).
Proof.
  induction n as [|n IH].
  - simpl. induction m as [|m IHm]; [reflexivity|].
    rewrite Rsum_S, <- IHm. simpl. ring.
  - rewrite Rsum_S, IH. clear IH.
    induction m as [|m IHm]; [simpl; ring|].
    rewrite !Rsum_S, <- IHm. simpl. ring.
Qed.

(** Cauchy-Schwarz with non-negative weights. *)
Lemma Rsum_cauchy (n : nat) (a t : nat -> R) :
  (forall i, (i < n)%nat -> 0 <= a i) ->
  sum_upto n (fun i => a i * t i) * sum_upto n (fun i => a i * t i) <=
  sum_upto n a * sum_upto n (fun i => a i * (t i * t i)).
Proof.
  induction n as [|n IH]; intros Ha.
  - simpl. lra.
  - rewrite !Rsum_S.
    assert (Han : 0 <= a n) by (apply Ha; lia).
    assert (Hlt : forall i, (i < n)%nat -> 0 <= a i) by (intros; apply Ha; lia).
    specialize (IH Hlt).
    pose proof (Rsum_nonneg n a Hlt) as HP.
    assert (HQ : 0 <= sum_upto n (fun i => a i * (t i * t i))).
    { apply Rsum_nonneg. intros i Hi. apply Rmult_le_pos; [auto|nra]. }
    generalize dependent (sum_upto n (fun i => a i * (t i * t i))).
    generalize dependent (sum_upto n (fun i => a i * t i)).
    generalize dependent (sum_upto n a).
    intros P HP X Q IH HQ.
    assert (Hmix : 2 * (t n * X) <= P * (t n * t n) + Q).
    { destruct (Rle_lt_or_eq_dec 0 P HP) as [Hpos|Hzero].
      - pose proof (Rle_0_sqr (P * t n - X)) as Hsq. unfold Rsqr in Hsq.
        assert (P * (2 * (t n * X)) <= P * (P * (t n * t n) + Q)) by nra.
        apply Rmult_le_reg_l with (r := P); assumption.
      - assert (HX : X = 0).
        { apply Rsqr_eq_0. unfold Rsqr.
          pose proof (Rle_0_sqr X) as Hsq. unfold Rsqr in Hsq.
          rewrite <- Hzero in IH. lra. }
        rewrite HX, <- Hzero. lra. }
    nra.
Qed.

End RealSums.

(** ** The normalized incidence matrix contracts *)

Section SpectralBound.
Local Open Scope R_scope.

Variable data : Data R.
Hypothesis Hvalid : valid_hypergraph data.

Local Notation "'Hm'" := (x data).
Local Notation "'n'" := (nrows (x data)).
Local Notation "'m'" := (ncols (x data)).
Local Notation "'w'" := (weight_at data).
Local Notation "'d'" := (node_degree data).
Local Notation "'b'" := (hyperedge_degree data).

Lemma spec_entry_real (v e : nat) :
  spec_entry Hm w v e = 1 / sqrt (d v) * entry Hm v e * sqrt (w e / b e).
Proof. reflexivity. Qed.

(** One column: Cauchy-Schwarz against the hyperedge degree. *)
Lemma column_bound (u : nat -> R) (e : nat) :
  (e < m)%nat ->
  sum_upto n (fun v => u v * spec_entry Hm w v e) *
  sum_upto n (fun v => u v * spec_entry Hm w v e) <=
  sum_upto n (fun v => w e * (entry Hm v e * (u v / sqrt (d v) * (u v / sqrt (d v))))).
Proof.
  intros He. destruct Hvalid as (_ & Hpos & Hw & _ & Hb).
  specialize (Hw e He). specialize (Hb e He).
  assert (Hc : sqrt (w e / b e) * sqrt (w e / b e) = w e / b e).
  { apply sqrt_sqrt. apply Rlt_le, Rdiv_lt_0_compat; assumption. }
  replace (sum_upto n (fun v => u v * spec_entry Hm w v e))
    with (sqrt (w e / b e) * sum_upto n (fun v => entry Hm v e * (u v / sqrt (d v)))).
  2:{ rewrite <- Rsum_scal. apply sum_upto_ext. intros v _.
      rewrite spec_entry_real. unfold Rdiv. ring. }
  rewrite Rsum_scal.
  pose proof (Rsum_cauchy n (fun v => entry Hm v e) (fun v => u v / sqrt (d v))
                (fun v Hv => Hpos v e Hv He)) as CS.
  cbv beta in CS. change (sum_upto n (fun v => entry Hm v e)) with (b e) in CS.
  set (X := sum_upto n (fun v => entry Hm v e * (u v / sqrt (d v)))) in *.
  set (T := sum_upto n (fun v => entry Hm v e * (u v / sqrt (d v) * (u v / sqrt (d v))))) in *.
  replace (sqrt (w e / b e) * X * (sqrt (w e / b e) * X))
    with (sqrt (w e / b e) * sqrt (w e / b e) * (X * X)) by ring.
  rewrite Hc.
  replace (w e * T) with (w e / b e * (b e * T)) by (field; lra).
  apply Rmult_le_compat_l; [|exact CS].
  apply Rlt_le, Rdiv_lt_0_compat; assumption.
Qed.

(** The rows of the normalized incidence matrix contract: for every
    vector [u], |u^T A|^2 <= |u|^2. *)
Lemma normalized_incidence_contracts (u : nat -> R) :
  sum_upto m (fun e =>
    sum_upto n (fun v => u v * spec_entry Hm w v e) *
    sum_upto n (fun v => u v * spec_entry Hm w v e)) <=
  sum_upto n (fun v => u v * u v).
Proof.
  eapply Rle_trans.
  { apply Rsum_le. intros e He. apply column_bound, He. }
  rewrite Rsum_swap. apply Req_le, sum_upto_ext. intros v Hv.
  destruct Hvalid as (_ & _ & _ & Hd & _). specialize (Hd v Hv).
  assert (Hs : sqrt (d v) * sqrt (d v) = d v) by (apply sqrt_sqrt; lra).
  assert (Hs0 : sqrt (d v) <> 0).
  { intros E. rewrite E in Hs. lra. }
  transitivity (u v / sqrt (d v) * (u v / sqrt (d v)) * d v).
  - unfold node_degree at 5. rewrite <- Rsum_scal. apply sum_upto_ext. intros e _.
    cbn. ring.
  - rewrite <- Hs at 3. field. exact Hs0.
Qed.

(** A singular value of the normalized incidence matrix is at most 1 in
    absolute value. *)
Lemma singular_value_le_one (u : list R) (s : R) (v : list R) :
  singular_triplet (code_matrix data) u s v -> s * s <= 1.
Proof.
  intros (Hu & Hv & Hleft & _).
  rewrite code_matrix_nrows in Hu, Hleft.
  change (ncols (code_matrix data)) with m in Hv, Hleft.
  rewrite <- Hu.
  replace (s * s) with (s * s * sum_upto m (fun e => nth e v 0 * nth e v 0))
    by (rewrite Hv; ring).
  rewrite <- Rsum_scal.
  eapply Rle_trans; [|apply (normalized_incidence_contracts (fun i => nth i u 0))].
  apply Req_le, sum_upto_ext. intros e He.
  replace (s * s * (nth e v 0 * nth e v 0)) with (s * nth e v 0 * (s * nth e v 0)) by ring.
  rewrite <- (Hleft e He).
  assert (E : sum_upto n (fun i => nth i u 0 * entry (code_matrix data) i e) =
              sum_upto n (fun i => nth i u 0 * spec_entry Hm w i e)).
  { apply sum_upto_ext. intros i Hi. f_equal.
    apply code_matrix_spec_entry; auto.
    - intros t. apply Rmult_1_l.
    - apply Hvalid. }
  now rewrite E.
Qed.

End SpectralBound.

(** ** The spectrum: range and order *)

Section Order.
Local Open Scope R_scope.

Lemma Forall_firstn {A : Type} (P : A -> Prop) (k : nat) (l : list A) :
  Forall P l -> Forall P (firstn k l).
Proof.
  revert l. induction k as [|k IH]; intros [|a l] Hl; simpl; auto.
  inversion Hl; subst. constructor; auto.
Qed.

Lemma Sorted_firstn {A : Type} (rel : A -> A -> Prop) (k : nat) (l : list A) :
  Sorted rel l -> Sorted rel (firstn k l).
Proof.
  revert l. induction k as [|k IH]; intros [|a l] Hl; simpl; auto.
  apply Sorted_inv in Hl. destruct Hl as [Hl Hd]. constructor; [auto|].
  destruct k; simpl; [constructor|].
  destruct l as [|c l]; simpl; [constructor|].
  constructor. now apply HdRel_inv in Hd.
Qed.

(** On non-negative values, [t -> 1 - t*t] turns a descending sequence into
    an ascending one. *)
Lemma spectrum_ascending (s : list R) :
  Sorted Rge s -> Forall (fun t => 0 <= t) s ->
  Sorted Rle (map (fun t => 1 - t * t) s).
Proof.
  induction s as [|a s IH]; intros Hs Hpos; simpl; [constructor|].
  apply Sorted_inv in Hs. destruct Hs as [Hs Hd].
  inversion Hpos as [|? ? Ha Hrest]; subst.
  constructor; [auto|].
  destruct s as [|c s]; simpl; [constructor|].
  constructor. apply HdRel_inv in Hd. inversion Hrest; subst. nra.
Qed.

Lemma in_unit_interval (t : R) : t * t <= 1 -> 0 <= 1 - t * t <= 1.
Proof. intros Ht. pose proof (Rle_0_sqr t) as Hsq. unfold Rsqr in Hsq. lra. Qed.

Lemma factors_sound_bound (data : Data R) (U : matrix R) (s : list R) (Vt : matrix R) :
  valid_hypergraph data ->
  factors_sound (code_matrix data) (U, s, Vt) ->
  Forall (fun t => t * t <= 1) s.
Proof.
  intros Hvalid Hsound. apply Forall_forall. intros t Ht.
  destruct (In_nth _ _ 0 Ht) as (j & Hj & <-).
  eapply singular_value_le_one; [exact Hvalid|]. apply (Hsound j Hj).
Qed.

Lemma spectrum_in_unit_interval (s : list R) :
  Forall (fun t => t * t <= 1) s ->
  Forall (fun l => 0 <= l <= 1) (map (fun t => 1 - t * t) s).
Proof.
  intros Hs. apply Forall_map. eapply Forall_impl; [|exact Hs].
  intros t. apply in_unit_interval.
Qed.

(** C7, as it holds. In exact arithmetic, for a hypergraph with
    non-negative incidences, positive weights and strictly positive node
    and hyperedge degrees, and solvers that return singular triplets of the
    matrix they are given, every eigenvalue the decomposition of the
    normalized incidence matrix returns lies in [0, 1]: the singular values
    of that matrix are at most 1.  Positive degrees alone do not give it. *)
Theorem eigenvalues_in_unit_interval (B : Backend R) (data : Data R) (A : matrix R)
  (num_ev : option Z) (tol : R) (w : list R) (Uf : matrix R) :
  valid_hypergraph data ->
  normalized_incidence data = Ok A ->
  backend_sound_on B A ->
  snd (hypergraph_laplacian_decomposition real_float32 B A num_ev tol) = Ok (w, Uf) ->
  Forall (fun l => 0 <= l <= 1) w.
Proof.
  intros Hvalid Hn [Hsvd Hsvds].
  rewrite normalized_incidence_ok in Hn by apply Hvalid. injection Hn as <-.
  rewrite decomposition_run. unfold singular_factors.
  destruct num_ev as [k|]; [destruct (exceeds_half k _)|];
    rewrite ?full_decomposition_run, ?truncated_decomposition_run; simpl.
  - destruct (np_linalg_svd B _ false) as [[[U s] Vt]|e] eqn:E; simpl; [|discriminate].
    intros Hw. injection Hw as <- _.
    apply (@spectrum_in_unit_interval (firstn (Z.to_nat k) s)), Forall_firstn.
    eapply factors_sound_bound; [exact Hvalid|]. apply (Hsvd _ eq_refl).
  - destruct (sp_linalg_svds B _ k tol) as [[[U s] Vt]|e] eqn:E; simpl; [|discriminate].
    intros Hw. injection Hw as <- _.
    apply (@spectrum_in_unit_interval s).
    eapply factors_sound_bound; [exact Hvalid|]. apply (Hsvds _ _ _ E).
  - destruct (np_linalg_svd B _ false) as [[[U s] Vt]|e] eqn:E; simpl; [|discriminate].
    intros Hw. injection Hw as <- _.
    apply (@spectrum_in_unit_interval s).
    eapply factors_sound_bound; [exact Hvalid|]. apply (Hsvd _ eq_refl).
Qed.

(** C8. The eigenvalues come back in the order of the singular values
    the solver returned, unsorted.  On the full path they are [1 - t*t] for
    [t] running through the (possibly cut) values of [np.linalg.svd] in
    their order, so a descending non-negative sequence yields ascending
    eigenvalues; on the truncated path they are [1 - t*t] for [t] running
    through the values of [svds] in whatever order it produced them. *)
Theorem decomposition_keeps_solver_order (B : Backend R) (inc : matrix R)
  (num_ev : option Z) (tol : R) (U : matrix R) (s : list R) (Vt : matrix R) :
  (np_linalg_svd B inc false = Ok (U, s, Vt) ->
   num_ev = None \/
   (exists k, num_ev = Some k /\ (Z.of_nat (ncols inc) # 2 < inject_Z k)%Q) ->
   exists Uf,
     snd (hypergraph_laplacian_decomposition real_float32 B inc num_ev tol) =
       Ok (map (fun t => 1 - t * t)
             (match num_ev with
              | Some k => firstn (Z.to_nat k) s
              | None => s
              end), Uf) /\
     (Sorted Rge s -> Forall (fun t => 0 <= t) s ->
      Sorted Rle (map (fun t => 1 - t * t)
                    (match num_ev with
                     | Some k => firstn (Z.to_nat k) s
                     | None => s
                     end)))) /\
  (forall k, num_ev = Some k -> (inject_Z k <= Z.of_nat (ncols inc) # 2)%Q ->
   sp_linalg_svds B inc k tol = Ok (U, s, Vt) ->
   exists Uf,
     snd (hypergraph_laplacian_decomposition real_float32 B inc num_ev tol) =
       Ok (map (fun t => 1 - t * t) s, Uf)).
Proof.
  rewrite decomposition_run. unfold singular_factors. split.
  - intros E Hsel.
    destruct Hsel as [-> | (k & -> & Hk)];
      [|apply exceeds_half_true in Hk; rewrite Hk];
      rewrite full_decomposition_run; simpl; rewrite E; simpl;
      eexists; (split; [reflexivity|]); intros Hs Hpos;
      apply spectrum_ascending; auto using Sorted_firstn, Forall_firstn.
  - intros k -> Hk E. apply exceeds_half_false in Hk. rewrite Hk.
    rewrite truncated_decomposition_run. simpl. rewrite E. simpl.
    eexists. reflexivity.
Qed.

End Order.

(** ** Two hypergraphs on two nodes, and their decompositions *)

Section Signed.
Local Open Scope R_scope.

Lemma inv_sqrt2_sqr : / sqrt 2 * / sqrt 2 = / 2.
Proof. rewrite <- Rinv_mult, sqrt_sqrt by lra. reflexivity. Qed.

Lemma data_signed_shaped : well_shaped data_signed.
Proof.
  split; [|reflexivity].
  repeat (constructor; [reflexivity|]). constructor.
Qed.

(** All degrees of [data_signed] are 1, so the normalization changes
    nothing. *)
Lemma data_signed_entry (v e : nat) :
  (v < 2)%nat -> (e < 2)%nat ->
  entry (code_matrix data_signed) v e = entry (x data_signed) v e.
Proof.
  intros Hv He.
  rewrite (@code_matrix_spec_entry R real_scalar data_signed v e Rmult_1_l
             data_signed_shaped Hv He).
  unfold spec_entry, entry, weight_at. cbn.
  destruct v as [|[|v]]; [| |lia]; (destruct e as [|[|e]]; [| |lia]); cbn;
    match goal with
    | |- 1 / sqrt ?a * _ * sqrt (1 / ?c) = _ =>
        replace a with 1 by lra; replace c with 1 by lra
    end;
    replace (1 / 1) with 1 by lra; rewrite sqrt_1; lra.
Qed.

Lemma signed_factors_sound : factors_sound (code_matrix data_signed) signed_factors.
Proof.
  pose proof inv_sqrt2_sqr as Hr.
  intros j Hj. unfold singular_triplet.
  rewrite code_matrix_nrows.
  change (nrows (x data_signed)) with 2%nat.
  change (ncols (code_matrix data_signed)) with 2%nat.
  cbn [sum_upto real_scalar f_add f_zero].
  destruct j as [|[|j]]; [| |simpl in Hj; lia]; cbn [signed_factors column nth rows map];
    (split; [cbn; nra|]); (split; [cbn; nra|]);
    (split; intros [|[|i]] Hi; try lia; rewrite !data_signed_entry by lia;
       unfold entry; cbn; lra).
Qed.

Lemma fixed_double_sound (A : matrix R) (f : @factors R) :
  factors_sound A f -> backend_sound_on (fixed_double f) A.
Proof.
  intros Hf. split.
  - intros f' E. simpl in E. now injection E as <-.
  - intros k tol f' E. discriminate.
Qed.

End Signed.

(** With strictly positive degrees but a negative incidence, an eigenvalue
    leaves [0, 1]: the singular value 3 gives 1 - 9 = -8. *)
Lemma eigenvalue_below_zero :
  well_shaped data_signed /\
  (forall e, e < ncols (x data_signed) -> (0 < weight_at data_signed e)%R) /\
  (forall v, v < nrows (x data_signed) -> (0 < node_degree data_signed v)%R) /\
  (forall e, e < ncols (x data_signed) -> (0 < hyperedge_degree data_signed e)%R) /\
  normalized_incidence data_signed = Ok (code_matrix data_signed) /\
  backend_sound_on (fixed_double signed_factors) (code_matrix data_signed) /\
  exists (w : list R) (Uf : matrix R),
    snd (hypergraph_laplacian_decomposition real_float32 (fixed_double signed_factors)
           (code_matrix data_signed) None 0%R) = Ok (w, Uf) /\
    nth 0 w 0%R = (-8)%R /\
    ~ Forall (fun l => (0 <= l <= 1)%R) w.
Proof.
  split; [exact data_signed_shaped|].
  split; [intros e _; unfold weight_at; simpl; lra|].
  split.
  { intros [|[|v]] Hv; unfold nrows in Hv; simpl in Hv; try lia;
      unfold node_degree, entry, weight_at; simpl; lra. }
  split.
  { intros [|[|e]] He; simpl in He; try lia;
      unfold hyperedge_degree, entry, nrows; simpl; lra. }
  split; [apply normalized_incidence_ok, data_signed_shaped|].
  split; [apply fixed_double_sound, signed_factors_sound|].
  eexists. eexists. split; [reflexivity|].
  unfold real_float32. simpl. split; [lra|].
  intros H. apply Forall_inv in H. lra.
Qed.

Section Full.
Local Open Scope R_scope.

Lemma data_full_valid : valid_hypergraph data_full.
Proof.
  unfold valid_hypergraph, well_shaped, wf_matrix, node_degree, hyperedge_degree.
  repeat split.
  - repeat (constructor; [reflexivity|]). constructor.
  - intros [|[|v]] [|[|e]] Hv He; unfold nrows in *; simpl in *; try lia;
      unfold entry; simpl; lra.
  - intros e _. unfold weight_at. simpl. lra.
  - intros [|[|v]] Hv; unfold nrows in *; simpl in *; try lia;
      unfold entry, weight_at; simpl; lra.
  - intros [|[|e]] He; simpl in *; try lia; unfold entry, nrows; simpl; lra.
Qed.

(** Every degree of [data_full] is 2, so every normalized entry is 1/2. *)
Lemma data_full_entry (v e : nat) :
  (v < 2)%nat -> (e < 2)%nat -> entry (code_matrix data_full) v e = / 2.
Proof.
  intros Hv He.
  rewrite (@code_matrix_spec_entry R real_scalar data_full v e Rmult_1_l
             (proj1 data_full_valid) Hv He).
  unfold spec_entry, entry, weight_at. cbn.
  destruct v as [|[|v]]; [| |lia]; (destruct e as [|[|e]]; [| |lia]); cbn;
    match goal with
    | |- 1 / sqrt ?a * _ * sqrt (1 / ?c) = _ =>
        replace a with 2 by lra; replace c with 2 by lra
    end;
    unfold Rdiv; rewrite !Rmult_1_l, sqrt_inv, Rmult_1_r; apply inv_sqrt2_sqr.
Qed.

Lemma full_factors_sound : factors_sound (code_matrix data_full) full_factors.
Proof.
  pose proof inv_sqrt2_sqr as Hr.
  intros j Hj. unfold singular_triplet.
  rewrite code_matrix_nrows.
  change (nrows (x data_full)) with 2%nat.
  change (ncols (code_matrix data_full)) with 2%nat.
  cbn [sum_upto real_scalar f_add f_zero].
  destruct j as [|[|j]]; [| |simpl in Hj; lia]; cbn [full_factors column nth rows map];
    (split; [cbn; nra|]); (split; [cbn; nra|]);
    (split; intros [|[|i]] Hi; try lia; rewrite !data_full_entry by lia;
       cbn; lra).
Qed.

End Full.

Lemma eigenvalues_in_unit_interval_witness :
  valid_hypergraph data_full /\
  normalized_incidence data_full = Ok (code_matrix data_full) /\
  backend_sound_on (fixed_double full_factors) (code_matrix data_full) /\
  exists (w : list R) (Uf : matrix R),
    snd (hypergraph_laplacian_decomposition real_float32 (fixed_double full_factors)
           (code_matrix data_full) None 0%R) = Ok (w, Uf) /\
    Forall (fun l => (0 <= l <= 1)%R) w.
Proof.
  assert (Hn : normalized_incidence data_full = Ok (code_matrix data_full))
    by (apply normalized_incidence_ok, data_full_valid).
  assert (Hb : backend_sound_on (fixed_double full_factors) (code_matrix data_full))
    by (apply fixed_double_sound, full_factors_sound).
  split; [exact data_full_valid|]. split; [exact Hn|]. split; [exact Hb|].
  eexists. eexists. split; [reflexivity|].
  exact (@eigenvalues_in_unit_interval (fixed_double full_factors) data_full
           (code_matrix data_full) None 0%R _ _ data_full_valid Hn Hb eq_refl).
Defined.

Lemma decomposition_keeps_solver_order_witness :
  (np_linalg_svd diagonal_double inc_diagonal_real false =
     Ok (selector 4 [0; 1; 2; 3], [1; 1 / 2; 0; 0]%R, selector_rows [0; 1; 2; 3] 4) /\
   Sorted Rge [1; 1 / 2; 0; 0]%R /\
   Forall (fun t => (0 <= t)%R) [1; 1 / 2; 0; 0]%R /\
   exists Uf,
     snd (hypergraph_laplacian_decomposition real_float32 diagonal_double
            inc_diagonal_real None 0%R) =
       Ok (map (fun t => (1 - t * t)%R) [1; 1 / 2; 0; 0]%R, Uf) /\
     Sorted Rle (map (fun t => (1 - t * t)%R) [1; 1 / 2; 0; 0]%R)) /\
  ((inject_Z 2 <= Z.of_nat (ncols inc_diagonal_real) # 2)%Q /\
   sp_linalg_svds diagonal_double inc_diagonal_real 2 0%R =
     Ok (selector 4 [1; 0], [1 / 2; 1]%R, selector_rows [1; 0] 4) /\
   (exists Uf,
     snd (hypergraph_laplacian_decomposition real_float32 diagonal_double
            inc_diagonal_real (Some 2%Z) 0%R) =
       Ok (map (fun t => (1 - t * t)%R) [1 / 2; 1]%R, Uf)) /\
   ~ Sorted Rle (map (fun t => (1 - t * t)%R) [1 / 2; 1]%R)).
Proof.
  assert (Hs : Sorted Rge [1; 1 / 2; 0; 0]%R) by (repeat constructor; lra).
  assert (Hp : Forall (fun t => (0 <= t)%R) [1; 1 / 2; 0; 0]%R)
    by (repeat constructor; lra).
  assert (Hq : (inject_Z 2 <= Z.of_nat (ncols inc_diagonal_real) # 2)%Q)
    by (unfold Qle; simpl; lia).
  split.
  - split; [reflexivity|]. split; [exact Hs|]. split; [exact Hp|].
    destruct (proj1 (decomposition_keeps_solver_order diagonal_double
                       inc_diagonal_real None 0%R
                       (selector 4 [0; 1; 2; 3]) [1; 1 / 2; 0; 0]%R
                       (selector_rows [0; 1; 2; 3] 4)) eq_refl (or_introl eq_refl))
      as (Uf & E & Hsorted).
    exists Uf. split; [exact E | exact (Hsorted Hs Hp)].
  - split; [exact Hq|]. split; [reflexivity|]. split.
    + exact (proj2 (decomposition_keeps_solver_order diagonal_double
                      inc_diagonal_real (Some 2%Z) 0%R
                      (selector 4 [1; 0]) [1 / 2; 1]%R (selector_rows [1; 0] 4))
               2%Z eq_refl Hq eq_refl).
    + simpl. intros H. apply Sorted_inv in H. destruct H as [_ H].
      apply HdRel_inv in H. lra.
Defined.

(** ** [normalized_incidence]: failure and inversion *)

(** X1. [normalized_incidence] fails in one way only: with weights whose
    length is not the number of hyperedges, the product [inc @ weights]
    raises [ValueError]; in every other case it returns the scaled matrix. *)
Theorem normalized_incidence_value_error {F : Type} `{Scalar F} (data : Data F) :
  (hyperedge_weight data = None ->
   normalized_incidence data = Ok (code_matrix data)) /\
  (forall w, hyperedge_weight data = Some w ->
     (length w = ncols (x data) -> normalized_incidence data = Ok (code_matrix data)) /\
     (length w <> ncols (x data) -> normalized_incidence data = Raise "ValueError")) /\
  (forall e, normalized_incidence data = Raise e -> e = "ValueError").
Proof.
  destruct (normalized_incidence_cases data) as [[Hl E]|[Hl E]]; unfold weights_of in Hl.
  - split; [auto|]. split.
    + intros w Hw. rewrite Hw in Hl. split; [auto | intros Hne; contradiction].
    + intros e He. rewrite E in He. discriminate.
  - split; [|split].
    + intros Hnone. rewrite Hnone, np_ones_length in Hl. contradiction.
    + intros w Hw. rewrite Hw in Hl. split; [intros Heq; contradiction | auto].
    + intros e He. rewrite E in He. now injection He.
Qed.

Section Inversion.
Local Open Scope R_scope.

Lemma Rsum_pos (n : nat) (f : nat -> R) :
  (0 < n)%nat -> (forall i, (i < n)%nat -> 0 < f i) -> 0 < sum_upto n f.
Proof.
  intros Hn Hf. destruct n as [|n]; [lia|]. rewrite Rsum_S.
  assert (0 <= sum_upto n f).
  { apply Rsum_nonneg. intros i Hi. apply Rlt_le, Hf. lia. }
  pose proof (Hf n (Nat.lt_succ_diag_r n)). lra.
Qed.

Lemma sqrt_ratio_inverse (a b : R) : 0 < a -> 0 < b -> sqrt (a / b) * sqrt (b / a) = 1.
Proof.
  intros Ha Hb. rewrite <- sqrt_mult_alt.
  - replace (a / b * (b / a)) with 1 by (field; lra). apply sqrt_1.
  - apply Rlt_le, Rdiv_lt_0_compat; assumption.
Qed.

Lemma sqrt_ratio_times (a b : R) : 0 < a -> 0 < b -> sqrt (a / b) * b = sqrt (a * b).
Proof.
  intros Ha Hb. rewrite <- (sqrt_square b) at 2 by lra.
  rewrite <- sqrt_mult_alt by (apply Rlt_le, Rdiv_lt_0_compat; assumption).
  f_equal. field. lra.
Qed.

Lemma sqrt_ratio_product (a b : R) : 0 < a -> 0 < b -> sqrt (a / b) * sqrt (a * b) = a.
Proof.
  intros Ha Hb.
  rewrite <- sqrt_mult_alt by (apply Rlt_le, Rdiv_lt_0_compat; assumption).
  replace (a / b * (a * b)) with (a * a) by (field; lra).
  apply sqrt_square. lra.
Qed.

Lemma sqrt_pos_neq (a : R) : 0 < a -> sqrt a <> 0.
Proof. intros Ha E. apply sqrt_eq_0 in E; lra. Qed.

(** X2. On a valid hypergraph the scaling can be undone: every incidence
    is [sqrt d_v * A[v,e] * sqrt (b_e / w_e)] for the returned matrix [A]. *)
Theorem normalized_incidence_inverts (data : Data R) :
  valid_hypergraph data ->
  exists A,
    normalized_incidence data = Ok A /\
    forall v e, (v < nrows (x data))%nat -> (e < ncols (x data))%nat ->
      entry (x data) v e =
      sqrt (node_degree data v) * entry A v e *
      sqrt (hyperedge_degree data e / weight_at data e).
Proof.
  intros Hvalid. exists (code_matrix data).
  split; [apply normalized_incidence_ok, Hvalid|].
  intros v e Hv He.
  destruct Hvalid as (Hs & _ & Hw & Hd & Hb).
  rewrite (@code_matrix_spec_entry R real_scalar data v e Rmult_1_l Hs Hv He), spec_entry_real.
  specialize (Hw e He). specialize (Hd v Hv). specialize (Hb e He).
  pose proof (sqrt_pos_neq _ Hd) as Hd0.
  pose proof (sqrt_ratio_inverse _ _ Hw Hb) as Hinv.
  transitivity (entry (x data) v e *
                (sqrt (weight_at data e / hyperedge_degree data e) *
                 sqrt (hyperedge_degree data e / weight_at data e))).
  - rewrite Hinv. ring.
  - field. exact Hd0.
Qed.

Lemma total_degree_by_hyperedge (data : Data R) :
  total_degree data =
  sum_upto (ncols (x data)) (fun e => weight_at data e * hyperedge_degree data e).
Proof.
  unfold total_degree, node_degree, hyperedge_degree.
  rewrite Rsum_swap. apply sum_upto_ext. intros e _.
  rewrite <- Rsum_scal. apply sum_upto_ext. intros v _. cbn. ring.
Qed.

Lemma degree_direction_nth (data : Data R) (v : nat) :
  (v < nrows (x data))%nat ->
  nth v (degree_direction data) 0 = sqrt (node_degree data v) / sqrt (total_degree data).
Proof.
  intros Hv. unfold degree_direction.
  rewrite nth_map_lt with (da := 0%nat) by (rewrite length_seq; exact Hv).
  now rewrite seq_nth.
Qed.

Lemma hyperedge_direction_nth (data : Data R) (e : nat) :
  (e < ncols (x data))%nat ->
  nth e (hyperedge_direction data) 0 =
  sqrt (weight_at data e * hyperedge_degree data e) / sqrt (total_degree data).
Proof.
  intros He. unfold hyperedge_direction.
  rewrite nth_map_lt with (da := 0%nat) by (rewrite length_seq; exact He).
  now rewrite seq_nth.
Qed.

(** X3. On a valid hypergraph with a node, 1 is a singular value of the
    returned matrix, with the unit vectors along [sqrt d] and
    [sqrt (w * b)]: the Laplacian has the eigenvalue 0. *)
Theorem normalized_incidence_unit_singular_value (data : Data R) :
  valid_hypergraph data ->
  (0 < nrows (x data))%nat ->
  exists A,
    normalized_incidence data = Ok A /\
    singular_triplet A (degree_direction data) 1 (hyperedge_direction data).
Proof.
  intros Hvalid Hn. exists (code_matrix data).
  split; [apply normalized_incidence_ok, Hvalid|].
  destruct Hvalid as (Hs & Hpos & Hw & Hd & Hb).
  assert (HS : 0 < total_degree data) by (apply Rsum_pos; assumption).
  pose proof (sqrt_sqrt _ (Rlt_le _ _ HS)) as HSS.
  pose proof (sqrt_pos_neq _ HS) as HS0.
  unfold singular_triplet. rewrite code_matrix_nrows.
  change (ncols (code_matrix data)) with (ncols (x data)).
  split; [|split; [|split]].
  - transitivity (sum_upto (nrows (x data))
                    (fun v => / total_degree data * node_degree data v)).
    + apply sum_upto_ext. intros v Hv. rewrite degree_direction_nth by assumption.
      pose proof (sqrt_sqrt _ (Rlt_le _ _ (Hd v Hv))) as Hdd.
      rewrite <- Hdd at 3. rewrite <- HSS at 3. field. exact HS0.
    + rewrite Rsum_scal. fold (total_degree data). field. lra.
  - transitivity (sum_upto (ncols (x data))
                    (fun e => / total_degree data *
                              (weight_at data e * hyperedge_degree data e))).
    + apply sum_upto_ext. intros e He. rewrite hyperedge_direction_nth by assumption.
      assert (Hwb : 0 <= weight_at data e * hyperedge_degree data e).
      { apply Rlt_le, Rmult_lt_0_compat; auto. }
      pose proof (sqrt_sqrt _ Hwb) as Hww.
      rewrite <- Hww at 3. rewrite <- HSS at 3. field. exact HS0.
    + rewrite Rsum_scal, <- total_degree_by_hyperedge. field. lra.
  - intros e He. rewrite hyperedge_direction_nth by assumption.
    transitivity (sum_upto (nrows (x data))
                    (fun v => sqrt (weight_at data e / hyperedge_degree data e) /
                              sqrt (total_degree data) * entry (x data) v e)).
    + apply sum_upto_ext. intros v Hv. rewrite degree_direction_nth by assumption.
      rewrite (@code_matrix_spec_entry R real_scalar data v e Rmult_1_l Hs Hv He), spec_entry_real.
      field. split; [exact HS0 | apply sqrt_pos_neq, Hd, Hv].
    + rewrite Rsum_scal. fold (hyperedge_degree data e).
      rewrite <- (sqrt_ratio_times _ _ (Hw e He) (Hb e He)). field. exact HS0.
  - intros v Hv. rewrite degree_direction_nth by assumption.
    pose proof (sqrt_sqrt _ (Rlt_le _ _ (Hd v Hv))) as Hdd.
    pose proof (sqrt_pos_neq _ (Hd v Hv)) as Hd0.
    transitivity (sum_upto (ncols (x data))
                    (fun e => / (sqrt (node_degree data v) * sqrt (total_degree data)) *
                              (entry (x data) v e * weight_at data e))).
    + apply sum_upto_ext. intros e He. rewrite hyperedge_direction_nth by assumption.
      rewrite (@code_matrix_spec_entry R real_scalar data v e Rmult_1_l Hs Hv He), spec_entry_real.
      pose proof (sqrt_ratio_product _ _ (Hw e He) (Hb e He)) as Hp.
      transitivity (/ (sqrt (node_degree data v) * sqrt (total_degree data)) *
                    (entry (x data) v e *
                     (sqrt (weight_at data e / hyperedge_degree data e) *
                      sqrt (weight_at data e * hyperedge_degree data e)))).
      * field. split; assumption.
      * now rewrite Hp.
    + rewrite Rsum_scal.
      change (sum_upto (ncols (x data))
                (fun e => entry (x data) v e * weight_at data e))
        with (node_degree data v).
      set (r := sqrt (node_degree data v)) in *.
      rewrite <- Hdd. field. split; assumption.
Qed.

End Inversion.

Set Implicit Arguments.

(** ** The decomposition and the orchestrator: solver, counts, forwarding *)

Section PipelineExtras.
Context {F F32 : Type} {SF : Scalar F} {SF32 : Scalar F32}.
Variable astype_float32 : F -> F32.
Variable Spectral : Type.
Variable setup_spectral_data :
  Data F -> list F32 -> matrix F32 -> F -> option Z -> outcome Spectral.

Local Open Scope outcome_scope.

Lemma exceeds_half_integers (k : Z) (m : nat) :
  exceeds_half k m = true <-> (Z.of_nat m < 2 * k)%Z.
Proof.
  rewrite exceeds_half_true. unfold Qlt, inject_Z. cbn [Qnum Qden]. lia.
Qed.

(** X4. With [k] requested and [m] hyperedges, the full SVD is called
    exactly when [m < 2 k], and the truncated solver when [2 k <= m], so
    also for every [k <= 0]; each run is that one call. *)
Theorem decomposition_crossover (B : Backend F) (inc : matrix F) (k : Z) (tol : F) :
  ((Z.of_nat (ncols inc) < 2 * k)%Z ->
   fst (hypergraph_laplacian_decomposition astype_float32 B inc (Some k) tol) =
     [CallSvd inc false]) /\
  ((2 * k <= Z.of_nat (ncols inc))%Z ->
   fst (hypergraph_laplacian_decomposition astype_float32 B inc (Some k) tol) =
     [CallSvds inc k tol]) /\
  ((k <= 0)%Z ->
   fst (hypergraph_laplacian_decomposition astype_float32 B inc (Some k) tol) =
     [CallSvds inc k tol]).
Proof.
  rewrite decomposition_run. unfold singular_factors. simpl.
  assert (Hfull : (Z.of_nat (ncols inc) < 2 * k)%Z ->
                  exceeds_half k (ncols inc) = true) by apply exceeds_half_integers.
  assert (Htrunc : (2 * k <= Z.of_nat (ncols inc))%Z ->
                   exceeds_half k (ncols inc) = false).
  { intros Hk. apply not_true_iff_false. rewrite exceeds_half_integers. lia. }
  split; [|split].
  - intros Hk. rewrite (Hfull Hk), full_decomposition_run. reflexivity.
  - intros Hk. rewrite (Htrunc Hk), truncated_decomposition_run. reflexivity.
  - intros Hk. rewrite Htrunc by lia. rewrite truncated_decomposition_run. reflexivity.
Qed.

(** X5. On the full path the result has [min k (length sigma)]
    eigenvalues and [min k (ncols U)] columns, on the rows of [U]; on the
    truncated path it has as many eigenvalues as the solver returned. *)
Theorem decomposition_count (B : Backend F) (inc : matrix F) (k : Z) (tol : F)
  (U : matrix F) (s : list F) (Vt : matrix F) :
  ((Z.of_nat (ncols inc) < 2 * k)%Z ->
   np_linalg_svd B inc false = Ok (U, s, Vt) ->
   exists w Uf,
     snd (hypergraph_laplacian_decomposition astype_float32 B inc (Some k) tol) =
       Ok (w, Uf) /\
     length w = Nat.min (Z.to_nat k) (length s) /\
     ncols Uf = Nat.min (Z.to_nat k) (ncols U) /\
     nrows Uf = nrows U) /\
  ((2 * k <= Z.of_nat (ncols inc))%Z ->
   sp_linalg_svds B inc k tol = Ok (U, s, Vt) ->
   exists w Uf,
     snd (hypergraph_laplacian_decomposition astype_float32 B inc (Some k) tol) =
       Ok (w, Uf) /\
     length w = length s /\ ncols Uf = ncols U /\ nrows Uf = nrows U).
Proof.
  rewrite decomposition_run. unfold singular_factors. split.
  - intros Hk E. apply exceeds_half_integers in Hk. rewrite Hk.
    rewrite full_decomposition_run. simpl. rewrite E. simpl.
    eexists. eexists. split; [reflexivity|].
    unfold nrows. simpl. rewrite !length_map, length_firstn. auto.
  - intros Hk E.
    assert (Hf : exceeds_half k (ncols inc) = false).
    { apply not_true_iff_false. rewrite exceeds_half_integers. lia. }
    rewrite Hf, truncated_decomposition_run. simpl. rewrite E. simpl.
    eexists. eexists. split; [reflexivity|].
    unfold nrows. simpl. rewrite !length_map. auto.
Qed.

Lemma invoke_bind_Ok {A C : Type} (ev : event F F32) (m : Exec (F := F) (F32 := F32) A)
  (a : A) (f : A -> Exec C) :
  snd m = Ok a ->
  bind (invoke ev m) f = ((ev :: fst m) ++ fst (f a), snd (f a))%list.
Proof.
  destruct m as [l r]. simpl. intros ->. unfold invoke, bind. simpl.
  now destruct (f a).
Qed.

Lemma invoke_bind_Raise {A C : Type} (ev : event F F32) (m : Exec (F := F) (F32 := F32) A)
  (e : exn) (f : A -> Exec C) :
  snd m = Raise e ->
  bind (invoke ev m) f = (ev :: fst m, Raise e).
Proof.
  destruct m as [l r]. simpl. intros ->. reflexivity.
Qed.

(** X6. When normalization returns, [__call__] hands
    [setup_spectral_data] the very pair the decomposition returned, with
    [eig_threshold] and [rank], as the last call of the run, and returns
    its outcome; when the decomposition raises, that exception is the
    outcome and [setup_spectral_data] is not called. *)
Theorem orchestrator_forwards_spectrum (B : Backend F) (self : HypergraphPinv F)
  (data : Data F) (inc : matrix F) :
  normalized_incidence data = Ok inc ->
  (forall w U,
     snd (hypergraph_laplacian_decomposition astype_float32 B inc
            (requested_count self) (eig_tol self)) = Ok (w, U) ->
     HypergraphPinv_call astype_float32 setup_spectral_data B self data =
       ((CallDecomposition inc (requested_count self) (eig_tol self) ::
         fst (hypergraph_laplacian_decomposition astype_float32 B inc
                (requested_count self) (eig_tol self))) ++
        [CallSetupSpectralData data w U (eig_threshold self) (rank self)],
        setup_spectral_data data w U (eig_threshold self) (rank self))%list) /\
  (forall e,
     snd (hypergraph_laplacian_decomposition astype_float32 B inc
            (requested_count self) (eig_tol self)) = Raise e ->
     HypergraphPinv_call astype_float32 setup_spectral_data B self data =
       (CallDecomposition inc (requested_count self) (eig_tol self) ::
        fst (hypergraph_laplacian_decomposition astype_float32 B inc
               (requested_count self) (eig_tol self)),
        Raise e)).
Proof.
  intros Hn. unfold HypergraphPinv_call. rewrite Hn, bind_lift_Ok.
  fold (requested_count self). split.
  - intros w U E. rewrite (invoke_bind_Ok _ _ _ E). reflexivity.
  - intros e E. now rewrite (invoke_bind_Raise _ _ _ E).
Qed.

End PipelineExtras.

Section DatasetExtras.
Context {A F : Type} {SF : Scalar F}.
Variable Stored : Type.
Variable collate : list (Data F) -> Stored.
Variable float_tensor : A -> F.

Lemma map_matrix_wf (M : matrix A) : wf_matrix M -> wf_matrix (map_matrix float_tensor M).
Proof.
  unfold wf_matrix. simpl. intros Hwf. apply Forall_map.
  eapply Forall_impl; [|exact Hwf]. intros r Hr. now rewrite length_map.
Qed.

(** X7. With a [pre_transform] set and a path, [save_processed] stores one
    data object under the first path: it holds the incidences it was
    given, each converted to [float32], the labels, and one unit weight per
    hyperedge, so that [normalized_incidence] returns on it. *)
Theorem saved_data_is_well_shaped (self : UCIHypergraphDataset F)
  (incidence : matrix A) (labels : list Z) (fs : disk Stored)
  (f : Data F -> outcome (Data F)) (path : string) (others : list string) :
  pre_transform self = Some f ->
  processed_paths self = path :: others ->
  wf_matrix incidence ->
  exists data,
    save_processed collate float_tensor self (Array2 incidence) labels fs =
      (Ok tt, (path, collate [data]) :: fs) /\
    x data = map_matrix float_tensor incidence /\
    nrows (x data) = nrows incidence /\ ncols (x data) = ncols incidence /\
    (forall v e (d : A), v < nrows incidence -> e < ncols incidence ->
       entry (x data) v e = float_tensor (nth e (nth v (rows incidence) []) d)) /\
    y data = labels /\
    well_shaped data /\
    (forall e, e < ncols incidence -> weight_at data e = f_one) /\
    normalized_incidence data = Ok (code_matrix data).
Proof.
  intros Hp Hpaths Hwf.
  exists (mkData (map_matrix float_tensor incidence) labels
            (Some (np_ones (ncols incidence)))).
  assert (Hs : well_shaped (mkData (map_matrix float_tensor incidence) labels
                              (Some (np_ones (ncols incidence))))).
  { split; [apply map_matrix_wf, Hwf|]. unfold weights_of. simpl. apply np_ones_length. }
  split; [unfold save_processed, torch_save; rewrite Hp, Hpaths; reflexivity|].
  split; [reflexivity|].
  split; [unfold nrows; simpl; apply length_map|].
  split; [reflexivity|].
  split; [|split; [reflexivity|split; [exact Hs|split]]].
  - intros v e d Hv He. unfold entry. cbn [x rows map_matrix].
    rewrite nth_map_lt with (da := []) by exact Hv.
    apply nth_map_lt.
    unfold wf_matrix in Hwf. rewrite Forall_forall in Hwf.
    rewrite (Hwf (nth v (rows incidence) [])); [exact He|].
    apply nth_In. exact Hv.
  - intros e He. unfold weight_at. simpl. now apply nth_np_ones.
  - now apply normalized_incidence_ok.
Qed.

End DatasetExtras.

(** ** Lines and fields *)

Lemma strip_last_snoc (s : string) (c : ascii) :
  strip_last (s ++ String c EmptyString) = s.
Proof.
  induction s as [|a s IH]; [reflexivity|].
  change ((String a s ++ String c "")%string) with (String a (s ++ String c "")).
  cbn [strip_last]. rewrite IH.
  destruct s; reflexivity.
Qed.

Lemma split_comma_nonempty (s : string) : split_comma s <> [].
Proof.
  induction s as [|a s IH]; simpl; [discriminate|].
  destruct (Ascii.eqb a ","); [discriminate|].
  destruct (split_comma s); discriminate.
Qed.

Lemma split_comma_field (s : string) :
  contains_comma s = false -> split_comma s = [s].
Proof.
  induction s as [|a s IH]; simpl; [reflexivity|].
  intros H. apply orb_false_iff in H. destruct H as [Ha Hs].
  rewrite Ha, (IH Hs). reflexivity.
Qed.

Lemma split_comma_cons (s rest : string) :
  contains_comma s = false ->
  split_comma (s ++ String "," rest) = s :: split_comma rest.
Proof.
  induction s as [|a s IH]; simpl; [reflexivity|].
  intros H. apply orb_false_iff in H. destruct H as [Ha Hs].
  rewrite Ha, (IH Hs). reflexivity.
Qed.

Lemma split_comma_concat (fields : list string) :
  fields <> [] ->
  Forall (fun f => contains_comma f = false) fields ->
  split_comma (String.concat "," fields) = fields.
Proof.
  induction fields as [|f fields IH]; intros Hne Hall; [contradiction|].
  inversion Hall as [|? ? Hf Hrest]; subst.
  destruct fields as [|g fields].
  - simpl. now apply split_comma_field.
  - change (String.concat "," (f :: g :: fields))
      with (f ++ String "," (String.concat "," (g :: fields))).
    rewrite split_comma_cons by assumption.
    f_equal. apply IH; [discriminate | assumption].
Qed.

(** X8. A line that joins comma-free fields with commas and ends in one
    more character is read back as these fields. *)
Theorem parse_line_concat (fields : list string) (c : ascii) :
  fields <> [] ->
  Forall (fun f => contains_comma f = false) fields ->
  parse_line (String.concat "," fields ++ String c EmptyString) = fields.
Proof.
  intros Hne Hall. unfold parse_line.
  rewrite strip_last_snoc. now apply split_comma_concat.
Qed.

(** ** [np.unique] *)

Lemma ascii_compare_refl (a : ascii) : Ascii.compare a a = Eq.
Proof. unfold Ascii.compare. apply N.compare_refl. Qed.

Lemma ascii_compare_lt_trans (a b c : ascii) :
  Ascii.compare a b = Lt -> Ascii.compare b c = Lt -> Ascii.compare a c = Lt.
Proof.
  unfold Ascii.compare. rewrite !N.compare_lt_iff. apply N.lt_trans.
Qed.

Lemma string_lt_trans (a b c : string) : string_lt a b -> string_lt b c -> string_lt a c.
Proof.
  unfold string_lt. revert b c.
  induction a as [|x a IH]; intros [|y b] [|z c]; simpl; try discriminate; auto.
  destruct (Ascii.compare x y) eqn:Exy; try discriminate;
    destruct (Ascii.compare y z) eqn:Eyz; try discriminate; intros H1 H2.
  - apply Ascii.compare_eq_iff in Exy, Eyz. subst.
    rewrite ascii_compare_refl. eauto.
  - apply Ascii.compare_eq_iff in Exy. subst. now rewrite Eyz.
  - apply Ascii.compare_eq_iff in Eyz. subst. now rewrite Exy.
  - now rewrite (ascii_compare_lt_trans _ _ _ Exy Eyz).
Qed.

Lemma string_lt_irrefl (a : string) : ~ string_lt a a.
Proof.
  unfold string_lt. intros H. pose proof (String.compare_antisym a a) as E.
  rewrite H in E. discriminate.
Qed.

Lemma insert_unique_In (v u : string) (l : list string) :
  In u (insert_unique v l) <-> u = v \/ In u l.
Proof.
  induction l as [|h t IH]; simpl.
  - intuition.
  - destruct (String.compare v h) eqn:E; simpl.
    + apply String.compare_eq_iff in E. subst. intuition.
    + intuition.
    + rewrite IH. intuition.
Qed.

Lemma insert_unique_sorted (v : string) (l : list string) :
  StronglySorted string_lt l -> StronglySorted string_lt (insert_unique v l).
Proof.
  induction l as [|h t IH]; intros Hs; simpl.
  - repeat constructor.
  - apply StronglySorted_inv in Hs. destruct Hs as [Ht Hh].
    destruct (String.compare v h) eqn:E.
    + now constructor.
    + constructor; [now constructor|].
      constructor; [exact E|].
      eapply Forall_impl; [|exact Hh]. intros u Hu.
      now apply string_lt_trans with h.
    + constructor; [auto|].
      apply Forall_forall. intros u Hu. apply insert_unique_In in Hu.
      destruct Hu as [->|Hu].
      * unfold string_lt. rewrite String.compare_antisym, E. reflexivity.
      * rewrite Forall_forall in Hh. now apply Hh.
Qed.

Lemma np_unique_In (u : string) (col : list string) :
  In u (np_unique col) <-> In u col.
Proof.
  unfold np_unique. induction col as [|c col IH]; simpl; [tauto|].
  rewrite insert_unique_In, IH. intuition.
Qed.

Lemma np_unique_sorted (col : list string) : StronglySorted string_lt (np_unique col).
Proof.
  unfold np_unique. induction col as [|c col IH]; simpl; [constructor|].
  now apply insert_unique_sorted.
Qed.

Lemma sorted_NoDup (l : list string) : StronglySorted string_lt l -> NoDup l.
Proof.
  induction 1 as [|a l Hs IH Ha]; constructor; auto.
  intros Hin. rewrite Forall_forall in Ha. exact (string_lt_irrefl (Ha _ Hin)).
Qed.

Lemma np_unique_NoDup (col : list string) : NoDup (np_unique col).
Proof. apply sorted_NoDup, np_unique_sorted. Qed.

(** ** The hyperedges of the Mushroom data *)

Lemma get_column_length (i : nat) (raw : matrix string) :
  length (get_column i raw) = nrows raw.
Proof. apply length_map. Qed.

Lemma filter_none {A : Type} (p : A -> bool) (l : list A) :
  (forall a, In a l -> p a = false) -> filter p l = [].
Proof.
  induction l as [|a l IH]; intros E; simpl; [reflexivity|].
  rewrite (E a (or_introl eq_refl)). apply IH. intros; apply E; now right.
Qed.

Lemma count_eqb_NoDup (u : string) (l : list string) :
  NoDup l -> In u l -> length (filter (fun val => String.eqb u val) l) = 1.
Proof.
  induction 1 as [|a l Ha Hl IH]; intros Hin; [contradiction|].
  simpl. destruct (String.eqb_spec u a) as [->|Hne].
  - simpl. f_equal.
    rewrite filter_none; [reflexivity|].
    intros val Hval. apply String.eqb_neq. intros ->. contradiction.
  - destruct Hin as [->|Hin]; [contradiction|]. auto.
Qed.

Lemma filter_map_length {A B : Type} (p : B -> bool) (g : A -> B) (l : list A) :
  length (filter p (map g l)) = length (filter (fun a => p (g a)) l).
Proof.
  induction l as [|a l IH]; simpl; [reflexivity|].
  destruct (p (g a)); simpl; now rewrite IH.
Qed.

Lemma eqb_column_nth (col : list string) (val : string) (v : nat) :
  v < length col ->
  nth v (map (fun c => String.eqb c val) col) false = String.eqb (nth v col EmptyString) val.
Proof. intros Hv. now rewrite nth_map_lt with (da := EmptyString). Qed.

(** One attribute: a node is in exactly one of its hyperedges, or in none
    when the attribute is dropped. *)
Lemma attribute_membership (col : list string) (v : nat) :
  v < length col ->
  membership_count v (attribute_edges col) =
  if existsb (String.prefix "?") (np_unique col) then 0 else 1.
Proof.
  intros Hv. unfold membership_count, attribute_edges.
  destruct (existsb _ _); [reflexivity|].
  rewrite filter_map_length.
  rewrite filter_ext_in with (g := fun val => String.eqb (nth v col EmptyString) val).
  - apply count_eqb_NoDup; [apply np_unique_NoDup|].
    apply np_unique_In, nth_In, Hv.
  - intros val _. now apply eqb_column_nth.
Qed.

Lemma membership_count_app (v : nat) (l1 l2 : list (list bool)) :
  membership_count v (l1 ++ l2) = membership_count v l1 + membership_count v l2.
Proof. unfold membership_count. now rewrite filter_app, length_app. Qed.

Lemma attribute_edges_shape (col : list string) (edge : list bool) :
  In edge (attribute_edges col) ->
  length edge = length col /\ exists v, v < length col /\ nth v edge false = true.
Proof.
  unfold attribute_edges. destruct (existsb _ _); [contradiction|].
  intros Hin. apply in_map_iff in Hin. destruct Hin as (val & <- & Hval).
  split; [apply length_map|].
  apply (proj1 (np_unique_In _ _)) in Hval.
  destruct (In_nth _ _ EmptyString Hval) as (v & Hv & E).
  exists v. split; [exact Hv|].
  rewrite eqb_column_nth, E by assumption. apply String.eqb_refl.
Qed.

Lemma mushroom_edges_shape (raw : matrix string) (edge : list bool) :
  In edge (mushroom_edges raw) ->
  length edge = nrows raw /\ exists v, v < nrows raw /\ nth v edge false = true.
Proof.
  intros Hin. unfold mushroom_edges in Hin.
  apply in_flat_map in Hin. destruct Hin as (i & _ & Hin).
  apply attribute_edges_shape in Hin. now rewrite get_column_length in Hin.
Qed.

Lemma mushroom_edges_count (raw : matrix string) (v : nat) :
  v < nrows raw ->
  membership_count v (mushroom_edges raw) = length (kept_attributes raw).
Proof.
  intros Hv. unfold mushroom_edges, kept_attributes.
  induction (seq 1 (ncols raw - 1)) as [|i l IH]; [reflexivity|].
  simpl. rewrite membership_count_app, IH.
  rewrite attribute_membership by now rewrite get_column_length.
  destruct (existsb _ _); reflexivity.
Qed.

Lemma attribute_edges_kept (col : list string) :
  existsb (String.prefix "?") (np_unique col) = false ->
  attribute_edges col = map (fun val => map (fun c => String.eqb c val) col) (np_unique col).
Proof. unfold attribute_edges. now intros ->. Qed.

Lemma attribute_edges_dropped (col : list string) :
  existsb (String.prefix "?") (np_unique col) = true -> attribute_edges col = [].
Proof. unfold attribute_edges. now intros ->. Qed.

(** The hyperedges come attribute by attribute, the dropped attributes
    contributing none. *)
Lemma mushroom_edges_blocks (raw : matrix string) :
  mushroom_edges raw =
  concat (map (fun i => attribute_edges (get_column i raw)) (kept_attributes raw)).
Proof.
  unfold mushroom_edges, kept_attributes.
  induction (seq 1 (ncols raw - 1)) as [|i l IH]; [reflexivity|].
  cbn [flat_map filter].
  destruct (existsb _ (np_unique (get_column i raw))) eqn:E; cbn [negb map concat].
  - now rewrite attribute_edges_dropped.
  - now rewrite IH.
Qed.

Lemma kept_attributes_spec (raw : matrix string) (i : nat) :
  In i (kept_attributes raw) <->
  1 <= i < ncols raw /\
  forall val, In val (get_column i raw) -> String.prefix "?" val = false.
Proof.
  unfold kept_attributes. rewrite filter_In, in_seq, negb_true_iff.
  rewrite <- not_true_iff_false, existsb_exists.
  split.
  - intros [Hi Hno]. split; [lia|]. intros val Hval.
    apply not_true_iff_false. intros Hp. apply Hno. exists val.
    split; [now apply np_unique_In | exact Hp].
  - intros [Hi Hno]. split; [lia|]. intros (val & Hval & Hp).
    apply (proj1 (np_unique_In _ _)) in Hval. rewrite (Hno val Hval) in Hp.
    discriminate.
Qed.

(** The hyperedges of a kept attribute are the classes of equal value in
    its column, and a node lies in the class of its own value only. *)
Lemma kept_attribute_classes (col : list string) :
  existsb (String.prefix "?") (np_unique col) = false ->
  (forall edge, In edge (attribute_edges col) ->
     exists val, In val col /\
       forall u, u < length col ->
         nth u edge false = String.eqb (nth u col EmptyString) val) /\
  (forall v, v < length col ->
     membership_count v (attribute_edges col) = 1 /\
     exists edge, In edge (attribute_edges col) /\
       forall u, u < length col ->
         nth u edge false =
         String.eqb (nth u col EmptyString) (nth v col EmptyString)).
Proof.
  intros E. split.
  - rewrite (attribute_edges_kept _ E). intros edge Hin.
    apply in_map_iff in Hin. destruct Hin as (val & <- & Hval).
    exists val. split; [now apply np_unique_In|].
    intros u Hu. now apply eqb_column_nth.
  - intros v Hv. split; [now rewrite attribute_membership, E|].
    rewrite (attribute_edges_kept _ E).
    exists (map (fun c => String.eqb c (nth v col EmptyString)) col). split.
    + apply in_map_iff. exists (nth v col EmptyString). split; [reflexivity|].
      apply np_unique_In, nth_In, Hv.
    + intros u Hu. now apply eqb_column_nth.
Qed.

(** X9. Every hyperedge of the Mushroom data spans all rows and has a
    member.  An attribute is kept when none of its values starts with [?];
    the hyperedges are those of the kept attributes, in their order; the
    hyperedges of attribute [i] are classes of rows with one value in column
    [i], and every row belongs to exactly one of them, the class of its own
    value. *)
Theorem mushroom_edges_partition (raw : matrix string) :
  (forall edge, In edge (mushroom_edges raw) ->
     length edge = nrows raw /\
     exists v, v < nrows raw /\ nth v edge false = true) /\
  (forall v, v < nrows raw ->
     membership_count v (mushroom_edges raw) = length (kept_attributes raw)) /\
  (forall i, In i (kept_attributes raw) <->
     1 <= i < ncols raw /\
     forall val, In val (get_column i raw) -> String.prefix "?" val = false) /\
  exists blocks,
    mushroom_edges raw = concat blocks /\
    Forall2
      (fun i block =>
         (forall edge, In edge block ->
            exists val, In val (get_column i raw) /\
              forall u, u < nrows raw ->
                nth u edge false = String.eqb (nth u (get_column i raw) EmptyString) val) /\
         (forall v, v < nrows raw ->
            membership_count v block = 1 /\
            exists edge, In edge block /\
              forall u, u < nrows raw ->
                nth u edge false =
                String.eqb (nth u (get_column i raw) EmptyString)
                           (nth v (get_column i raw) EmptyString)))
      (kept_attributes raw) blocks.
Proof.
  split; [apply mushroom_edges_shape|].
  split; [apply mushroom_edges_count|].
  split; [apply kept_attributes_spec|].
  exists (map (fun i => attribute_edges (get_column i raw)) (kept_attributes raw)).
  split; [apply mushroom_edges_blocks|].
  assert (Hkept : Forall (fun i => existsb (String.prefix "?")
                                     (np_unique (get_column i raw)) = false)
                    (kept_attributes raw)).
  { apply Forall_forall. intros i Hi. unfold kept_attributes in Hi.
    apply filter_In in Hi. now apply negb_true_iff. }
  induction Hkept as [|i l Hi _ IH]; cbn [map]; constructor; [|exact IH].
  pose proof (kept_attribute_classes _ Hi) as Hc.
  rewrite get_column_length in Hc. exact Hc.
Qed.

(** ** [MushroomDataset.process]: failures *)

Section MushroomFacts.
Context {A F : Type} {SA : Scalar A} {SF : Scalar F}.
Variable Stored : Type.
Variable collate : list (Data F) -> Stored.
Variable float_tensor : A -> F.

Lemma mushroom_edges_none (raw : matrix string) :
  kept_attributes raw = [] -> mushroom_edges raw = [].
Proof. intros E. now rewrite mushroom_edges_blocks, E. Qed.

(** X10. [MushroomDataset.process] raises [IndexError] on an empty or
    ragged file and when no attribute is kept; without [pre_transform] it
    always raises; a run either raises and leaves the disk as it was, or
    returns and adds one entry. *)
Theorem mushroom_process_failures (self : UCIHypergraphDataset F)
  (lines : list string) (fs : disk Stored) :
  (lines = [] ->
   MushroomDataset_process collate float_tensor self lines fs = (Raise "IndexError", fs)) /\
  (np_array_2d (map parse_line lines) = None ->
   MushroomDataset_process collate float_tensor self lines fs = (Raise "IndexError", fs)) /\
  (forall raw, np_array_2d (map parse_line lines) = Some raw ->
     kept_attributes raw = [] ->
     MushroomDataset_process collate float_tensor self lines fs = (Raise "IndexError", fs)) /\
  (pre_transform self = None ->
   exists e,
     MushroomDataset_process collate float_tensor self lines fs = (Raise e, fs) /\
     (e = "IndexError" \/ e = "TypeError")) /\
  (forall r fs',
     MushroomDataset_process collate float_tensor self lines fs = (r, fs') ->
     (exists e, r = Raise e /\ fs' = fs) \/
     (exists entry, r = Ok tt /\ fs' = entry :: fs)).
Proof.
  unfold MushroomDataset_process.
  split; [intros ->; reflexivity|].
  split; [intros ->; reflexivity|].
  split; [intros raw -> Hk; now rewrite (mushroom_edges_none _ Hk)|].
  destruct (np_array_2d (map parse_line lines)) as [raw|].
  2:{ split; [eauto | intros r fs' E; injection E as <- <-; left; eauto]. }
  cbv zeta.
  destruct (save_processed_disk collate float_tensor self
              (mushroom_incidence (nrows raw) (mushroom_edges raw))
              (mushroom_labels raw) fs)
    as [(path & M & _ & E & Hp & _)|(e & E & He & _)]; rewrite E.
  - split; [intros Hn; contradiction|].
    intros r fs' E'. injection E' as <- <-. right. eauto.
  - split.
    + intros _. exists e. split; [reflexivity | exact He].
    + intros r fs' E'. injection E' as <- <-. left. eauto.
Qed.

End MushroomFacts.

Unset Implicit Arguments.

(** ** The Mushroom data is a valid hypergraph *)

Section MushroomValid.
Local Open Scope R_scope.

Lemma Rsum_ge_term (n : nat) (f : nat -> R) (j : nat) :
  (forall i, (i < n)%nat -> 0 <= f i) -> (j < n)%nat -> f j <= sum_upto n f.
Proof.
  induction n as [|n IH]; intros Hf Hj; [lia|].
  rewrite Rsum_S.
  assert (Hn : 0 <= f n) by (apply Hf; lia).
  assert (Hs : 0 <= sum_upto n f) by (apply Rsum_nonneg; intros; apply Hf; lia).
  destruct (Nat.eq_dec j n) as [->|Hne]; [lra|].
  assert (f j <= sum_upto n f) by (apply IH; [intros; apply Hf|]; lia).
  lra.
Qed.

Lemma Rsum_indicator {A : Type} (p : A -> bool) (l : list A) (d : A) :
  sum_upto (length l) (fun i => if p (nth i l d) then 1 else 0) =
  INR (length (filter p l)).
Proof.
  induction l as [|a l IH] using rev_ind; [reflexivity|].
  rewrite length_app, Nat.add_comm. cbn [length plus]. rewrite Rsum_S.
  rewrite filter_app, length_app, plus_INR.
  rewrite app_nth2, Nat.sub_diag by lia. cbn [nth filter].
  rewrite <- IH. f_equal.
  - apply sum_upto_ext. intros i Hi. now rewrite app_nth1.
  - now destruct (p a).
Qed.

Lemma incidence_of_edges_entry (n : nat) (edges : list (list bool)) (v e : nat) :
  (v < n)%nat -> (e < length edges)%nat ->
  entry (incidence_of_edges n edges) v e =
  if nth v (nth e edges []) false then 1 else 0.
Proof.
  intros Hv He. unfold entry, incidence_of_edges. cbn [rows].
  rewrite nth_map_lt with (da := 0%nat) by (rewrite length_seq; exact Hv).
  rewrite seq_nth by exact Hv. cbn [plus].
  now rewrite nth_map_lt with (da := []).
Qed.

Lemma incidence_of_edges_wf (n : nat) (edges : list (list bool)) :
  wf_matrix (incidence_of_edges (A := R) n edges).
Proof.
  unfold wf_matrix, incidence_of_edges. cbn [rows ncols].
  apply Forall_map, Forall_forall. intros v _. apply length_map.
Qed.

Lemma incidence_of_edges_nrows (n : nat) (edges : list (list bool)) :
  nrows (incidence_of_edges (A := R) n edges) = n.
Proof. unfold nrows, incidence_of_edges. cbn [rows]. now rewrite length_map, length_seq. Qed.

(** The data object [save_processed] builds from a list of hyperedges. *)
Lemma edges_data_valid (n : nat) (edges : list (list bool)) (labels : list Z) (k : nat) :
  (0 < k)%nat ->
  (forall edge, In edge edges -> exists v, (v < n)%nat /\ nth v edge false = true) ->
  (forall v, (v < n)%nat -> membership_count v edges = k) ->
  let data := mkData (incidence_of_edges n edges) labels
                (Some (np_ones (length edges))) in
  valid_hypergraph data /\
  forall v, (v < n)%nat -> node_degree data v = INR k.
Proof.
  intros Hk Hne Hcount data.
  assert (Hdeg : forall v, (v < n)%nat -> node_degree data v = INR k).
  { intros v Hv. unfold node_degree. cbn [x data ncols incidence_of_edges].
    rewrite <- (Hcount v Hv). unfold membership_count.
    rewrite <- Rsum_indicator with (d := []).
    apply sum_upto_ext. intros e He.
    rewrite incidence_of_edges_entry by assumption.
    unfold weight_at. cbn [hyperedge_weight data].
    rewrite nth_np_ones by exact He. cbn. ring. }
  split; [|exact Hdeg].
  unfold valid_hypergraph. cbn [x data].
  rewrite incidence_of_edges_nrows. cbn [ncols incidence_of_edges].
  split; [|split; [|split; [|split]]].
  - split; [apply incidence_of_edges_wf|]. unfold weights_of. cbn.
    apply np_ones_length.
  - intros v e Hv He. rewrite incidence_of_edges_entry by assumption.
    destruct (nth v (nth e edges []) false); lra.
  - intros e He. unfold weight_at. cbn [hyperedge_weight data].
    rewrite nth_np_ones by exact He. cbn. lra.
  - intros v Hv. rewrite (Hdeg v Hv). apply lt_0_INR, Hk.
  - intros e He. unfold hyperedge_degree. cbn [x data].
    rewrite incidence_of_edges_nrows.
    destruct (Hne (nth e edges []) (nth_In _ _ He)) as (v0 & Hv0 & Hmem).
    apply Rlt_le_trans with (entry (incidence_of_edges n edges) v0 e).
    + rewrite incidence_of_edges_entry, Hmem by assumption. lra.
    + apply (Rsum_ge_term n (fun v => entry (incidence_of_edges n edges) v e));
        [|exact Hv0].
      intros v Hv. rewrite incidence_of_edges_entry by assumption.
      destruct (nth v (nth e edges []) false); lra.
Qed.

(** A conversion that keeps 0 and 1 keeps the incidence matrix. *)
Lemma incidence_of_edges_converted (float_tensor : R -> R) (n : nat)
  (edges : list (list bool)) :
  float_tensor 0 = 0 -> float_tensor 1 = 1 ->
  map_matrix float_tensor (incidence_of_edges n edges) = incidence_of_edges n edges.
Proof.
  intros H0 H1. unfold map_matrix, incidence_of_edges. cbn [rows ncols]. f_equal.
  rewrite map_map. apply map_ext. intros v. rewrite map_map. apply map_ext.
  intros edge. cbn. now destruct (nth v edge false).
Qed.

End MushroomValid.

Lemma np_array_2d_nonempty {A : Type} (raw : list (list A)) (M : matrix A) :
  np_array_2d raw = Some M -> 0 < nrows M.
Proof.
  unfold np_array_2d. destruct raw as [|first rest]; [discriminate|].
  destruct (forallb _ _); [|discriminate]. intros E. injection E as <-.
  unfold nrows. simpl. lia.
Qed.

(** X11. For a conversion to [float32] that keeps 0 and 1: what a run of
    [MushroomDataset.process] that returns has saved is a valid hypergraph
    over the reals with unit weights, in which every node has the number of
    kept attributes as its degree. *)
Theorem mushroom_saved_data_valid (Stored : Type) (collate : list (Data R) -> Stored)
  (float_tensor : R -> R)
  (self : UCIHypergraphDataset R) (lines : list string) (fs fs' : disk Stored) :
  float_tensor 0%R = 0%R -> float_tensor 1%R = 1%R ->
  MushroomDataset_process collate float_tensor self lines fs = (Ok tt, fs') ->
  exists raw path data,
    np_array_2d (map parse_line lines) = Some raw /\
    fs' = (path, collate [data]) :: fs /\
    x data = incidence_of_edges (nrows raw) (mushroom_edges raw) /\
    y data = mushroom_labels raw /\
    hyperedge_weight data = Some (np_ones (ncols (x data))) /\
    valid_hypergraph data /\
    forall v, v < nrows raw -> node_degree data v = INR (length (kept_attributes raw)).
Proof.
  intros H0 H1. unfold MushroomDataset_process.
  destruct (np_array_2d (map parse_line lines)) as [raw|] eqn:Eraw; [|discriminate].
  cbv zeta. unfold mushroom_incidence.
  destruct (mushroom_edges raw) as [|edge edges] eqn:Eedges; [discriminate|].
  intros Hrun.
  destruct (save_processed_disk collate float_tensor self
              (Array2 (incidence_of_edges (nrows raw) (edge :: edges)))
              (mushroom_labels raw) fs) as [(path & M & HM & E & _)|(e & E & _)];
    rewrite E in Hrun; [|discriminate].
  injection HM as <-. injection Hrun as <-.
  rewrite incidence_of_edges_converted by assumption.
  pose proof (@mushroom_edges_shape raw) as Hshape.
  pose proof (@mushroom_edges_count raw) as Hcount. rewrite Eedges in *.
  assert (Hk : 0 < length (kept_attributes raw)).
  { destruct (kept_attributes raw) eqn:Ek; [|simpl; lia].
    apply mushroom_edges_none in Ek. congruence. }
  destruct (edges_data_valid (nrows raw) (edge :: edges) (mushroom_labels raw)
              (length (kept_attributes raw)) Hk)
    as [Hvalid Hdeg].
  - intros ed Hin. destruct (Hshape ed Hin) as [_ H]. exact H.
  - exact Hcount.
  - exists raw, path,
      (mkData (incidence_of_edges (nrows raw) (edge :: edges)) (mushroom_labels raw)
         (Some (np_ones (length (edge :: edges))))).
    split; [reflexivity|]. split; [reflexivity|].
    split; [cbn [x]; now rewrite Eedges|].
    split; [reflexivity|]. split; [reflexivity|].
    split; [exact Hvalid | exact Hdeg].
Qed.

Lemma mushroom_saved_data_valid_witness :
  real_float32 0%R = 0%R /\ real_float32 1%R = 1%R /\
  MushroomDataset_process collate_real real_float32 dataset_real mushroom_sample [] =
    (Ok tt,
     [("processed/data.pt",
       collate_real
         [mkData (Matrix 2 [[1%R; 0%R]; [0%R; 1%R]; [1%R; 0%R]]) [1%Z; 0%Z; 1%Z]
            (Some [1%R; 1%R])])]) /\
  exists raw path data,
    np_array_2d (map parse_line mushroom_sample) = Some raw /\
    [("processed/data.pt",
      collate_real
        [mkData (Matrix 2 [[1%R; 0%R]; [0%R; 1%R]; [1%R; 0%R]]) [1%Z; 0%Z; 1%Z]
           (Some [1%R; 1%R])])] = (path, collate_real [data]) :: [] /\
    x data = incidence_of_edges (nrows raw) (mushroom_edges raw) /\
    y data = mushroom_labels raw /\
    hyperedge_weight data = Some (np_ones (ncols (x data))) /\
    valid_hypergraph data /\
    forall v, v < nrows raw -> node_degree data v = INR (length (kept_attributes raw)).
Proof.
  assert (Hrun : MushroomDataset_process collate_real real_float32 dataset_real
                   mushroom_sample [] =
    (Ok tt,
     [("processed/data.pt",
       collate_real
         [mkData (Matrix 2 [[1%R; 0%R]; [0%R; 1%R]; [1%R; 0%R]]) [1%Z; 0%Z; 1%Z]
            (Some [1%R; 1%R])])])) by reflexivity.
  split; [reflexivity|]. split; [reflexivity|]. split; [exact Hrun|].
  exact (mushroom_saved_data_valid (list (Data R)) collate_real real_float32 dataset_real
           mushroom_sample [] _ eq_refl eq_refl Hrun).
Defined.

(** ** Runs on concrete inputs *)

Lemma normalized_incidence_inverts_witness :
  valid_hypergraph data_full /\
  exists A,
    normalized_incidence data_full = Ok A /\
    forall v e, v < nrows (x data_full) -> e < ncols (x data_full) ->
      entry (x data_full) v e =
      (sqrt (node_degree data_full v) * entry A v e *
       sqrt (hyperedge_degree data_full e / weight_at data_full e))%R.
Proof.
  split; [exact data_full_valid|].
  exact (normalized_incidence_inverts data_full data_full_valid).
Defined.

Lemma normalized_incidence_unit_singular_value_witness :
  valid_hypergraph data_full /\
  0 < nrows (x data_full) /\
  exists A,
    normalized_incidence data_full = Ok A /\
    singular_triplet A (degree_direction data_full) 1
      (hyperedge_direction data_full).
Proof.
  assert (Hn : 0 < nrows (x data_full)) by (unfold nrows; simpl; lia).
  split; [exact data_full_valid|]. split; [exact Hn|].
  exact (normalized_incidence_unit_singular_value data_full data_full_valid Hn).
Defined.

Lemma orchestrator_forwards_spectrum_witness :
  normalized_incidence data_two_singletons =
    Ok (Matrix 2 [[1%float; 0%float]; [0%float; 1%float]]) /\
  snd (hypergraph_laplacian_decomposition float_to_binary32 diagonal_double
         (Matrix 2 [[1%float; 0%float]; [0%float; 1%float]])
         (requested_count pinv_rank_one) (eig_tol pinv_rank_one)) =
    Ok (zero_spectrum, identity_binary32) /\
  HypergraphPinv_call float_to_binary32 keep_spectrum diagonal_double
    pinv_rank_one data_two_singletons =
  ((CallDecomposition (Matrix 2 [[1%float; 0%float]; [0%float; 1%float]])
      (requested_count pinv_rank_one) (eig_tol pinv_rank_one) ::
    fst (hypergraph_laplacian_decomposition float_to_binary32 diagonal_double
           (Matrix 2 [[1%float; 0%float]; [0%float; 1%float]])
           (requested_count pinv_rank_one) (eig_tol pinv_rank_one))) ++
   [CallSetupSpectralData data_two_singletons zero_spectrum identity_binary32
      (eig_threshold pinv_rank_one) (rank pinv_rank_one)],
   keep_spectrum data_two_singletons zero_spectrum identity_binary32
     (eig_threshold pinv_rank_one) (rank pinv_rank_one))%list.
Proof.
  assert (Hn : normalized_incidence data_two_singletons =
               Ok (Matrix 2 [[1%float; 0%float]; [0%float; 1%float]]))
    by reflexivity.
  assert (Hd : snd (hypergraph_laplacian_decomposition float_to_binary32 diagonal_double
                      (Matrix 2 [[1%float; 0%float]; [0%float; 1%float]])
                      (requested_count pinv_rank_one) (eig_tol pinv_rank_one)) =
               Ok (zero_spectrum, identity_binary32)) by reflexivity.
  split; [exact Hn|]. split; [exact Hd|].
  exact (proj1 (@orchestrator_forwards_spectrum float binary32 float_scalar
                  binary32_scalar float_to_binary32 _ keep_spectrum diagonal_double
                  pinv_rank_one data_two_singletons _ Hn)
           zero_spectrum identity_binary32 Hd).
Defined.

Lemma saved_data_is_well_shaped_witness :
  pre_transform dataset_failing_transform =
    Some (fun _ : Data float => Raise "RuntimeError") /\
  processed_paths dataset_failing_transform = ["processed/data.pt"] /\
  wf_matrix inc_inexact /\
  exists data,
    save_processed collate_list float32_round dataset_failing_transform
      (Array2 inc_inexact) [0%Z; 1%Z] [] =
      (Ok tt, [("processed/data.pt", collate_list [data])]) /\
    x data = map_matrix float32_round inc_inexact /\
    nrows (x data) = nrows inc_inexact /\ ncols (x data) = ncols inc_inexact /\
    (forall v e (d : float), v < nrows inc_inexact -> e < ncols inc_inexact ->
       entry (x data) v e = float32_round (nth e (nth v (rows inc_inexact) []) d)) /\
    y data = [0%Z; 1%Z] /\
    well_shaped data /\
    (forall e, e < ncols inc_inexact -> weight_at data e = f_one) /\
    normalized_incidence data = Ok (code_matrix data).
Proof.
  assert (Hwf : wf_matrix inc_inexact).
  { repeat (constructor; [reflexivity|]). constructor. }
  split; [reflexivity|]. split; [reflexivity|]. split; [exact Hwf|].
  exact (@saved_data_is_well_shaped float float float_scalar _ collate_list float32_round
           dataset_failing_transform inc_inexact [0%Z; 1%Z] [] _ _ _
           eq_refl eq_refl Hwf).
Defined.

Lemma parse_line_concat_witness :
  ["e"; "x"; "s"] <> [] /\
  Forall (fun f => contains_comma f = false) ["e"; "x"; "s"] /\
  parse_line (String.concat "," ["e"; "x"; "s"] ++ newline) = ["e"; "x"; "s"].
Proof.
  assert (Hne : ["e"; "x"; "s"] <> []) by discriminate.
  assert (Hall : Forall (fun f => contains_comma f = false) ["e"; "x"; "s"]).
  { repeat (constructor; [reflexivity|]). constructor. }
  split; [exact Hne|]. split; [exact Hall|].
  exact (parse_line_concat (ascii_of_nat 10) Hne Hall).
Defined.

Set Implicit Arguments.

(** ** Class selection in [CovertypeDataset.process] *)

Lemma select_mask_filter {A : Type} (p : A -> bool) (l : list A) :
  select_mask (map p l) l = filter p l.
Proof.
  unfold select_mask. induction l as [|a l IH]; simpl; [reflexivity|].
  destruct (p a); simpl; now rewrite IH.
Qed.

Lemma select_mask_length {A : Type} (mask : list bool) (l : list A) :
  length mask = length l ->
  length (select_mask mask l) = length (filter (fun b : bool => b) mask).
Proof.
  unfold select_mask. revert l.
  induction mask as [|b mask IH]; intros [|a l] E; simpl in *; try discriminate; auto.
  destruct b; simpl; rewrite IH; auto.
Qed.

Lemma select_mask_zip_with {A : Type} (f : A -> A -> A) (mask : list bool) (l1 l2 : list A) :
  length l1 = length mask -> length l2 = length mask ->
  select_mask mask (zip_with f l1 l2) =
  zip_with f (select_mask mask l1) (select_mask mask l2).
Proof.
  unfold select_mask, zip_with. revert l1 l2.
  induction mask as [|b mask IH]; intros [|a1 l1] [|a2 l2] E1 E2;
    simpl in *; try discriminate; auto.
  destruct b; simpl; rewrite IH; auto.
Qed.

Lemma select_mask_repeat {A : Type} (mask : list bool) (a : A) :
  select_mask mask (repeat a (length mask)) =
  repeat a (length (filter (fun b : bool => b) mask)).
Proof.
  unfold select_mask. induction mask as [|b mask IH]; simpl; [reflexivity|].
  destruct b; simpl; now rewrite IH.
Qed.

Lemma select_mask_In {A : Type} (mask : list bool) (l : list A) (a : A) :
  In a (select_mask mask l) -> In a l.
Proof.
  unfold select_mask. intros H. apply in_map_iff in H.
  destruct H as ([b a'] & <- & H). apply filter_In in H. destruct H as [H _].
  now apply in_combine_r in H.
Qed.

Lemma zip_with_add_length (l1 l2 : list Z) (n : nat) :
  length l1 = n -> length l2 = n -> length (zip_with add64 l1 l2) = n.
Proof. intros E1 E2. rewrite zip_with_length, E1, E2. apply Nat.min_id. Qed.

Lemma fold_sums_length (rows : list (list Z)) (acc : list Z) (n : nat) :
  Forall (fun r => length r = n) rows -> length acc = n ->
  length (fold_left (zip_with add64) rows acc) = n.
Proof.
  revert acc. induction rows as [|r rows IH]; intros acc Hr Hacc; simpl; [exact Hacc|].
  inversion Hr; subst. apply IH; [assumption|].
  now apply zip_with_add_length.
Qed.

(** Dropping columns commutes with adding up the rows. *)
Lemma fold_sums_select (mask : list bool) (rows : list (list Z)) (acc : list Z) :
  Forall (fun r => length r = length mask) rows -> length acc = length mask ->
  fold_left (zip_with add64) (map (select_mask mask) rows) (select_mask mask acc) =
  select_mask mask (fold_left (zip_with add64) rows acc).
Proof.
  revert acc. induction rows as [|r rows IH]; intros acc Hr Hacc; simpl; [reflexivity|].
  inversion Hr; subst.
  rewrite <- select_mask_zip_with by congruence.
  apply IH; [assumption|]. now apply zip_with_add_length.
Qed.

Lemma outcome_map_Ok {A B : Type} (f : A -> outcome B) (l : list A) :
  (forall a, In a l -> exists b, f a = Ok b) ->
  exists bs, outcome_map f l = Ok bs /\ Forall2 (fun a b => f a = Ok b) l bs.
Proof.
  induction l as [|a l IH]; intros H; simpl.
  - exists []. split; [reflexivity | constructor].
  - destruct (H a (or_introl eq_refl)) as (b & Eb).
    destruct IH as (bs & Ebs & Hall); [intros; apply H; now right|].
    exists (b :: bs). rewrite Eb, Ebs. split; [reflexivity|]. now constructor.
Qed.

Lemma class_map_rev (classes : list Z) :
  class_map classes =
  rev (map (fun p => (snd p, fst p))
         (combine (map Z.of_nat (seq 0 (length classes))) classes)).
Proof.
  unfold class_map.
  assert (H : forall (l : list (Z * Z)) acc,
    fold_left (fun m p => (snd p, fst p) :: m) l acc =
    (rev (map (fun p => (snd p, fst p)) l) ++ acc)%list).
  { induction l as [|p l IH]; intros acc; simpl; [reflexivity|].
    rewrite IH, <- app_assoc. reflexivity. }
  rewrite H. apply app_nil_r.
Qed.

Lemma class_map_In (classes : list Z) (c i : Z) :
  In (c, i) (class_map classes) <->
  exists j, i = Z.of_nat j /\ j < length classes /\ nth j classes 0%Z = c.
Proof.
  rewrite class_map_rev, <- in_rev, in_map_iff. split.
  - intros ([i' c'] & E & Hin). simpl in E. injection E as <- <-.
    destruct (In_nth _ _ (0%Z, 0%Z) Hin) as (j & Hj & Ej).
    rewrite length_combine, length_map, length_seq, Nat.min_id in Hj.
    rewrite combine_nth in Ej by now rewrite length_map, length_seq.
    injection Ej as Ei Ec. exists j. split; [|split]; auto.
    rewrite <- Ei. rewrite nth_map_lt with (da := 0) by now rewrite length_seq.
    now rewrite seq_nth.
  - intros (j & -> & Hj & <-). exists (Z.of_nat j, nth j classes 0%Z).
    split; [reflexivity|].
    assert (E : (Z.of_nat j, nth j classes 0%Z) =
                nth j (combine (map Z.of_nat (seq 0 (length classes))) classes)
                  (Z.of_nat 0, 0%Z)).
    { rewrite combine_nth by now rewrite length_map, length_seq.
      f_equal. rewrite nth_map_lt with (da := 0) by now rewrite length_seq.
      now rewrite seq_nth. }
    rewrite E. apply nth_In.
    now rewrite length_combine, length_map, length_seq, Nat.min_id.
Qed.

Lemma dict_get_In (m : list (Z * Z)) (key v : Z) :
  dict_get m key = Ok v -> In (key, v) m.
Proof.
  induction m as [|[k w] m IH]; simpl; [discriminate|].
  destruct (Z.eqb_spec k key) as [->|Hne].
  - intros E. injection E as ->. now left.
  - intros E. right. auto.
Qed.

Lemma dict_get_found (m : list (Z * Z)) (key v : Z) :
  In (key, v) m -> exists w, dict_get m key = Ok w.
Proof.
  induction m as [|[k w] m IH]; simpl; [contradiction|].
  intros [E|Hin].
  - injection E as -> ->. rewrite Z.eqb_refl. eauto.
  - destruct (k =? key)%Z; eauto.
Qed.

(** A label that is one of the classes is mapped to a position of that
    class. *)
Lemma class_lookup (classes : list Z) (l : Z) :
  existsb (Z.eqb l) classes = true ->
  exists p, dict_get (class_map classes) l = Ok p.
Proof.
  intros H. apply existsb_exists in H. destruct H as (c & Hin & E).
  apply Z.eqb_eq in E. subst c.
  destruct (In_nth _ _ 0%Z Hin) as (j & Hj & Ej).
  apply dict_get_found with (v := Z.of_nat j), class_map_In. eauto.
Qed.

Lemma class_lookup_position (classes : list Z) (l p : Z) :
  dict_get (class_map classes) l = Ok p ->
  (0 <= p < Z.of_nat (length classes))%Z /\ nth (Z.to_nat p) classes 0%Z = l.
Proof.
  intros H. apply dict_get_In, class_map_In in H.
  destruct H as (j & -> & Hj & E). rewrite Nat2Z.id. split; [lia | exact E].
Qed.

Lemma select_classes_rows (classes : list Z) (incidence : matrix Z) (labels : list Z) :
  wf_matrix incidence ->
  length labels = nrows incidence ->
  exists incidence' labels',
    select_classes classes incidence labels = Ok (incidence', labels') /\
    nrows incidence' = length labels' /\
    Forall2 (fun l p => (0 <= p < Z.of_nat (length classes))%Z /\
                        nth (Z.to_nat p) classes 0%Z = l)
      (filter (fun l => existsb (Z.eqb l) classes) labels) labels' /\
    wf_matrix incidence' /\
    Forall (fun s => (0 < s)%Z) (column_sums incidence').
Proof.
  intros Hwf Hlen. unfold select_classes.
  rewrite select_mask_filter.
  set (keep := fun l => existsb (Z.eqb l) classes).
  destruct (outcome_map_Ok (dict_get (class_map classes)) (filter keep labels))
    as (labels' & E & Hall).
  { intros l Hl. apply filter_In in Hl. apply class_lookup, Hl. }
  rewrite E. cbn [obind].
  set (rows1 := select_mask (map keep labels) (rows incidence)).
  set (M1 := Matrix (ncols incidence) rows1).
  set (mask := map (fun s => (0 <? s)%Z) (column_sums M1)).
  assert (Hrows1 : Forall (fun r => length r = ncols incidence) rows1).
  { apply Forall_forall. intros r Hr. apply select_mask_In in Hr.
    unfold wf_matrix in Hwf. rewrite Forall_forall in Hwf. auto. }
  assert (Hsums : length (column_sums M1) = ncols incidence).
  { unfold column_sums. cbn [rows ncols M1].
    apply fold_sums_length; [exact Hrows1 | apply repeat_length]. }
  assert (Hmask : length mask = ncols incidence).
  { unfold mask. now rewrite length_map. }
  eexists. eexists. split; [reflexivity|]. split; [|split; [|split]].
  - unfold nrows. cbn [rows]. rewrite length_map. unfold M1, rows1. cbn [rows].
    rewrite select_mask_length by (rewrite length_map; exact Hlen).
    rewrite <- (Forall2_length Hall).
    clear. induction labels as [|l labels IH]; simpl; [reflexivity|].
    destruct (keep l); simpl; now rewrite IH.
  - eapply Forall2_impl; [|exact Hall].
    intros l p Hp. now apply class_lookup_position.
  - unfold wf_matrix. cbn [rows ncols]. apply Forall_map.
    eapply Forall_impl; [|exact Hrows1]. intros r Hr. cbn beta.
    apply select_mask_length. congruence.
  - unfold column_sums at 1. cbn [rows ncols].
    rewrite <- select_mask_repeat, Hmask.
    rewrite fold_sums_select.
    + fold (column_sums M1). unfold mask. rewrite select_mask_filter.
      apply Forall_forall. intros s Hs. apply filter_In in Hs.
      now apply Z.ltb_lt.
    + eapply Forall_impl; [|exact Hrows1]. intros r Hr. cbn beta. congruence.
    + rewrite repeat_length. congruence.
Qed.

Lemma select_mask_map {A B : Type} (p : A -> bool) (l1 : list A) (l2 : list B) :
  select_mask (map p l1) l2 = map snd (filter (fun q => p (fst q)) (combine l1 l2)).
Proof.
  unfold select_mask. revert l2. induction l1 as [|a l1 IH]; intros [|b l2]; simpl; auto.
  destruct (p a); simpl; now rewrite IH.
Qed.

(** Entry [j] of the sums is the [int64] sum of column [j]. *)
Lemma fold_sums_nth (rows : list (list Z)) (acc : list Z) (n j : nat) :
  Forall (fun r => length r = n) rows -> length acc = n -> j < n ->
  nth j (fold_left (zip_with add64) rows acc) 0%Z =
  fold_left add64 (map (fun r => nth j r 0%Z) rows) (nth j acc 0%Z).
Proof.
  revert acc. induction rows as [|r rows IH]; intros acc Hr Hacc Hj; [reflexivity|].
  inversion Hr; subst. cbn [fold_left map].
  rewrite IH by (auto using zip_with_add_length). f_equal.
  unfold zip_with. rewrite nth_map_lt with (da := (0%Z, 0%Z))
    by (rewrite length_combine; lia).
  now rewrite combine_nth by lia.
Qed.

Lemma nth_repeat_zero (n j : nat) : nth j (repeat 0%Z n) 0%Z = 0%Z.
Proof. revert j. induction n as [|n IH]; intros [|j]; simpl; auto. Qed.

(** X12. The class selection never raises.  It keeps, in their order, the
    rows whose label is in [classes], and maps each kept label to a
    position of that label in [classes]; it adds up every column over the
    kept rows in [int64], and keeps of every kept row the entries of the
    columns whose sum is positive. *)
Theorem select_classes_spec (classes : list Z) (incidence : matrix Z) (labels : list Z) :
  wf_matrix incidence ->
  length labels = nrows incidence ->
  exists incidence' labels',
    select_classes classes incidence labels = Ok (incidence', labels') /\
    nrows incidence' = length labels' /\
    Forall2 (fun l p => (0 <= p < Z.of_nat (length classes))%Z /\
                        nth (Z.to_nat p) classes 0%Z = l)
      (filter (fun l => existsb (Z.eqb l) classes) labels) labels' /\
    wf_matrix incidence' /\
    Forall (fun s => (0 < s)%Z) (column_sums incidence') /\
    exists kept_rows sums,
      kept_rows =
        map snd (filter (fun q => existsb (Z.eqb (fst q)) classes)
                   (combine labels (rows incidence))) /\
      length sums = ncols incidence /\
      (forall j, j < ncols incidence ->
         nth j sums 0%Z =
         fold_left add64 (map (fun r => nth j r 0%Z) kept_rows) 0%Z) /\
      rows incidence' =
        map (fun r => map snd (filter (fun q => (0 <? fst q)%Z) (combine sums r)))
          kept_rows /\
      ncols incidence' = length (filter (fun s => (0 <? s)%Z) sums).
Proof.
  intros Hwf Hlen.
  destruct (@select_classes_rows classes _ _ Hwf Hlen)
    as (inc' & labels' & E & Hn & Hall & Hwf' & Hsums).
  exists inc', labels'. repeat (split; [assumption|]).
  unfold select_classes in E.
  destruct (outcome_map _ _) as [ls|e]; [|discriminate]. cbn [obind] in E.
  injection E as <- _.
  rewrite select_mask_map.
  set (kept_rows := map snd (filter (fun q => existsb (Z.eqb (fst q)) classes)
                               (combine labels (rows incidence)))).
  assert (Hrows : Forall (fun r => length r = ncols incidence) kept_rows).
  { apply Forall_forall. intros r Hr. apply in_map_iff in Hr.
    destruct Hr as ([l r'] & <- & Hr). apply filter_In in Hr. destruct Hr as [Hr _].
    apply in_combine_r in Hr. unfold wf_matrix in Hwf. rewrite Forall_forall in Hwf.
    now apply Hwf. }
  exists kept_rows, (column_sums (Matrix (ncols incidence) kept_rows)).
  split; [reflexivity|]. unfold column_sums. cbn [rows ncols].
  split; [apply fold_sums_length; [exact Hrows | apply repeat_length]|].
  split; [|split].
  - intros j Hj.
    rewrite fold_sums_nth with (n := ncols incidence)
      by (auto using repeat_length).
    now rewrite nth_repeat_zero.
  - apply map_ext. intros r. apply select_mask_map.
  - exact (filter_map_length (fun b : bool => b) (fun s => (0 <? s)%Z) _).
Qed.

(** ** The bins of [CovertypeDataset.process] *)

Lemma wrap64_small (z : Z) : (- 2 ^ 63 <= z < 2 ^ 63)%Z -> wrap64 z = z.
Proof. intros H. unfold wrap64. rewrite Z.mod_small; lia. Qed.

Lemma SFcompare_antisym (a b : spec_float) (c : comparison) :
  SFcompare a b = Some c -> SFcompare b a = Some (CompOpp c).
Proof.
  destruct a as [sa|sa| |sa ma ea], b as [sb|sb| |sb mb eb]; simpl;
    try discriminate;
    try (intros E; injection E as <-);
    try (destruct sa; reflexivity);
    try (destruct sb; reflexivity);
    try (destruct sa, sb; reflexivity).
  destruct sa, sb; try reflexivity;
    rewrite (Z.compare_antisym ea eb);
    destruct (ea ?= eb)%Z; simpl; try reflexivity;
    change (Pos.compare_cont Eq mb ma) with (Pos.compare mb ma);
    change (Pos.compare_cont Eq ma mb) with (Pos.compare ma mb);
    rewrite (Pos.compare_antisym ma mb);
    destruct (ma ?= mb)%positive; reflexivity.
Qed.

Lemma is_number_compare (a b : float) :
  is_number a = true -> is_number b = true ->
  exists c, SFcompare (Prim2SF a) (Prim2SF b) = Some c.
Proof.
  unfold is_number. rewrite !FloatAxioms.eqb_spec. unfold SFeqb.
  destruct (Prim2SF a) as [sa|sa| |sa ma ea], (Prim2SF b) as [sb|sb| |sb mb eb]; simpl;
    try discriminate; intros _ _; eexists; reflexivity.
Qed.

(** Two binary64 numbers compare one way or the other. *)
Lemma float_leb_ltb (a b : float) :
  is_number a = true -> is_number b = true ->
  PrimFloat.leb a b = negb (PrimFloat.ltb b a).
Proof.
  intros Ha Hb. rewrite FloatAxioms.leb_spec, FloatAxioms.ltb_spec. unfold SFleb, SFltb.
  destruct (is_number_compare Ha Hb) as [c E].
  rewrite E, (SFcompare_antisym _ _ E). now destruct c.
Qed.

Lemma fold_min_le (l : list Z) (a : Z) :
  (fold_left Z.min l a <= a)%Z /\ forall c, In c l -> (fold_left Z.min l a <= c)%Z.
Proof.
  revert a. induction l as [|x l IH]; intros a; simpl.
  - split; [lia | contradiction].
  - destruct (IH (Z.min a x)) as [H1 H2]. split; [lia|].
    intros c [<-|Hc]; [lia | auto].
Qed.

Lemma fold_max_ge (l : list Z) (a : Z) :
  (a <= fold_left Z.max l a)%Z /\ forall c, In c l -> (c <= fold_left Z.max l a)%Z.
Proof.
  revert a. induction l as [|x l IH]; intros a; simpl.
  - split; [lia | contradiction].
  - destruct (IH (Z.max a x)) as [H1 H2]. split; [lia|].
    intros c [<-|Hc]; [lia | auto].
Qed.

Lemma column_min_max (col : list Z) (c : Z) :
  In c col -> (column_min col <= c <= column_max col)%Z.
Proof.
  destruct col as [|x l]; [contradiction|]. unfold column_min, column_max.
  destruct (fold_min_le l x) as [H1 H2], (fold_max_ge l x) as [H3 H4].
  intros [<-|Hc]; [lia|]. split; auto.
Qed.

Lemma fold_max_In (l : list Z) (a : Z) : In (fold_left Z.max l a) (a :: l).
Proof.
  revert a. induction l as [|y l IH]; intros a; [now left|].
  cbn [fold_left]. destruct (IH (Z.max a y)) as [E|Hin].
  - rewrite <- E. destruct (Z.max_spec a y) as [[_ ->]|[_ ->]]; simpl; auto.
  - simpl. auto.
Qed.

Lemma column_max_In (col : list Z) : col <> [] -> In (column_max col) col.
Proof. destruct col as [|x l]; [congruence|]. intros _. apply fold_max_In. Qed.

Lemma bins_loop_shape (col : list Z) (lo hi nb : Z) (indices : list Z) (b : bound) :
  length (bins_loop col lo hi nb indices b) = length indices /\
  forall edge, In edge (bins_loop col lo hi nb indices b) -> length edge = length col.
Proof.
  revert b. induction indices as [|i rest IH]; intros b; simpl.
  - split; [reflexivity | contradiction].
  - destruct (IH (bin_upper lo hi nb i)) as [H1 H2]. split; [now rewrite H1|].
    intros edge [<-|Hin]; [apply length_map | auto].
Qed.

Section Bins.
Variables (col : list Z) (lo hi nb c : Z) (v : nat).
Hypothesis Hv : v < length col.
Hypothesis Hc : nth v col 0%Z = c.
Hypothesis Hlast : lt_bound c (bin_upper lo hi nb (nb - 1)) = true.
Hypothesis Htotal : forall i, (0 <= i < nb)%Z ->
  ge_bound c (bin_upper lo hi nb i) = negb (lt_bound c (bin_upper lo hi nb i)).

Lemma bin_membership (a b : bound) :
  nth v (map (fun c => ge_bound c a && lt_bound c b) col) false =
  ge_bound c a && lt_bound c b.
Proof. rewrite nth_map_lt with (da := 0%Z) by exact Hv. now rewrite Hc. Qed.

(** From a lower bound that holds, the rest of the loop reaches a bin
    with the entry in it. *)
Lemma bins_loop_cover (k s : nat) (b : bound) :
  0 < k -> s + k = Z.to_nat nb -> ge_bound c b = true ->
  existsb (fun edge => nth v edge false)
    (bins_loop col lo hi nb (map Z.of_nat (seq s k)) b) = true.
Proof.
  revert s b. induction k as [|k IH]; intros s b Hk Hs Hb; [lia|].
  cbn [seq map bins_loop existsb]. rewrite bin_membership, Hb. cbn [andb].
  destruct (lt_bound c (bin_upper lo hi nb (Z.of_nat s))) eqn:E; [reflexivity|].
  cbn [orb]. destruct k as [|k].
  - replace (Z.of_nat s) with (nb - 1)%Z in E by lia. congruence.
  - apply IH; [lia | lia |]. rewrite Htotal by lia. now rewrite E.
Qed.

End Bins.

Lemma int_column_length (attr : nat) (raw : matrix Z) :
  length (int_column attr raw) = nrows raw.
Proof. apply length_map. Qed.

Lemma attribute_bins_cover (col : list Z) (nb : Z) (v : nat) :
  (1 <= nb)%Z -> v < length col ->
  Forall (fun c => (- 2 ^ 63 <= c < 2 ^ 63 - 1)%Z) col ->
  numbers_only col nb = true ->
  existsb (fun edge => nth v edge false) (attribute_bins col nb) = true.
Proof.
  intros Hnb Hv Hcol Hnum. unfold attribute_bins, py_range.
  assert (Hin : In (nth v col 0%Z) col) by now apply nth_In.
  pose proof (column_min_max col _ Hin) as Hrange.
  unfold numbers_only in Hnum. apply andb_true_iff in Hnum. destruct Hnum as [Hn1 Hn2].
  rewrite forallb_forall in Hn1, Hn2.
  apply (@bins_loop_cover col (column_min col) (column_max col) nb (nth v col 0%Z) v Hv eq_refl).
  - unfold bin_upper. rewrite Z.eqb_refl. cbn [lt_bound].
    assert (Hmax : (- 2 ^ 63 <= column_max col < 2 ^ 63 - 1)%Z).
    { rewrite Forall_forall in Hcol. apply Hcol.
      apply column_max_In. intros ->. contradiction. }
    rewrite wrap64_small by lia. apply Z.ltb_lt. lia.
  - intros i Hi.
    assert (Hi' : In i (py_range nb)).
    { unfold py_range. apply in_map_iff. exists (Z.to_nat i). split; [lia|].
      apply in_seq. lia. }
    specialize (Hn2 i Hi').
    destruct (bin_upper (column_min col) (column_max col) nb i) as [z|f]; cbn [ge_bound lt_bound].
    + apply Z.leb_antisym.
    + apply float_leb_ltb; [exact Hn2 | apply Hn1, Hin].
  - lia.
  - simpl. lia.
  - cbn [ge_bound]. apply Z.leb_le. lia.
Qed.

Lemma flat_map_nth_uniform {A B : Type} (f : A -> list B) (n : nat) (l : list A)
  (a i : nat) (da : A) (d : B) :
  (forall x, length (f x) = n) -> a < length l -> i < n ->
  nth (a * n + i) (flat_map f l) d = nth i (f (nth a l da)) d.
Proof.
  intros Hf. revert a. induction l as [|x l IH]; intros a Ha Hi; [simpl in Ha; lia|].
  cbn [flat_map]. destruct a as [|a].
  - cbn [Nat.mul Nat.add nth]. apply app_nth1. now rewrite Hf.
  - rewrite app_nth2 by (rewrite Hf; simpl; lia).
    rewrite Hf. replace (S a * n + i - n) with (a * n + i) by (simpl; lia).
    cbn [nth]. apply IH; [simpl in Ha; lia | exact Hi].
Qed.

(** X13. With at least one bin, ten continuous attributes whose entries
    are below the largest [int64], and no NaN among the entries and bounds
    as binary64 numbers, [inc_list] has [num_bins] bins per attribute, each
    over all rows, and every row lies in a bin of every attribute. *)
Theorem covertype_bins_cover (raw : matrix Z) (nb : Z) :
  wf_matrix raw -> 10 <= ncols raw -> (1 <= nb)%Z ->
  (forall attr, attr < 10 ->
     Forall (fun c => (- 2 ^ 63 <= c < 2 ^ 63 - 1)%Z) (int_column attr raw) /\
     numbers_only (int_column attr raw) nb = true) ->
  length (covertype_bins raw nb) = 10 * Z.to_nat nb /\
  (forall edge, In edge (covertype_bins raw nb) -> length edge = nrows raw) /\
  (forall attr v, attr < 10 -> v < nrows raw ->
     exists i, i < Z.to_nat nb /\
       nth v (nth (attr * Z.to_nat nb + i) (covertype_bins raw nb) []) false = true).
Proof.
  intros _ _ Hnb Hcols. unfold covertype_bins.
  assert (Hlen : forall attr, length (attribute_bins (int_column attr raw) nb) = Z.to_nat nb).
  { intros attr. unfold attribute_bins.
    rewrite (proj1 (bins_loop_shape _ _ _ _ _ _)). unfold py_range.
    now rewrite length_map, length_seq. }
  split; [|split].
  - assert (H : forall l, length
                (flat_map (fun attr => attribute_bins (int_column attr raw) nb) l) =
              length l * Z.to_nat nb).
    { induction l as [|a l IH]; simpl; [reflexivity|].
      rewrite length_app, Hlen, IH. lia. }
    rewrite H. reflexivity.
  - intros edge Hin. apply in_flat_map in Hin. destruct Hin as (attr & _ & Hin).
    unfold attribute_bins in Hin.
    rewrite (proj2 (bins_loop_shape _ _ _ _ _ _) _ Hin). apply int_column_length.
  - intros attr v Hattr Hv.
    destruct (Hcols attr Hattr) as [H1 H2].
    assert (Hex : existsb (fun edge => nth v edge false)
                    (attribute_bins (int_column attr raw) nb) = true).
    { apply attribute_bins_cover; auto. now rewrite int_column_length. }
    apply existsb_exists in Hex. destruct Hex as (edge & Hin & Hedge).
    destruct (In_nth _ _ [] Hin) as (i & Hi & Hnth).
    exists i. rewrite Hlen in Hi. split; [exact Hi|].
    rewrite flat_map_nth_uniform with (da := 0) by (auto; rewrite length_seq; exact Hattr).
    rewrite seq_nth by exact Hattr. cbn [Nat.add]. now rewrite Hnth.
Qed.

(** ** [CovertypeDataset.process]: failures and what is saved *)

Section CovertypeFacts.
Context {F : Type} {SF : Scalar F}.
Variable Stored : Type.
Variable collate : list (Data F) -> Stored.
Variable py_int : string -> outcome Z.
Variable float_of_int : Z -> F.

Lemma covertype_bins_none (raw : matrix Z) (nb : Z) :
  (nb <= 0)%Z -> covertype_bins raw nb = [].
Proof.
  intros Hnb. unfold covertype_bins, attribute_bins, py_range.
  replace (Z.to_nat nb) with 0 by lia. reflexivity.
Qed.

Lemma np_array_2d_wf {A : Type} (raw : list (list A)) (M : matrix A) :
  np_array_2d raw = Some M -> wf_matrix M /\ rows M = raw.
Proof.
  unfold np_array_2d. destruct raw as [|first rest]; [discriminate|].
  destruct (forallb _ _) eqn:E; [|discriminate]. intros H. injection H as <-.
  split; [|reflexivity]. unfold wf_matrix. cbn [rows ncols].
  apply Forall_forall. intros r Hr. rewrite forallb_forall in E.
  apply Nat.eqb_eq. now apply E.
Qed.

Lemma covertype_incidence_wf (raw : matrix Z) (inc_list : list (list bool)) :
  wf_matrix raw -> 10 <= ncols raw ->
  wf_matrix (covertype_incidence raw inc_list) /\
  nrows (covertype_incidence raw inc_list) = nrows raw.
Proof.
  intros Hwf Hc. unfold covertype_incidence, wf_matrix, nrows. cbn [rows ncols].
  split; [|now rewrite length_map, length_seq].
  apply Forall_forall. intros r Hr. apply in_map_iff in Hr.
  destruct Hr as (v & <- & Hv). apply in_seq in Hv.
  rewrite length_app, length_map, length_skipn.
  unfold wf_matrix in Hwf. rewrite Forall_forall in Hwf.
  rewrite (Hwf (nth v (rows raw) [])); [reflexivity|].
  apply nth_In. unfold nrows in Hv. lia.
Qed.

Lemma outcome_map_length {A B : Type} (f : A -> outcome B) (l : list A) (bs : list B) :
  outcome_map f l = Ok bs -> length bs = length l.
Proof.
  revert bs. induction l as [|a l IH]; intros bs; simpl.
  - intros E. now injection E as <-.
  - destruct (f a) as [b|e]; [|discriminate]. cbn [obind].
    destruct (outcome_map f l) as [bs'|e]; [|discriminate]. cbn [obind].
    intros E. injection E as <-. simpl. now rewrite (IH bs' eq_refl).
Qed.

(** X14. [CovertypeDataset.process] passes on what [int] raises, raises
    [IndexError] on an empty or ragged file or one with fewer than ten
    attributes, and [ValueError] when [num_bins] is not positive; without
    [pre_transform] it always raises; a run that raises leaves the disk as
    it was, and one that returns adds one entry. *)
Theorem covertype_process_failures (self : CovertypeDataset F)
  (lines : list string) (fs : disk Stored) :
  (forall e, outcome_map (parse_covertype_line py_int) lines = Raise e ->
     CovertypeDataset_process collate py_int float_of_int self lines fs = (Raise e, fs)) /\
  (forall parsed, outcome_map (parse_covertype_line py_int) lines = Ok parsed ->
     (np_array_2d (map fst parsed) = None ->
      CovertypeDataset_process collate py_int float_of_int self lines fs =
        (Raise "IndexError", fs)) /\
     (forall raw, np_array_2d (map fst parsed) = Some raw ->
        (ncols raw < 10 ->
         CovertypeDataset_process collate py_int float_of_int self lines fs =
           (Raise "IndexError", fs)) /\
        (10 <= ncols raw -> (num_bins self <= 0)%Z ->
         CovertypeDataset_process collate py_int float_of_int self lines fs =
           (Raise "ValueError", fs)))) /\
  (pre_transform (base self) = None ->
   exists e, CovertypeDataset_process collate py_int float_of_int self lines fs =
               (Raise e, fs)) /\
  (forall r fs', CovertypeDataset_process collate py_int float_of_int self lines fs = (r, fs') ->
     (exists e, r = Raise e /\ fs' = fs) \/ (exists entry, r = Ok tt /\ fs' = entry :: fs)).
Proof.
  unfold CovertypeDataset_process.
  split; [|split; [|split]].
  - intros e ->. reflexivity.
  - intros parsed ->. split; [intros ->; reflexivity|].
    intros raw ->. split.
    + intros Hc. apply Nat.ltb_lt in Hc. now rewrite Hc.
    + intros Hc Hnb. apply Nat.ltb_ge in Hc. rewrite Hc.
      now rewrite covertype_bins_none.
  - intros Hpre.
    destruct (outcome_map _ lines) as [parsed|e]; [|eexists; reflexivity].
    destruct (np_array_2d _) as [raw|]; [|eexists; reflexivity].
    destruct (ncols raw <? 10)%nat; [eexists; reflexivity|].
    destruct (covertype_bins raw (num_bins self)) as [|edge edges];
      [eexists; reflexivity|].
    destruct (classes self) as [cs|].
    + destruct (select_classes _ _ _) as [[inc' labels']|e]; [|eexists; reflexivity].
      destruct (save_processed_disk collate float_of_int (base self) (Array2 inc')
                  labels' fs) as [(path & M & _ & _ & Hp & _)|(e & E & _)];
        [contradiction | eexists; exact E].
    + destruct (save_processed_disk collate float_of_int (base self)
                  (Array2 (covertype_incidence raw (edge :: edges)))
                  (map snd parsed) fs) as [(path & M & _ & _ & Hp & _)|(e & E & _)];
        [contradiction | eexists; exact E].
  - intros r fs'.
    destruct (outcome_map _ lines) as [parsed|e];
      [|intros E; injection E as <- <-; left; eexists; split; reflexivity].
    destruct (np_array_2d _) as [raw|];
      [|intros E; injection E as <- <-; left; eexists; split; reflexivity].
    destruct (ncols raw <? 10)%nat;
      [intros E; injection E as <- <-; left; eexists; split; reflexivity|].
    destruct (covertype_bins raw (num_bins self)) as [|edge edges];
      [intros E; injection E as <- <-; left; eexists; split; reflexivity|].
    destruct (classes self) as [cs|].
    + destruct (select_classes _ _ _) as [[inc' labels']|e];
        [|intros E; injection E as <- <-; left; eexists; split; reflexivity].
      destruct (save_processed_disk collate float_of_int (base self) (Array2 inc')
                  labels' fs) as [(path & M & _ & E & _)|(e & E & _)];
        rewrite E; intros E'; injection E' as <- <-;
        [right | left]; eexists; split; reflexivity.
    + destruct (save_processed_disk collate float_of_int (base self)
                  (Array2 (covertype_incidence raw (edge :: edges)))
                  (map snd parsed) fs) as [(path & M & _ & E & _)|(e & E & _)];
        rewrite E; intros E'; injection E' as <- <-;
        [right | left]; eexists; split; reflexivity.
Qed.

(** X15. A run with [classes] that returns has saved one label per row,
    for no more rows than the file has lines, each label a position in
    [classes], and an incidence matrix in which every column has a
    positive sum. *)
Theorem covertype_saves_selected_classes (self : CovertypeDataset F)
  (lines : list string) (fs fs' : disk Stored) (cs : list Z) :
  classes self = Some cs ->
  CovertypeDataset_process collate py_int float_of_int self lines fs = (Ok tt, fs') ->
  exists path incidence labels,
    fs' = (path, collate [mkData (map_matrix float_of_int incidence) labels
                            (Some (np_ones (ncols incidence)))]) :: fs /\
    wf_matrix incidence /\
    nrows incidence = length labels /\
    length labels <= length lines /\
    Forall (fun p => (0 <= p < Z.of_nat (length cs))%Z) labels /\
    Forall (fun s => (0 < s)%Z) (column_sums incidence).
Proof.
  intros Hcs. unfold CovertypeDataset_process. rewrite Hcs.
  destruct (outcome_map _ lines) as [parsed|e] eqn:Eparse; [|discriminate].
  destruct (np_array_2d _) as [raw|] eqn:Eraw; [|discriminate].
  destruct (ncols raw <? 10)%nat eqn:Ec; [discriminate|]. apply Nat.ltb_ge in Ec.
  destruct (covertype_bins raw (num_bins self)) as [|edge edges]; [discriminate|].
  destruct (np_array_2d_wf _ Eraw) as [Hwf Hrows].
  destruct (covertype_incidence_wf (edge :: edges) Hwf Ec) as [Hwf' Hn'].
  assert (Hlabels : length (map snd parsed) =
                    nrows (covertype_incidence raw (edge :: edges))).
  { rewrite Hn'. unfold nrows. now rewrite Hrows, !length_map. }
  destruct (@select_classes_rows cs _ _ Hwf' Hlabels)
    as (inc' & labels' & E & Hn & Hall & Hwf2 & Hsums).
  rewrite E.
  destruct (save_processed_disk collate float_of_int (base self) (Array2 inc')
              labels' fs) as [(path & M & HM & Es & _)|(e & Es & _)];
    rewrite Es; [|discriminate].
  injection HM as <-.
  intros H. injection H as <-.
  exists path, inc', labels'.
  split; [reflexivity|]. split; [exact Hwf2|]. split; [exact Hn|]. split; [|split].
  - rewrite <- (Forall2_length Hall).
    etransitivity; [apply filter_length_le|].
    rewrite length_map. now rewrite (outcome_map_length _ _ Eparse).
  - clear - Hall. induction Hall as [|l p ls ps [Hp _] _ IH]; constructor; auto.
  - exact Hsums.
Qed.

End CovertypeFacts.

Unset Implicit Arguments.

(** ** Runs of the Covertype code on concrete inputs *)

Lemma select_classes_spec_witness :
  wf_matrix incidence_small /\
  length labels_small = nrows incidence_small /\
  exists incidence' labels',
    select_classes [4; 5]%Z incidence_small labels_small = Ok (incidence', labels') /\
    nrows incidence' = length labels' /\
    Forall2 (fun l p => (0 <= p < Z.of_nat (length [4; 5]%Z))%Z /\
                        nth (Z.to_nat p) [4; 5]%Z 0%Z = l)
      (filter (fun l => existsb (Z.eqb l) [4; 5]%Z) labels_small) labels' /\
    wf_matrix incidence' /\
    Forall (fun s => (0 < s)%Z) (column_sums incidence') /\
    exists kept_rows sums,
      kept_rows =
        map snd (filter (fun q => existsb (Z.eqb (fst q)) [4; 5]%Z)
                   (combine labels_small (rows incidence_small))) /\
      length sums = ncols incidence_small /\
      (forall j, j < ncols incidence_small ->
         nth j sums 0%Z =
         fold_left add64 (map (fun r => nth j r 0%Z) kept_rows) 0%Z) /\
      rows incidence' =
        map (fun r => map snd (filter (fun q => (0 <? fst q)%Z) (combine sums r)))
          kept_rows /\
      ncols incidence' = length (filter (fun s => (0 <? s)%Z) sums).
Proof.
  assert (Hwf : wf_matrix incidence_small).
  { repeat (constructor; [reflexivity|]). constructor. }
  split; [exact Hwf|]. split; [reflexivity|].
  exact (@select_classes_spec [4; 5]%Z incidence_small labels_small Hwf eq_refl).
Defined.

Lemma covertype_sample_columns (attr : nat) :
  attr < 10 ->
  Forall (fun c => (- 2 ^ 63 <= c < 2 ^ 63 - 1)%Z) (int_column attr covertype_sample_raw) /\
  numbers_only (int_column attr covertype_sample_raw) 2 = true.
Proof.
  intros H.
  do 10 (destruct attr as [|attr];
         [split; [repeat (constructor; [cbv; split; [discriminate | reflexivity]|]);
                  constructor
                 | vm_compute; reflexivity]|]).
  lia.
Qed.

Lemma covertype_bins_cover_witness :
  wf_matrix covertype_sample_raw /\
  10 <= ncols covertype_sample_raw /\
  (1 <= 2)%Z /\
  (forall attr, attr < 10 ->
     Forall (fun c => (- 2 ^ 63 <= c < 2 ^ 63 - 1)%Z)
       (int_column attr covertype_sample_raw) /\
     numbers_only (int_column attr covertype_sample_raw) 2 = true) /\
  length (covertype_bins covertype_sample_raw 2) = 10 * Z.to_nat 2 /\
  (forall edge, In edge (covertype_bins covertype_sample_raw 2) ->
     length edge = nrows covertype_sample_raw) /\
  (forall attr v, attr < 10 -> v < nrows covertype_sample_raw ->
     exists i, i < Z.to_nat 2 /\
       nth v (nth (attr * Z.to_nat 2 + i) (covertype_bins covertype_sample_raw 2) [])
         false = true).
Proof.
  assert (Hwf : wf_matrix covertype_sample_raw).
  { repeat (constructor; [reflexivity|]). constructor. }
  assert (Hc : 10 <= ncols covertype_sample_raw) by (simpl; lia).
  assert (Hnb : (1 <= 2)%Z) by lia.
  split; [exact Hwf|]. split; [exact Hc|]. split; [exact Hnb|].
  split; [exact covertype_sample_columns|].
  exact (@covertype_bins_cover covertype_sample_raw 2 Hwf Hc Hnb covertype_sample_columns).
Defined.

Lemma covertype_saves_selected_classes_witness :
  classes covertype45 = Some [4; 5]%Z /\
  CovertypeDataset_process collate_list int_double float32_of_Z covertype45
    covertype_sample [] =
    (Ok tt,
     [("processed/data.pt",
       collate_list
         [mkData
            (Matrix 12
               [[1; 0; 1; 1; 1; 1; 1; 1; 1; 1; 1; 1];
                [0; 1; 1; 1; 1; 1; 1; 1; 1; 1; 1; 1]]%float)
            [0; 1]%Z
            (Some [1; 1; 1; 1; 1; 1; 1; 1; 1; 1; 1; 1]%float)])]) /\
  exists path incidence labels,
    [("processed/data.pt",
       collate_list
         [mkData
            (Matrix 12
               [[1; 0; 1; 1; 1; 1; 1; 1; 1; 1; 1; 1];
                [0; 1; 1; 1; 1; 1; 1; 1; 1; 1; 1; 1]]%float)
            [0; 1]%Z
            (Some [1; 1; 1; 1; 1; 1; 1; 1; 1; 1; 1; 1]%float)])] =
    (path, collate_list [mkData (map_matrix float32_of_Z incidence) labels
                           (Some (np_ones (ncols incidence)))]) :: [] /\
    wf_matrix incidence /\
    nrows incidence = length labels /\
    length labels <= length covertype_sample /\
    Forall (fun p => (0 <= p < Z.of_nat (length [4; 5]%Z))%Z) labels /\
    Forall (fun s => (0 < s)%Z) (column_sums incidence).
Proof.
  assert (Hrun : CovertypeDataset_process collate_list int_double float32_of_Z covertype45
    covertype_sample [] =
    (Ok tt,
     [("processed/data.pt",
       collate_list
         [mkData
            (Matrix 12
               [[1; 0; 1; 1; 1; 1; 1; 1; 1; 1; 1; 1];
                [0; 1; 1; 1; 1; 1; 1; 1; 1; 1; 1; 1]]%float)
            [0; 1]%Z
            (Some [1; 1; 1; 1; 1; 1; 1; 1; 1; 1; 1; 1]%float)])])) by (vm_compute; reflexivity).
  split; [reflexivity|]. split; [exact Hrun|].
  exact (@covertype_saves_selected_classes float float_scalar _ collate_list int_double
           float32_of_Z covertype45 covertype_sample [] _ [4; 5]%Z eq_refl Hrun).
Defined.

